(** * controller-grpc: the streaming controller API

    A shallow embedding of [controller-grpc/controller.go]: the
    subscription handle ([subscribeEvents]), the snapshot and live phases
    of the [Stream*] handlers, the synchronous waits ([createScale],
    [CreateDeployment]) and [UpdateApp].

    Go values are modelled as follows.  An [int64] or [int32] is a [Z];
    a [map[string]string] is a [gmap string string]; a
    [map[string]interface{}] is a [gmap string Value]; a
    [map[string]struct{}] used as a set is a [gset string]; a slice is a
    [list]; a nil-able pointer is an [option]; a Go [error] result is a
    sum or an [option error].  A receive loop over a channel is a
    recursion over the list of values received before the channel is
    closed.  The calls a handler makes on its collaborators (the event
    bus, the repos, the client stream) are recorded, in order, in a trace
    threaded through a state monad. *)

From stdpp Require Import base option list strings pretty gmap.
From Stdlib Require Import ZArith Ascii DecimalString Sorted.

#[local] Set Warnings "-clear-no-such-hyp".

Local Open Scope string_scope.
Local Open Scope Z_scope.
Local Open Scope list_scope.

(** ** Errors *)

(** The status codes of [google.golang.org/grpc/codes] that the service
    can surface. *)
Inductive Code :=
| OK | Canceled | Unknown | InvalidArgument | DeadlineExceeded | NotFound
| AlreadyExists | PermissionDenied | ResourceExhausted | FailedPrecondition
| Aborted | OutOfRange | Unimplemented | Internal | Unavailable | DataLoss
| Unauthenticated.

(** A Go [error].  [errors_New] stands for a value built by [errors.New]
    or [fmt.Errorf]: a message and nothing else.  [status_Error] is an
    error that carries a gRPC status. *)
Inductive error :=
| errors_New (msg : string)
| status_Error (c : Code) (msg : string).

#[global] Instance Code_eq_dec : EqDecision Code.
Proof. solve_decision. Defined.

#[global] Instance error_eq_dec : EqDecision error.
Proof. solve_decision. Defined.

(** [err.Error()]. *)
Definition Error (e : error) : string :=
  match e with
  | errors_New msg => msg
  | status_Error _ msg => msg
  end.

(** What [status.Code] reports for an error returned by a handler: an
    error without a status is reported to the client as [Unknown]. *)
Definition status_Code (e : option error) : Code :=
  match e with
  | None => OK
  | Some (errors_New _) => Unknown
  | Some (status_Error c _) => c
  end.

(** ** Entities *)

Abbreviation Labels := (gmap string string).

(** [ct.App], the stored application. *)
Record ct_App := {
  ct_App_ID : string;
  ct_App_Name : string;
  ct_App_Meta : Labels;
  ct_App_Strategy : string;
  ct_App_DeployTimeout : Z;
}.

(** [protobuf.App], the projection sent to and received from clients. *)
Record App := {
  App_Name : string;
  App_DisplayName : string;
  App_Labels : Labels;
  App_Strategy : string;
  App_DeployTimeout : Z;
}.

(** [ct.ScaleRequest]; [NewProcesses] and [NewTags] are pointers. *)
Record ct_ScaleRequest := {
  ct_ScaleRequest_ID : string;
  ct_ScaleRequest_AppID : string;
  ct_ScaleRequest_ReleaseID : string;
  ct_ScaleRequest_State : string;
  ct_ScaleRequest_NewProcesses : option (gmap string Z);
  ct_ScaleRequest_NewTags : option (gmap string Labels);
}.

(** [protobuf.ScaleRequest]; the handlers read its [Name] only. *)
Record ScaleRequest := {
  ScaleRequest_Name : string;
  ScaleRequest_State : string;
}.

(** [ct.Release]. *)
Record ct_Release := {
  ct_Release_ID : string;
  ct_Release_AppID : string;
  ct_Release_Meta : Labels;
}.

(** [protobuf.Release]. *)
Record Release := {
  Release_Name : string;
  Release_Labels : Labels;
}.

(** [ct.Deployment]. *)
Record ct_Deployment := {
  ct_Deployment_ID : string;
  ct_Deployment_AppID : string;
  ct_Deployment_NewReleaseID : string;
  ct_Deployment_Status : string;
}.

(** [protobuf.Deployment]. *)
Record Deployment := {
  Deployment_Name : string;
  Deployment_Status : string;
}.

(** [ct.ExpandedDeployment]. *)
Record ct_ExpandedDeployment := {
  ct_ExpandedDeployment_ID : string;
  ct_ExpandedDeployment_Type : string;
  ct_ExpandedDeployment_Status : string;
}.

(** [protobuf.ExpandedDeployment]. *)
Record ExpandedDeployment := {
  ExpandedDeployment_Name : string;
  ExpandedDeployment_Type : string;
  ExpandedDeployment_Status : string;
}.

(** [ct.DeploymentEvent], the payload of a deployment event. *)
Record ct_DeploymentEvent := {
  ct_DeploymentEvent_Status : string;
  ct_DeploymentEvent_JobType : string;
  ct_DeploymentEvent_JobState : string;
  ct_DeploymentEvent_Error : string;
}.

(** [data.PageToken]. *)
Record PageToken := {
  PageToken_BeforeID : option string;
  PageToken_Size : Z;
}.

(** The constants of package [ct] that the handlers name. *)
Definition EventTypeApp : string := "app".
Definition EventTypeAppDeletion : string := "app_deletion".
Definition EventTypeAppRelease : string := "app_release".
Definition EventTypeRelease : string := "release".
Definition EventTypeDeployment : string := "deployment".
Definition EventTypeScaleRequest : string := "scale_request".
Definition EventOpCreate : string := "create".
Definition EventOpUpdate : string := "update".
Definition ScaleRequestStatePending : string := "pending".
Definition ScaleRequestStateCancelled : string := "cancelled".
Definition ScaleRequestStateComplete : string := "complete".

(** [ct.Event]; [Raw] is the type of the undecoded payload
    ([json.RawMessage]). *)
Record Event (Raw : Type) := {
  Event_ID : Z;
  Event_AppID : string;
  Event_ObjectType : string;
  Event_ObjectID : string;
  Event_Op : string;
  Event_Data : Raw;
  Event_CreatedAt : Z;
}.
Arguments Event_ID {Raw} _.
Arguments Event_AppID {Raw} _.
Arguments Event_ObjectType {Raw} _.
Arguments Event_ObjectID {Raw} _.
Arguments Event_Op {Raw} _.
Arguments Event_Data {Raw} _.
Arguments Event_CreatedAt {Raw} _.

(** ** Collaborators outside this file *)

(** Package [utils] and the matchers of package [protobuf]. *)
Class Utils := {
  ParseIDFromName : string → string → string;
  ParseIDsFromNameFilters : list string → string → list string;
  ParseAppIDsFromNameFilters : list string → list string;
  ParseReleaseIDsFromNameFilters : list string → list string;
  ConvertApp : ct_App → App;
  ConvertScaleRequest : ct_ScaleRequest → ScaleRequest;
  ConvertRelease : ct_Release → Release;
  ConvertDeployment : ct_Deployment → Deployment;
  ConvertDeploymentEventJobState : string → string;
  TimestampProto : Z → Z;
  ConvertExpandedDeployment : ct_ExpandedDeployment → ExpandedDeployment;
  ConvertError : error → string → error;
  MatchLabelFilters : Labels → list Labels → bool;
  ReleaseTypeMatcher_Match : list string → string → bool;
  (** [fmt.Errorf(format)] with no operands: the message it builds. *)
  Errorf : string → string;
  (** The message of the timeout error of [createScale], built from
      [ct.DefaultScaleTimeout]. *)
  scaleTimeoutMessage : string;
}.

(** [encoding/json] on the payload types the handlers decode.  [None] is
    a decoding error (the handlers print it and go on); a payload that
    decodes is a JSON object.  The literal [null], which decodes into a
    pointer without an error and leaves it nil (lines 404, 627, 749, 1001
    and 1071), is not a payload of this model: the payloads are the rows
    of the event log as the repos wrote them. *)
Class Json (Raw : Type) := {
  Unmarshal_App : Raw → option ct_App;
  Unmarshal_ScaleRequest : Raw → option ct_ScaleRequest;
  Unmarshal_Release : Raw → option ct_Release;
  Unmarshal_DeploymentEvent : Raw → option ct_DeploymentEvent;
}.

(** ** UpdateApp *)

(** A value stored in the [map[string]interface{}] handed to the repo. *)
Inductive Value :=
| VLabels (l : Labels)
| VString (s : string)
| VInt (n : Z).

#[global] Instance Value_eq_dec : EqDecision Value.
Proof. solve_decision. Defined.

Record UpdateAppRequest := {
  UpdateAppRequest_App : App;
  (** [GetUpdateMask()]: [None] is a nil mask, [Some paths] a mask. *)
  UpdateAppRequest_UpdateMask : option (list string);
}.

Module UpdateApp.

(** The map built before the mask is looked at (lines 447-457). *)
Definition unmasked (app : App) : gmap string Value :=
  let data : gmap string Value := {[ "meta" := VLabels (App_Labels app) ]} in
  let data :=
    if decide (App_Strategy app ≠ "")
    then <[ "strategy" := VString (App_Strategy app) ]> data else data in
  if decide (App_DeployTimeout app > 0)
  then <[ "deploy_timeout" := VInt (App_DeployTimeout app) ]> data else data.

(** The renaming applied to one path of the mask. *)
Definition alias (path : string) : string :=
  if decide (path = "labels") then "meta" else path.

(** The loop over the paths of the mask (lines 462-469). *)
Definition mask_step (data maskedData : gmap string Value) (path : string)
  : gmap string Value :=
  let path := alias path in
  match data !! path with
  | Some v => <[ path := v ]> maskedData
  | None => maskedData
  end.

Definition masked (data : gmap string Value) (paths : list string)
  : gmap string Value :=
  foldl (mask_step data) ∅ paths.

(** The map [data] passed to [appRepo.Update]. *)
Definition data (req : UpdateAppRequest) : gmap string Value :=
  let d := unmasked (UpdateAppRequest_App req) in
  match UpdateAppRequest_UpdateMask req with
  | Some paths => if decide (0 < length paths)%nat then masked d paths else d
  | None => d
  end.

Section Handler.
Context {utils : Utils}.
(** [appRepo.Update]. *)
Variable appRepo_Update : string → gmap string Value → error + ct_App.

Definition UpdateApp (req : UpdateAppRequest) : error + App :=
  let app := UpdateAppRequest_App req in
  match appRepo_Update (ParseIDFromName (App_Name app) "apps") (data req) with
  | inl err => inl (ConvertError err (Error err))
  | inr ctApp => inr (ConvertApp ctApp)
  end.
End Handler.

(** The reading of the specification: without a mask, a field is
    written exactly when its value in the projection is not the zero
    value of its type. *)
Definition spec_unmasked (app : App) : gmap string Value :=
  let data : gmap string Value :=
    if decide (App_Labels app ≠ ∅)
    then {[ "meta" := VLabels (App_Labels app) ]} else ∅ in
  let data :=
    if decide (App_Strategy app ≠ "")
    then <[ "strategy" := VString (App_Strategy app) ]> data else data in
  if decide (App_DeployTimeout app ≠ 0)
  then <[ "deploy_timeout" := VInt (App_DeployTimeout app) ]> data else data.

End UpdateApp.

(** ** The event bus *)

(** Package [data]: the process-wide listener on the change log.  A
    [DataListener] is the state of one [*data.EventListener]; a
    [Subscriber] names one [*data.EventSubscriber]. *)
Class EventBus := {
  DataListener : Type;
  Subscriber : Type;
  Subscriber_eq_dec :: EqDecision Subscriber;
  NewEventListener : DataListener;
  IsClosed : DataListener → bool;
  Listen : DataListener → DataListener * option error;
  Subscribe : DataListener → string → list string → list string →
              DataListener * (error + Subscriber);
}.

(** The handle returned by [subscribeEvents] (the [EventListener] of this
    file).  Its [Events] channel is the list of live events handed to each
    handler. *)
Record EventListener {bus : EventBus} := {
  EventListener_Err : option error;
  EventListener_subs : list Subscriber;
}.

(** ** Requests and responses *)

(** The fields of [StreamAppsRequest], [StreamScalesRequest],
    [StreamReleasesRequest] and [StreamDeploymentsRequest]; a handler
    reads the fields its own request type has. *)
Record StreamRequest := {
  PageSize : Z;
  PageToken_ : string;
  NameFilters : list string;
  LabelFilters : list Labels;
  TypeFilters : list string;
  StreamUpdates : bool;
  StreamCreates : bool;
}.

Record CreateScaleRequest := {
  CreateScaleRequest_Parent : string;
  CreateScaleRequest_Processes : gmap string Z;
  CreateScaleRequest_Tags : gmap string Labels;
}.

Record CreateDeploymentRequest := {
  CreateDeploymentRequest_Parent : string;
  CreateDeploymentRequest_Release : string;
  CreateDeploymentRequest_ScaleRequest : option CreateScaleRequest;
}.

(** [protobuf.DeploymentEvent], the message of the [CreateDeployment]
    stream. *)
Record DeploymentEvent := {
  DeploymentEvent_Deployment : Deployment;
  DeploymentEvent_JobType : string;
  DeploymentEvent_JobState : string;
  DeploymentEvent_Error : string;
  DeploymentEvent_CreateTime : Z;
}.

(** A message written to the client stream with [stream.Send]. *)
Inductive Response :=
| StreamAppsResponse (apps : list App) (nextPageToken : string) (pageComplete : bool)
| StreamScalesResponse (scales : list ScaleRequest) (nextPageToken : string) (pageComplete : bool)
| StreamReleasesResponse (releases : list Release) (nextPageToken : string) (pageComplete : bool)
| StreamDeploymentsResponse (ds : list ExpandedDeployment) (nextPageToken : string) (pageComplete : bool)
| DeploymentEventResponse (de : DeploymentEvent).

(** [data.ListScaleRequestOptions]. *)
Record ListScaleRequestOptions := {
  ListScaleRequestOptions_PageToken : PageToken;
  ListScaleRequestOptions_AppIDs : list string;
  ListScaleRequestOptions_ReleaseIDs : list string;
  ListScaleRequestOptions_ScaleIDs : list string;
}.

(** [data.ListDeploymentOptions]. *)
Record ListDeploymentOptions := {
  ListDeploymentOptions_PageToken : PageToken;
  ListDeploymentOptions_AppIDs : list string;
  ListDeploymentOptions_DeploymentIDs : list string;
}.

(** The historical queries of the snapshot phase. *)
Inductive Query :=
| appRepo_ListPage_query (pageToken : PageToken)
| formationRepo_ListScaleRequests_query (opts : ListScaleRequestOptions)
| eventRepo_LegacyListEvents_query (appIDs objectTypes : list string)
    (beforeID : option Z) (count : Z)
| deploymentRepo_ListPage_query (opts : ListDeploymentOptions).

(** Package [data]: the page-token codec and the list queries of the
    repos.  A list query is a function of its arguments: the stored
    entities do not change while one snapshot is read. *)
Class Repos (Raw : Type) := {
  ParsePageToken : string → error + PageToken;
  PageToken_String : option PageToken → string;
  BeforeIDInt64 : PageToken → option Z;
  appRepo_ListPage : PageToken → error + (list ct_App * option PageToken);
  formationRepo_ListScaleRequests :
    ListScaleRequestOptions → error + (list ct_ScaleRequest * option PageToken);
  eventRepo_LegacyListEvents :
    list string → list string → option Z → Z → error + list (Event Raw);
  deploymentRepo_ListPage :
    ListDeploymentOptions → error + (list ct_ExpandedDeployment * option PageToken);
}.

(** ** The trace and the handler monad *)

(** One call of a handler on a collaborator. *)
Inductive Call {bus : EventBus} :=
| CallSubscribe (appID : string) (objectTypes objectIDs : list string)
    (r : error + Subscriber)
| CallGo (sub : Subscriber)
| CallClose (sub : Subscriber)
| CallQuery (q : Query)
| CallAddScaleRequest (scaleReq : ct_ScaleRequest)
| CallDeploymentAdd (appID releaseID : string)
| CallSend (r : Response).

(** The state a handler runs in: the [eventListener] field of [Config]
    and the calls made so far. *)
Record World {bus : EventBus} := {
  eventListener : option DataListener;
  trace : list Call;
}.

(** How a Go function ends: it returns, it panics, or (for the recursion
    of [listApps] only) the model has no fuel left. *)
Inductive Outcome (A : Type) :=
| Ret (a : A)
| Panic
| NoFuel.
Arguments Ret {A} _.
Arguments Panic {A}.
Arguments NoFuel {A}.

Definition M {bus : EventBus} (A : Type) : Type := World → A * World.

#[global] Instance M_ret {bus : EventBus} : MRet M := λ A a w, (a, w).
#[global] Instance M_bind {bus : EventBus} : MBind M :=
  λ A B f m w, let '(a, w') := m w in f a w'.

(** The state after further calls. *)
Definition log {bus : EventBus} (cs : list Call) (w : World) : World :=
  {| eventListener := eventListener w; trace := trace w ++ cs |}.

(** Record one call. *)
Definition call {bus : EventBus} (c : Call) : M unit := λ w, (tt, log [c] w).

(** Run a handler from a state and keep the calls it made. *)
Definition calls {bus : EventBus} {A} (m : M A) (w : World) : list Call :=
  trace (snd (m w)).

Definition result {bus : EventBus} {A} (m : M A) (w : World) : A := fst (m w).

Section Subscription.
Context {bus : EventBus}.

(** [maybeStartEventListener] (lines 152-160): the listener in use and
    the error of [Listen], if it had to be started. *)
Definition maybeStartEventListener : M (DataListener * option error) :=
  λ w,
    let start :=
      let '(l, err) := Listen NewEventListener in
      ((l, err), {| eventListener := Some l; trace := trace w |}) in
    match eventListener w with
    | Some l => if negb (IsClosed l) then ((l, None), w) else start
    | None => start
    end.

(** The loop of [subscribeEvents] (lines 199-215): one subscriber and one
    forwarding goroutine per app id; the first error ends the call. *)
Fixpoint subscribeEach (l : DataListener) (objectTypes objectIDs : list string)
    (appIDs : list string) (subs : list Subscriber) (tr : list Call)
  : DataListener * list Call * (error + list Subscriber) :=
  match appIDs with
  | [] => (l, tr, inr subs)
  | appID :: appIDs =>
      let '(l', r) := Subscribe l appID objectTypes objectIDs in
      match r with
      | inl err => (l', tr ++ [CallSubscribe appID objectTypes objectIDs r], inl err)
      | inr sub =>
          subscribeEach l' objectTypes objectIDs appIDs (subs ++ [sub])
            (tr ++ [CallSubscribe appID objectTypes objectIDs r; CallGo sub])
      end
  end.

(** [subscribeEvents] (lines 178-218). *)
Definition subscribeEvents (appIDs objectTypes objectIDs : list string)
  : M (error + EventListener) :=
  '(l, err) ← maybeStartEventListener;
  match err with
  | Some err => mret (inl err)
  | None =>
      let appIDs := if decide (length appIDs = 0%nat) then [""] else appIDs in
      λ w,
        let '(l', tr, r) :=
          subscribeEach l objectTypes objectIDs appIDs [] (trace w) in
        let w' := {| eventListener := Some l'; trace := tr |} in
        match r with
        | inl err => (inl err, w')
        | inr subs =>
            (inr {| EventListener_Err := None; EventListener_subs := subs |}, w')
        end
  end.

(** [EventListener.Close] (lines 169-176): every underlying subscriber is
    closed.  The handlers defer it, so the [Err] it assigns is read by
    none of them. *)
Definition Close (e : EventListener) : M unit :=
  λ w, (tt, log (CallClose <$> EventListener_subs e) w).

(** A subscriber is open after a trace when the trace records its
    creation and no later [Close] of it. *)
Fixpoint open_after (tr : list Call) (s : Subscriber) (was_open : bool) : bool :=
  match tr with
  | [] => was_open
  | CallSubscribe _ _ _ (inr s') :: tr =>
      open_after tr s (if decide (s' = s) then true else was_open)
  | CallClose s' :: tr =>
      open_after tr s (if decide (s' = s) then false else was_open)
  | _ :: tr => open_after tr s was_open
  end.

End Subscription.

(** ** createScale and CreateDeployment *)

(** What ends the wait of [createScale] when no event does: the channel
    of the handle is closed, or the timer of [ct.DefaultScaleTimeout]
    fires. *)
Inductive Wake := ChannelClosed | TimerFired.

(** The surroundings of one [createScale] call: what
    [formationRepo.AddScaleRequest] answers (on success, the request as
    stored, with its [ID]), the events the [select] receives before
    anything else wakes it, and what wakes it then. *)
Record ScaleEnv (Raw : Type) := {
  ScaleEnv_AddScaleRequest : ct_ScaleRequest → error + ct_ScaleRequest;
  ScaleEnv_events : list (Event Raw);
  ScaleEnv_wake : Wake;
}.
Arguments ScaleEnv_AddScaleRequest {Raw} _.
Arguments ScaleEnv_events {Raw} _.
Arguments ScaleEnv_wake {Raw} _.

(** How the [select] loop of [createScale] is left. *)
Inductive WaitResult :=
| WaitCancelled   (* return at line 530 *)
| WaitTimedOut    (* return at line 537 *)
| WaitBreak.      (* break outer, at line 516 or 532 *)

Section Waits.
Context {bus : EventBus} {utils : Utils} {Raw : Type} {json : Json Raw}.

(** The loop of lines 511-539, for the request whose id is [id]. *)
Fixpoint createScale_wait (id : string) (events : list (Event Raw)) (wake : Wake)
  : WaitResult :=
  match events with
  | [] =>
      match wake with
      | ChannelClosed => WaitBreak
      | TimerFired => WaitTimedOut
      end
  | event :: events =>
      if decide (Event_ObjectType event = EventTypeScaleRequest) then
        match Unmarshal_ScaleRequest (Event_Data event) with
        | None => createScale_wait id events wake
        | Some req =>
            if decide (ct_ScaleRequest_ID req ≠ id) then
              createScale_wait id events wake
            else if decide (ct_ScaleRequest_State req = ScaleRequestStateCancelled) then
              WaitCancelled
            else if decide (ct_ScaleRequest_State req = ScaleRequestStateComplete) then
              WaitBreak
            else createScale_wait id events wake
        end
      else createScale_wait id events wake
  end.

(** [createScale] (lines 481-546). *)
Definition createScale (req : CreateScaleRequest) (env : ScaleEnv Raw)
  : M (error + ScaleRequest) :=
  let appID := ParseIDFromName (CreateScaleRequest_Parent req) "apps" in
  let releaseID := ParseIDFromName (CreateScaleRequest_Parent req) "releases" in
  let processes := CreateScaleRequest_Processes req in
  let tags := CreateScaleRequest_Tags req in
  r ← subscribeEvents [appID] [EventTypeScaleRequest] [];
  match r with
  | inl err => mret (inl err)
  | inr sub =>
      let scaleReq := {|
        ct_ScaleRequest_ID := "";
        ct_ScaleRequest_AppID := appID;
        ct_ScaleRequest_ReleaseID := releaseID;
        ct_ScaleRequest_State := ScaleRequestStatePending;
        ct_ScaleRequest_NewProcesses := Some processes;
        ct_ScaleRequest_NewTags := Some tags |} in
      res ← (call (CallAddScaleRequest scaleReq);;
             match ScaleEnv_AddScaleRequest env scaleReq with
             | inl err => mret (inl err)
             | inr scaleReq =>
                 match createScale_wait (ct_ScaleRequest_ID scaleReq)
                         (ScaleEnv_events env) (ScaleEnv_wake env) with
                 | WaitCancelled => mret (inl (errors_New "scale request cancelled"))
                 | WaitTimedOut => mret (inl (errors_New scaleTimeoutMessage))
                 | WaitBreak =>
                     match EventListener_Err sub with
                     | Some err => mret (inl (ConvertError err (Error err)))
                     | None => mret (inr (ConvertScaleRequest scaleReq))
                     end
                 end
             end);
      Close sub;;
      mret res
  end.

(** [CreateScale] (lines 548-550). *)
Definition CreateScale (req : CreateScaleRequest) (env : ScaleEnv Raw)
  : M (error + ScaleRequest) :=
  createScale req env.

(** The surroundings of one [CreateDeployment] call: what
    [deploymentRepo.Add] answers, the events received on the handle, each
    with what [deploymentRepo.Get] answers when that event is handled,
    and the surroundings of the embedded [createScale]. *)
Record DeploymentEnv := {
  DeploymentEnv_Add : string → string → error + ct_Deployment;
  DeploymentEnv_events : list (Event Raw * (error + ct_Deployment));
  DeploymentEnv_scale : ScaleEnv Raw;
}.

(** The receive loop of [CreateDeployment] (lines 1062-1108), up to and
    including the [return] or the [break]; the result is the error the
    handler returns. *)
Fixpoint CreateDeployment_loop (req : CreateDeploymentRequest) (sub : EventListener)
    (scale : ScaleEnv Raw) (events : list (Event Raw * (error + ct_Deployment)))
  : M (option error) :=
  match events with
  | [] => mret (EventListener_Err sub)
  | (ctEvent, get) :: events =>
      if decide (Event_ObjectType ctEvent ≠ "deployment") then
        CreateDeployment_loop req sub scale events
      else
        match Unmarshal_DeploymentEvent (Event_Data ctEvent) with
        | None => CreateDeployment_loop req sub scale events
        | Some de =>
            match get with
            | inl _ => CreateDeployment_loop req sub scale events
            | inr d =>
                (if decide (ct_Deployment_Status d = "complete") then
                   match CreateDeploymentRequest_ScaleRequest req with
                   | Some sr =>
                       createScale {|
                         CreateScaleRequest_Parent :=
                           "apps/" +:+ ct_Deployment_AppID d +:+ "/releases/"
                             +:+ ct_Deployment_NewReleaseID d;
                         CreateScaleRequest_Processes := CreateScaleRequest_Processes sr;
                         CreateScaleRequest_Tags := CreateScaleRequest_Tags sr |} scale;;
                       mret tt
                   | None => mret tt
                   end
                 else mret tt);;
                call (CallSend (DeploymentEventResponse {|
                  DeploymentEvent_Deployment := ConvertDeployment d;
                  DeploymentEvent_JobType := ct_DeploymentEvent_JobType de;
                  DeploymentEvent_JobState :=
                    ConvertDeploymentEventJobState (ct_DeploymentEvent_JobState de);
                  DeploymentEvent_Error := ct_DeploymentEvent_Error de;
                  DeploymentEvent_CreateTime := TimestampProto (Event_CreatedAt ctEvent) |}));;
                if decide (ct_Deployment_Status d = "failed") then
                  mret (Some (errors_New (Errorf (ct_DeploymentEvent_Error de))))
                else if decide (ct_Deployment_Status d = "complete") then
                  mret (EventListener_Err sub)
                else CreateDeployment_loop req sub scale events
            end
        end
  end.

(** [CreateDeployment] (lines 1045-1112). *)
Definition CreateDeployment (req : CreateDeploymentRequest) (env : DeploymentEnv)
  : M (option error) :=
  let appID := ParseIDFromName (CreateDeploymentRequest_Parent req) "apps" in
  let releaseID := ParseIDFromName (CreateDeploymentRequest_Release req) "releases" in
  call (CallDeploymentAdd appID releaseID);;
  match DeploymentEnv_Add env appID releaseID with
  | inl err => mret (Some err)
  | inr d =>
      r ← subscribeEvents [appID] [EventTypeDeployment] [ct_Deployment_ID d];
      match r with
      | inl err => mret (Some err)
      | inr sub =>
          res ← CreateDeployment_loop req sub (DeploymentEnv_scale env)
                  (DeploymentEnv_events env);
          Close sub;;
          mret res
      end
  end.

End Waits.

(** ** The Stream handlers *)

Section Streams.
Context {bus : EventBus} {utils : Utils} {Raw : Type} {json : Json Raw} {repos : Repos Raw}.

(** [!(req.StreamUpdates || req.StreamCreates)]. *)
Definition unary (req : StreamRequest) : bool :=
  negb (StreamUpdates req || StreamCreates req).

(** The test on [event.Op] shared by the live loops (lines 412, 653 and
    996). *)
Definition op_accepted (req : StreamRequest) (op : string) : bool :=
  (StreamCreates req && bool_decide (op = EventOpCreate))
  || (StreamUpdates req && bool_decide (op = EventOpUpdate)).

(** [stream.Send] of each response in turn. *)
Definition sends (rs : list Response) : M unit :=
  λ w, (tt, log (CallSend <$> rs) w).

(** A live loop that keeps a watermark: [step currID event] is the new
    watermark and what, if anything, is sent for [event].  The result
    lists each payload sent together with the event it was sent for. *)
Fixpoint run_live {P : Type} (step : Z → Event Raw → Z * option P)
    (currID : Z) (live : list (Event Raw)) : list (Event Raw * P) :=
  match live with
  | [] => []
  | event :: live =>
      let '(currID', sent) := step currID event in
      match sent with
      | Some p => (event, p) :: run_live step currID' live
      | None => run_live step currID' live
      end
  end.

(** Where a Stream handler stands once the bus has delivered the events
    of [live] and nothing more: it has ended, or it is blocked in the
    receive of its live loop. *)
Inductive Standing :=
| Ended (o : Outcome (option error))
| Blocked.

(** The receive of a live loop once the events delivered have been
    handled (lines 398-401, 642-645, 859-862 and 991-994).  On a closed
    channel ([!ok]) the loop is left and the handler goes on with
    [after]; on an open one the handler is blocked.  Nothing in this file
    closes the [Events] channel of a handle: the forwarding goroutines of
    [subscribeEvents] only stop, and [EventListener.Close] closes the
    subscribers of the bus. *)
Definition receive_end (closed : bool) (after : M Standing) : M Standing :=
  if closed then after else mret Blocked.

(** [defer sub.Close()]: it runs when the handler returns or panics, and
    has not run while the handler is blocked. *)
Definition deferred_Close (sub : EventListener) (body : M Standing) : M Standing :=
  res ← body;
  match res with
  | Ended _ => Close sub;; mret res
  | Blocked => mret Blocked
  end.

(** *** StreamApps *)

(** The page size and token in use after lines 270-280. *)
Definition page_setup (reqPageSize : Z) (pageToken : PageToken) : Z * PageToken :=
  if decide (reqPageSize > 0)
  then (reqPageSize,
        {| PageToken_BeforeID := PageToken_BeforeID pageToken;
           PageToken_Size := reqPageSize |})
  else (PageToken_Size pageToken, pageToken).

(** The loop of lines 300-325: [n] apps have been kept so far. *)
Fixpoint listApps_filter (appIDs : list string) (labelFilters : list Labels)
    (pageSize : Z) (n : Z) (ctApps : list ct_App) : list App :=
  match ctApps with
  | [] => []
  | a :: ctApps =>
      let found :=
        existsb (λ appID, bool_decide (ct_App_ID a = appID)
                          || bool_decide (ct_App_Name a = appID)) appIDs in
      if bool_decide (appIDs ≠ []) && negb found then
        listApps_filter appIDs labelFilters pageSize n ctApps
      else if negb (MatchLabelFilters (ct_App_Meta a) labelFilters) then
        listApps_filter appIDs labelFilters pageSize n ctApps
      else
        ConvertApp a ::
          (if decide (n + 1 = pageSize) then []
           else listApps_filter appIDs labelFilters pageSize (n + 1) ctApps)
  end.

(** The request of the recursive call of [listApps] (lines 330-337). *)
Definition listApps_next (req : StreamRequest) (nextPageToken : option PageToken)
  : StreamRequest := {|
  PageSize := PageSize req;
  PageToken_ := PageToken_String nextPageToken;
  NameFilters := NameFilters req;
  LabelFilters := LabelFilters req;
  TypeFilters := TypeFilters req;
  StreamUpdates := StreamUpdates req;
  StreamCreates := StreamCreates req |}.

(** [listApps] (lines 269-346).  The recursion is on the page token the
    repo hands back, so the model takes [fuel]: the number of pages it may
    fetch. *)
Fixpoint listApps (fuel : nat) (req : StreamRequest)
  : M (Outcome (error + (list App * option PageToken))) :=
  match fuel with
  | O => mret NoFuel
  | S fuel =>
      match ParsePageToken (PageToken_ req) with
      | inl err => mret (Ret (inl err))
      | inr pageToken =>
          let '(pageSize, pageToken) := page_setup (PageSize req) pageToken in
          call (CallQuery (appRepo_ListPage_query pageToken));;
          match appRepo_ListPage pageToken with
          | inl err => mret (Ret (inl err))
          | inr (ctApps, nextPageToken) =>
              let pageSize :=
                if decide (pageSize = 0) then Z.of_nat (length ctApps) else pageSize in
              let appIDs := ParseAppIDsFromNameFilters (NameFilters req) in
              (* make([]*protobuf.App, 0, pageSize) *)
              if decide (pageSize < 0) then mret Panic else
              let apps :=
                listApps_filter appIDs (LabelFilters req) pageSize 0 ctApps in
              let n := Z.of_nat (length apps) in
              match nextPageToken with
              | Some npt =>
                  if decide (n < pageSize) then
                    r ← listApps fuel (listApps_next req nextPageToken);
                    match r with
                    | NoFuel => mret NoFuel
                    | Panic => mret Panic
                    | Ret (inl err) => mret (Ret (inr (apps, nextPageToken)))
                    | Ret (inr (nextApps, npt)) => mret (Ret (inr (nextApps ++ apps, npt)))
                    end
                  else mret (Ret (inr (apps, nextPageToken)))
              | None => mret (Ret (inr (apps, nextPageToken)))
              end
          end
      end
  end.

(** What the live loop of [StreamApps] sends for one event (lines
    402-433): nothing for a deletion or an app release. *)
Definition StreamApps_forward (req : StreamRequest) (event : Event Raw) : option App :=
  if decide (Event_ObjectType event = EventTypeApp) then
    match Unmarshal_App (Event_Data event) with
    | None => None
    | Some ctApp =>
        let app := ConvertApp ctApp in
        let shouldSend := op_accepted req (Event_Op event) in
        let shouldSend :=
          if negb (MatchLabelFilters (App_Labels app) (LabelFilters req))
          then false else shouldSend in
        if shouldSend then Some app else None
    end
  else None.

(** The live loop of [StreamApps] (lines 397-434); it keeps no
    watermark. *)
Definition StreamApps_live (req : StreamRequest) (live : list (Event Raw))
  : list (Event Raw * App) :=
  run_live (λ currID event, (currID, StreamApps_forward req event)) 0 live.

(** [StreamApps] (lines 348-443), up to the point where the events of
    [live] have been received; [closed] says whether the channel of the
    handle is closed after them. *)
Definition StreamApps (fuel : nat) (req : StreamRequest) (live : list (Event Raw))
    (closed : bool) : M Standing :=
  let refresh_send (rest : M Standing) : M Standing :=
    r ← listApps fuel req;
    match r with
    | NoFuel => mret (Ended NoFuel)
    | Panic => mret (Ended Panic)
    | Ret (inl err) => mret (Ended (Ret (Some err)))
    | Ret (inr (apps, nextPageToken)) =>
        call (CallSend (StreamAppsResponse apps (PageToken_String nextPageToken) true));;
        rest
    end in
  if unary req then refresh_send (mret (Ended (Ret None)))
  else
    r ← subscribeEvents (ParseAppIDsFromNameFilters (NameFilters req))
          [EventTypeApp; EventTypeAppDeletion; EventTypeAppRelease] [];
    match r with
    | inl err => mret (Ended (Ret (Some err)))
    | inr sub =>
        deferred_Close sub (refresh_send (
          sends ((λ '(_, app), StreamAppsResponse [app] "" false)
                   <$> StreamApps_live req live);;
          receive_end closed
            match EventListener_Err sub with
            | Some err => mret (Ended (Ret (Some (ConvertError err (Error err)))))
            | None => mret (Ended (Ret None))
            end))
    end.

(** *** StreamScales *)

(** [len(m) > 0] for a [map[string]struct{}]. *)
Definition nonempty (m : gset string) : bool := bool_decide (0 < size m)%nat.

(** The name filter of the live loop of [StreamScales] (lines 665-690):
    [true] when the loop goes on to [stream.Send]. *)
Definition StreamScales_nameFilter (releaseIDsMap appIDsMap scaleIDsMap : gset string)
    (scale : ScaleRequest) : bool :=
  let releaseIDMatches :=
    if nonempty releaseIDsMap
    then bool_decide (ParseIDFromName (ScaleRequest_Name scale) "releases" ∈ releaseIDsMap)
    else false in
  let appIDMatches :=
    if nonempty appIDsMap
    then bool_decide (ParseIDFromName (ScaleRequest_Name scale) "apps" ∈ appIDsMap)
    else false in
  let scaleIDMatches :=
    if nonempty scaleIDsMap
    then bool_decide (ParseIDFromName (ScaleRequest_Name scale) "scales" ∈ scaleIDsMap)
    else false in
  if negb (releaseIDMatches || appIDMatches || scaleIDMatches) then
    if nonempty releaseIDsMap || nonempty appIDsMap || nonempty scaleIDsMap
    then false else true
  else true.

(** One round of the live loop of [StreamScales] (lines 642-694). *)
Definition StreamScales_step (req : StreamRequest)
    (releaseIDsMap appIDsMap scaleIDsMap : gset string)
    (currID : Z) (event : Event Raw) : Z * option ScaleRequest :=
  if decide (Event_ID event ≤ currID)%Z then (currID, None)
  else
    let currID := Event_ID event in
    if negb (op_accepted req (Event_Op event)) then (currID, None)
    else
      match Unmarshal_ScaleRequest (Event_Data event) with
      | None => (currID, None)
      | Some ctReq =>
          let scale := ConvertScaleRequest ctReq in
          if StreamScales_nameFilter releaseIDsMap appIDsMap scaleIDsMap scale
          then (currID, Some scale) else (currID, None)
      end.

(** The arguments [StreamScales] passes to [subscribeEvents] (lines
    572-579): the app ids and the object ids of the subscription. *)
Definition StreamScales_subscription (req : StreamRequest) : list string * list string :=
  let appIDs := ParseIDsFromNameFilters (NameFilters req) "apps" in
  let releaseIDs := ParseIDsFromNameFilters (NameFilters req) "releases" in
  let scaleIDs := ParseIDsFromNameFilters (NameFilters req) "scales" in
  if decide (0 < length releaseIDs)%nat then ([], []) else (appIDs, scaleIDs).

(** The options [StreamScales] lists the scale requests with (lines
    587-592). *)
Definition StreamScales_options (req : StreamRequest) (pageToken : PageToken)
  : ListScaleRequestOptions := {|
  ListScaleRequestOptions_PageToken := (page_setup (PageSize req) pageToken).2;
  ListScaleRequestOptions_AppIDs := ParseIDsFromNameFilters (NameFilters req) "apps";
  ListScaleRequestOptions_ReleaseIDs := ParseIDsFromNameFilters (NameFilters req) "releases";
  ListScaleRequestOptions_ScaleIDs := ParseIDsFromNameFilters (NameFilters req) "scales" |}.

(** The live loop of [StreamScales]; [currID] is declared at line 636
    and starts at its zero value. *)
Definition StreamScales_live (req : StreamRequest) (live : list (Event Raw))
  : list (Event Raw * ScaleRequest) :=
  let appIDs := ParseIDsFromNameFilters (NameFilters req) "apps" in
  let releaseIDs := ParseIDsFromNameFilters (NameFilters req) "releases" in
  let scaleIDs := ParseIDsFromNameFilters (NameFilters req) "scales" in
  run_live (StreamScales_step req (list_to_set releaseIDs) (list_to_set appIDs)
              (list_to_set scaleIDs)) 0 live.

(** [StreamScales] (lines 552-701), up to the point where the events of
    [live] have been received; [closed] says whether the channel of the
    handle is closed after them. *)
Definition StreamScales (req : StreamRequest) (live : list (Event Raw)) (closed : bool)
  : M Standing :=
  match ParsePageToken (PageToken_ req) with
  | inl err => mret (Ended (Ret (Some err)))
  | inr pageToken =>
      let '(streamAppIDs, streamScaleIDs) := StreamScales_subscription req in
      r ← subscribeEvents streamAppIDs [EventTypeScaleRequest] streamScaleIDs;
      match r with
      | inl err => mret (Ended (Ret (Some err)))
      | inr sub =>
          let opts := StreamScales_options req pageToken in
          deferred_Close sub (
            call (CallQuery (formationRepo_ListScaleRequests_query opts));;
            match formationRepo_ListScaleRequests opts with
            | inl err => mret (Ended (Ret (Some err)))
            | inr (scales, nextPageToken) =>
                call (CallSend (StreamScalesResponse (ConvertScaleRequest <$> scales)
                                  (PageToken_String nextPageToken) true));;
                if unary req then mret (Ended (Ret None))
                else
                  sends ((λ '(_, scale), StreamScalesResponse [scale] "" false)
                           <$> StreamScales_live req live);;
                  receive_end closed (mret (Ended (Ret (EventListener_Err sub))))
            end)
      end
  end.

(** *** StreamReleases *)

(** What [maybeAcceptRelease] returns (lines 757-784). *)
Inductive Accept :=
| Accepted (release : Release)
| Rejected
| DecodeError.

Definition maybeAcceptRelease (req : StreamRequest) (releaseIDs appIDs : gset string)
    (event : Event Raw) : Accept :=
  let named :=
    if nonempty releaseIDs then
      if bool_decide (Event_ObjectID event ∈ releaseIDs) then true
      else if nonempty appIDs then bool_decide (Event_AppID event ∈ appIDs)
      else false
    else true in
  if negb named then Rejected
  else
    match Unmarshal_Release (Event_Data event) with
    | None => DecodeError
    | Some ctRelease =>
        let r := ConvertRelease ctRelease in
        if negb (MatchLabelFilters (Release_Labels r) (LabelFilters req))
        then Rejected else Accepted r
    end.

(** [maybePrependRelease] (lines 786-807) on the page built so far. *)
Definition maybePrependRelease (req : StreamRequest) (releaseIDs appIDs : gset string)
    (releases : list Release) (event : Event Raw) : list Release :=
  match maybeAcceptRelease req releaseIDs appIDs event with
  | Accepted r =>
      r :: filter (λ sr, Release_Name sr ≠ Release_Name r) releases
  | Rejected | DecodeError => releases
  end.

(** The loop of lines 837-846 over the events still to be visited, oldest
    first: the watermark and the page. *)
Fixpoint StreamReleases_fill (req : StreamRequest) (releaseIDs appIDs : gset string)
    (oldest_first : list (Event Raw)) (currID : Z) (releases : list Release)
  : Z * list Release :=
  match oldest_first with
  | [] => (currID, releases)
  | event :: rest =>
      StreamReleases_fill req releaseIDs appIDs rest (Event_ID event)
        (maybePrependRelease req releaseIDs appIDs releases event)
  end.

(** Lines 827-846: from the token and the events the repo listed, newest
    first, to the watermark, the page and the next page token. *)
Definition StreamReleases_snapshot (req : StreamRequest) (releaseIDs appIDs : gset string)
    (pageSize : Z) (pageToken : PageToken) (events : list (Event Raw))
  : Outcome (Z * list Release * option PageToken) :=
  let currID := default 0 (BeforeIDInt64 pageToken) in
  let trimmed :=
    if (bool_decide (pageSize = 0) || bool_decide (Z.of_nat (length events) = pageSize + 1))
       && bool_decide (0 < length events)%nat
    then
      let events := take (length events - 1) events in
      match events with
      | [] => Panic (* list[0] *)
      | event :: _ =>
          Ret (events, Some {| PageToken_BeforeID := Some (pretty (Event_ID event));
                             PageToken_Size := pageSize |})
      end
    else Ret (events, None) in
  match trimmed with
  | Ret (events, nextPageToken) =>
      let '(currID, releases) :=
        StreamReleases_fill req releaseIDs appIDs (reverse events) currID [] in
      Ret (currID, releases, nextPageToken)
  | Panic => Panic
  | NoFuel => NoFuel
  end.

(** One round of the live loop of [StreamReleases] (lines 859-881). *)
Definition StreamReleases_step (req : StreamRequest) (releaseIDs appIDs : gset string)
    (currID : Z) (event : Event Raw) : Z * option Release :=
  if decide (Event_ID event ≤ currID)%Z then (currID, None)
  else
    let currID := Event_ID event in
    match maybeAcceptRelease req releaseIDs appIDs event with
    | Accepted release => (currID, Some release)
    | Rejected | DecodeError => (currID, None)
    end.

(** The app ids [StreamReleases] subscribes and lists with (lines
    718-733): none when the name filters hold a release id. *)
Definition StreamReleases_eventAppIDs (req : StreamRequest) : list string :=
  let eventAppIDs := ParseAppIDsFromNameFilters (NameFilters req) in
  let releaseIDs : gset string :=
    list_to_set (ParseReleaseIDsFromNameFilters (NameFilters req)) in
  if nonempty releaseIDs then [] else eventAppIDs.

(** The number of events [StreamReleases] asks for (lines 818-821): one
    more than the page size, to see whether there is a next page. *)
Definition StreamReleases_count (pageSize : Z) : Z :=
  if decide (pageSize > 0) then pageSize + 1 else pageSize.

(** [StreamReleases] (lines 703-888), up to the point where the events
    of [live] have been received; [closed] says whether the channel of
    the handle is closed after them. *)
Definition StreamReleases (req : StreamRequest) (live : list (Event Raw)) (closed : bool)
  : M Standing :=
  match ParsePageToken (PageToken_ req) with
  | inl err => mret (Ended (Ret (Some err)))
  | inr pageToken =>
      let '(pageSize, pageToken) := page_setup (PageSize req) pageToken in
      let appIDs : gset string :=
        list_to_set (ParseAppIDsFromNameFilters (NameFilters req)) in
      let releaseIDs : gset string :=
        list_to_set (ParseReleaseIDsFromNameFilters (NameFilters req)) in
      let eventAppIDs := StreamReleases_eventAppIDs req in
      r ← subscribeEvents eventAppIDs [EventTypeRelease] [];
      match r with
      | inl err => mret (Ended (Ret (Some err)))
      | inr sub =>
          let count := StreamReleases_count pageSize in
          let beforeID := BeforeIDInt64 pageToken in
          deferred_Close sub (
            call (CallQuery (eventRepo_LegacyListEvents_query eventAppIDs
                               [EventTypeRelease] beforeID count));;
            match eventRepo_LegacyListEvents eventAppIDs [EventTypeRelease]
                    beforeID count with
            | inl err => mret (Ended (Ret (Some err)))
            | inr events =>
                match StreamReleases_snapshot req releaseIDs appIDs pageSize
                        pageToken events with
                | Ret (currID, releases, nextPageToken) =>
                    call (CallSend (StreamReleasesResponse releases
                                      (PageToken_String nextPageToken) true));;
                    if unary req then mret (Ended (Ret None))
                    else
                      sends ((λ '(_, release), StreamReleasesResponse [release] "" false)
                               <$> run_live (StreamReleases_step req releaseIDs appIDs)
                                     currID live);;
                      receive_end closed (mret (Ended (Ret (EventListener_Err sub))))
                | Panic => mret (Ended Panic)
                | NoFuel => mret (Ended NoFuel)
                end
            end)
      end
  end.

(** *** StreamDeployments *)

(** The options [listDeployments] lists the deployments with (lines
    905-912). *)
Definition listDeployments_options (req : StreamRequest) (pageToken : PageToken)
  : ListDeploymentOptions := {|
  ListDeploymentOptions_PageToken :=
    if decide (PageSize req > 0)
    then {| PageToken_BeforeID := PageToken_BeforeID pageToken;
            PageToken_Size := PageSize req |}
    else pageToken;
  ListDeploymentOptions_AppIDs := ParseIDsFromNameFilters (NameFilters req) "apps";
  ListDeploymentOptions_DeploymentIDs :=
    ParseIDsFromNameFilters (NameFilters req) "deployments" |}.

(** The filter by type of [listDeployments] (lines 922-935). *)
Definition listDeployments_filter (req : StreamRequest)
    (deployments : list ExpandedDeployment) : list ExpandedDeployment :=
  if decide (length (TypeFilters req) = 0%nat) then deployments
  else filter (λ ed, ReleaseTypeMatcher_Match (TypeFilters req)
                       (ExpandedDeployment_Type ed) = true) deployments.

(** [listDeployments] (lines 900-938). *)
Definition listDeployments (req : StreamRequest)
  : M (error + (list ExpandedDeployment * option PageToken)) :=
  match ParsePageToken (PageToken_ req) with
  | inl err => mret (inl err)
  | inr pageToken =>
      let opts := listDeployments_options req pageToken in
      call (CallQuery (deploymentRepo_ListPage_query opts));;
      match deploymentRepo_ListPage opts with
      | inl err => mret (inl err)
      | inr (ctExpandedDeployments, nextPageToken) =>
          let deployments := ConvertExpandedDeployment <$> ctExpandedDeployments in
          mret (inr (listDeployments_filter req deployments, nextPageToken))
      end
  end.

(** What the live loop of [StreamDeployments] sends for one event (lines
    996-1020); [get] is what [deploymentRepo.GetExpanded] answers for
    it. *)
Definition StreamDeployments_forward (req : StreamRequest)
    (delivery : Event Raw * (error + ct_ExpandedDeployment)) : option ExpandedDeployment :=
  let '(ctEvent, get) := delivery in
  if negb (op_accepted req (Event_Op ctEvent)) then None
  else
    match Unmarshal_DeploymentEvent (Event_Data ctEvent) with
    | None => None
    | Some deploymentEvent =>
        match get with
        | inl _ => None
        | inr ctd =>
            let ctd := {|
              ct_ExpandedDeployment_ID := ct_ExpandedDeployment_ID ctd;
              ct_ExpandedDeployment_Type := ct_ExpandedDeployment_Type ctd;
              ct_ExpandedDeployment_Status := ct_DeploymentEvent_Status deploymentEvent |} in
            let d := ConvertExpandedDeployment ctd in
            if ReleaseTypeMatcher_Match (TypeFilters req) (ExpandedDeployment_Type d)
            then Some d else None
        end
    end.

(** The live loop of [StreamDeployments] (lines 990-1021); it keeps no
    watermark. *)
Definition StreamDeployments_live (req : StreamRequest)
    (live : list (Event Raw * (error + ct_ExpandedDeployment)))
  : list (Event Raw * ExpandedDeployment) :=
  omap (λ delivery, (λ d, (fst delivery, d)) <$> StreamDeployments_forward req delivery)
       live.

(** [StreamDeployments] (lines 940-1027), up to the point where the
    events of [live] have been received; [closed] says whether the
    channel of the handle is closed after them. *)
Definition StreamDeployments (req : StreamRequest)
    (live : list (Event Raw * (error + ct_ExpandedDeployment))) (closed : bool)
  : M Standing :=
  let appIDs := ParseIDsFromNameFilters (NameFilters req) "apps" in
  let deploymentIDs := ParseIDsFromNameFilters (NameFilters req) "deployments" in
  r ← listDeployments req;
  match r with
  | inl err => mret (Ended (Ret (Some err)))
  | inr (deployments, nextPageToken) =>
      call (CallSend (StreamDeploymentsResponse deployments
                        (PageToken_String nextPageToken) true));;
      if unary req then mret (Ended (Ret None))
      else
        r ← subscribeEvents appIDs [EventTypeDeployment] deploymentIDs;
        match r with
        | inl err => mret (Ended (Ret (Some err)))
        | inr sub =>
            deferred_Close sub (
              sends ((λ '(_, d), StreamDeploymentsResponse [d] "" false)
                       <$> StreamDeployments_live req live);;
              receive_end closed (mret (Ended (Ret (EventListener_Err sub)))))
        end
  end.

End Streams.

(** ** A small installation

    Concrete collaborators on which the handlers can be run: a bus whose
    listener goes down after a given number of subscriptions, the helpers
    of package [utils] as the specification describes them, payloads that
    are kept decoded, and repos over lists held in memory. *)

Module Sample.

(** A payload is the value it decodes to; [Garbage] decodes to nothing. *)
Inductive Payload :=
| AppJSON (a : ct_App)
| ScaleRequestJSON (s : ct_ScaleRequest)
| ReleaseJSON (r : ct_Release)
| DeploymentEventJSON (d : ct_DeploymentEvent)
| Garbage.

#[global] Instance json : Json Payload := {|
  Unmarshal_App p := match p with AppJSON a => Some a | _ => None end;
  Unmarshal_ScaleRequest p := match p with ScaleRequestJSON s => Some s | _ => None end;
  Unmarshal_Release p := match p with ReleaseJSON r => Some r | _ => None end;
  Unmarshal_DeploymentEvent p :=
    match p with DeploymentEventJSON d => Some d | _ => None end;
|}.

(** A listener that accepts [budget] more subscriptions and is closed
    from then on; subscribers are numbered in the order they are made. *)
Record Listener := {
  down : bool;
  budget : nat;
  next : nat;
}.

Definition listener_closed : error := errors_New "event listener closed".

#[global] Instance bus : EventBus := {|
  DataListener := Listener;
  Subscriber := nat;
  NewEventListener := {| down := false; budget := 8; next := 0 |};
  IsClosed := down;
  Listen l := (l, None);
  Subscribe l appID objectTypes objectIDs :=
    if down l then (l, inl listener_closed)
    else
      match budget l with
      | O => ({| down := true; budget := 0; next := next l |}, inl listener_closed)
      | S b => ({| down := false; budget := b; next := S (next l) |}, inr (next l))
      end;
|}.

(** The pieces of a string between the occurrences of [c]. *)
Fixpoint split_on (c : Ascii.ascii) (s : string) : list string :=
  match s with
  | EmptyString => [EmptyString]
  | String a s =>
      if decide (a = c) then EmptyString :: split_on c s
      else
        match split_on c s with
        | piece :: pieces => String a piece :: pieces
        | [] => [String a EmptyString]
        end
  end.

(** The id that follows [segment] in a list of path pieces read two by
    two. *)
Fixpoint id_after (segment : string) (pieces : list string) : string :=
  match pieces with
  | k :: v :: pieces => if decide (k = segment) then v else id_after segment pieces
  | _ => ""
  end.

(** Modelled from the spec: [utils.ParseIDFromName] is not in this file;
    it "returns the ID segment following [segment/], or empty if
    absent". *)
Definition parseIDFromName (name segment : string) : string :=
  id_after segment (split_on "/"%char name).

(** Modelled from the spec: [utils.ParseIDsFromNameFilters] "maps across
    a filter list, dropping empties and deduplicating". *)
Definition parseIDsFromNameFilters (names : list string) (segment : string)
  : list string :=
  remove_dups (filter (λ id, id ≠ "") ((λ name, parseIDFromName name segment) <$> names)).

(** Modelled from the spec: a name filter without a structured path is
    an app name or an app id, taken literally. *)
Definition parseAppIDsFromNameFilters (names : list string) : list string :=
  remove_dups (filter (λ id, id ≠ "")
    ((λ name, match split_on "/"%char name with
              | [bare] => bare
              | _ => parseIDFromName name "apps"
              end) <$> names)).

(** Modelled from the spec: [protobuf.MatchLabelFilters] is a disjunction
    of conjunctions, and an empty filter list accepts every entity. *)
Definition matchLabelFilters (labels : Labels) (filters : list Labels) : bool :=
  bool_decide (filters = [])
  || existsb (λ group : Labels,
                bool_decide (map_Forall (λ k v, labels !! k = Some v) group)) filters.

(** Modelled from the spec: [protobuf.NewReleaseTypeMatcher] matches all
    when [types] is empty and membership otherwise. *)
Definition releaseTypeMatch (types : list string) (t : string) : bool :=
  bool_decide (types = []) || bool_decide (t ∈ types).

#[global] Instance utils : Utils := {|
  ParseIDFromName := parseIDFromName;
  ParseIDsFromNameFilters := parseIDsFromNameFilters;
  ParseAppIDsFromNameFilters := parseAppIDsFromNameFilters;
  ParseReleaseIDsFromNameFilters names := parseIDsFromNameFilters names "releases";
  ConvertApp a := {|
    App_Name := "apps/" +:+ ct_App_ID a;
    App_DisplayName := ct_App_Name a;
    App_Labels := ct_App_Meta a;
    App_Strategy := ct_App_Strategy a;
    App_DeployTimeout := ct_App_DeployTimeout a |};
  ConvertScaleRequest sr := {|
    ScaleRequest_Name :=
      "apps/" +:+ ct_ScaleRequest_AppID sr +:+ "/releases/"
        +:+ ct_ScaleRequest_ReleaseID sr +:+ "/scales/" +:+ ct_ScaleRequest_ID sr;
    ScaleRequest_State := ct_ScaleRequest_State sr |};
  ConvertRelease r := {|
    Release_Name := "apps/" +:+ ct_Release_AppID r +:+ "/releases/" +:+ ct_Release_ID r;
    Release_Labels := ct_Release_Meta r |};
  ConvertDeployment d := {|
    Deployment_Name :=
      "apps/" +:+ ct_Deployment_AppID d +:+ "/deployments/" +:+ ct_Deployment_ID d;
    Deployment_Status := ct_Deployment_Status d |};
  ConvertDeploymentEventJobState st := st;
  TimestampProto t := t;
  ConvertExpandedDeployment d := {|
    ExpandedDeployment_Name := "deployments/" +:+ ct_ExpandedDeployment_ID d;
    ExpandedDeployment_Type := ct_ExpandedDeployment_Type d;
    ExpandedDeployment_Status := ct_ExpandedDeployment_Status d |};
  ConvertError err msg := status_Error Unknown msg;
  MatchLabelFilters := matchLabelFilters;
  ReleaseTypeMatcher_Match := releaseTypeMatch;
  Errorf format := format;
  scaleTimeoutMessage := "timed out waiting for scale to complete (waited 60 seconds)";
|}.

(** What the repos hold.  [ListPage] of the app repo fails on the page
    that starts after the app [store_broken_after], if there is one; the
    list queries of the other repos fail when [store_down] is set. *)
Record Store := {
  store_apps : list ct_App;
  store_broken_after : option string;
  store_down : bool;
  store_scales : list ct_ScaleRequest;
  store_events : list (Event Payload);
  store_deployments : list ct_ExpandedDeployment;
}.

Definition parse_Z (s : string) : option Z := Z.of_int <$> NilEmpty.int_of_string s.

(** A page token is written [before:size]. *)
Definition pageToken_String (t : option PageToken) : string :=
  match t with
  | None => ""
  | Some t => default "" (PageToken_BeforeID t) +:+ ":" +:+ pretty (PageToken_Size t)
  end.

Definition invalid_token : error := status_Error InvalidArgument "invalid page token".

Definition parsePageToken (s : string) : error + PageToken :=
  if decide (s = "") then inr {| PageToken_BeforeID := None; PageToken_Size := 0 |}
  else
    match split_on ":"%char s with
    | [before; size] =>
        match parse_Z size with
        | Some n =>
            inr {| PageToken_BeforeID := if decide (before = "") then None else Some before;
                   PageToken_Size := n |}
        | None => inl invalid_token
        end
    | _ => inl invalid_token
    end.

(** The apps that come after the app [before] in the listing. *)
Fixpoint apps_after (before : string) (apps : list ct_App) : list ct_App :=
  match apps with
  | [] => []
  | a :: apps => if decide (ct_App_ID a = before) then apps else apps_after before apps
  end.

Definition storage_down : error := status_Error Unavailable "storage is down".

(** A page holds [Size] apps (a hundred when [Size] is not positive); a
    next page token is handed back when apps remain after the page. *)
Definition listPage (st : Store) (t : PageToken)
  : error + (list ct_App * option PageToken) :=
  if decide (is_Some (PageToken_BeforeID t)
             ∧ PageToken_BeforeID t = store_broken_after st)
  then inl storage_down
  else
    let rest :=
      match PageToken_BeforeID t with
      | None => store_apps st
      | Some before => apps_after before (store_apps st)
      end in
    let size := if decide (PageToken_Size t > 0) then Z.to_nat (PageToken_Size t)
                else 100%nat in
    let page := take size rest in
    match last page with
    | Some a =>
        inr (page,
             if decide (size < length rest)%nat
             then Some {| PageToken_BeforeID := Some (ct_App_ID a);
                          PageToken_Size := PageToken_Size t |}
             else None)
    | None => inr (page, None)
    end.

(** The events of the log, newest first, that the filters keep. *)
Definition legacyListEvents (st : Store) (appIDs objectTypes : list string)
    (beforeID : option Z) (count : Z) : error + list (Event Payload) :=
  let kept :=
    filter (λ e : Event Payload,
              (bool_decide (appIDs = []) || bool_decide (Event_AppID e ∈ appIDs))
              && bool_decide (Event_ObjectType e ∈ objectTypes)
              && match beforeID with
                 | Some b => bool_decide (Event_ID e < b)%Z
                 | None => true
                 end = true)
           (store_events st) in
  if store_down st then inl storage_down
  else inr (if decide (count > 0) then take (Z.to_nat count) kept else kept).

#[global] Instance repos (st : Store) : Repos Payload := {|
  ParsePageToken := parsePageToken;
  PageToken_String := pageToken_String;
  BeforeIDInt64 t := PageToken_BeforeID t ≫= parse_Z;
  appRepo_ListPage := listPage st;
  formationRepo_ListScaleRequests opts :=
    if store_down st then inl storage_down else inr (store_scales st, None);
  eventRepo_LegacyListEvents := legacyListEvents st;
  deploymentRepo_ListPage opts :=
    if store_down st then inl storage_down else inr (store_deployments st, None);
|}.

End Sample.

(** ** Sample data *)

Module Scenario.
Import Sample.

Definition w0 : World := {| eventListener := None; trace := [] |}.

Definition app (id name env : string) : ct_App := {|
  ct_App_ID := id;
  ct_App_Name := name;
  ct_App_Meta := {[ "env" := env ]};
  ct_App_Strategy := "all-at-once";
  ct_App_DeployTimeout := 120 |}.

Definition a1 := app "a1" "one" "prod".
Definition a2 := app "a2" "two" "dev".
Definition a3 := app "a3" "three" "prod".
Definition a4 := app "a4" "four" "prod".

(** Four apps, three of them labelled [env=prod]. *)
Definition store : Store := {|
  store_apps := [a1; a2; a3; a4];
  store_broken_after := None;
  store_down := false;
  store_scales := [];
  store_events := [];
  store_deployments := [] |}.

(** The same apps, with the page after [a2] unreadable and the other
    repos down. *)
Definition broken_store : Store := {|
  store_apps := [a1; a2; a3; a4];
  store_broken_after := Some "a2";
  store_down := true;
  store_scales := [];
  store_events := [];
  store_deployments := [] |}.

(** Pages of two apps labelled [env=prod], without streaming. *)
Definition prod_page : StreamRequest := {|
  PageSize := 2;
  PageToken_ := "";
  NameFilters := [];
  LabelFilters := [ {[ "env" := "prod" ]} ];
  TypeFilters := [];
  StreamUpdates := false;
  StreamCreates := false |}.

(** A projection with every field at its zero value. *)
Definition blank_app : App := {|
  App_Name := "apps/a1";
  App_DisplayName := "";
  App_Labels := ∅;
  App_Strategy := "";
  App_DeployTimeout := 0 |}.

(** Scale the release [R] of the app [A] to two [web] processes. *)
Definition scale_up : CreateScaleRequest := {|
  CreateScaleRequest_Parent := "apps/A/releases/R";
  CreateScaleRequest_Processes := {[ "web" := 2 ]};
  CreateScaleRequest_Tags := ∅ |}.

(** The repo stores a scale request under the id [s1]. *)
Definition store_as_s1 (sr : ct_ScaleRequest) : error + ct_ScaleRequest :=
  inr {| ct_ScaleRequest_ID := "s1";
         ct_ScaleRequest_AppID := ct_ScaleRequest_AppID sr;
         ct_ScaleRequest_ReleaseID := ct_ScaleRequest_ReleaseID sr;
         ct_ScaleRequest_State := ct_ScaleRequest_State sr;
         ct_ScaleRequest_NewProcesses := ct_ScaleRequest_NewProcesses sr;
         ct_ScaleRequest_NewTags := ct_ScaleRequest_NewTags sr |}.

(** The event that reports the scale request [s1] in state [state]. *)
Definition scale_event (id : Z) (state : string) : Event Payload := {|
  Event_ID := id;
  Event_AppID := "A";
  Event_ObjectType := EventTypeScaleRequest;
  Event_ObjectID := "s1";
  Event_Op := EventOpUpdate;
  Event_Data := ScaleRequestJSON {|
    ct_ScaleRequest_ID := "s1";
    ct_ScaleRequest_AppID := "A";
    ct_ScaleRequest_ReleaseID := "R";
    ct_ScaleRequest_State := state;
    ct_ScaleRequest_NewProcesses := Some {[ "web" := 2 ]};
    ct_ScaleRequest_NewTags := Some ∅ |};
  Event_CreatedAt := 0 |}.

(** The scale request is cancelled while [createScale] waits. *)
Definition cancelled_scale : ScaleEnv Payload := {|
  ScaleEnv_AddScaleRequest := store_as_s1;
  ScaleEnv_events := [scale_event 7 ScaleRequestStateCancelled];
  ScaleEnv_wake := TimerFired |}.

(** Nothing is heard of the scale request until the timer fires. *)
Definition silent_scale : ScaleEnv Payload := {|
  ScaleEnv_AddScaleRequest := store_as_s1;
  ScaleEnv_events := [];
  ScaleEnv_wake := TimerFired |}.

(** The scale request completes. *)
Definition completed_scale : ScaleEnv Payload := {|
  ScaleEnv_AddScaleRequest := store_as_s1;
  ScaleEnv_events := [scale_event 7 ScaleRequestStatePending;
                      scale_event 8 ScaleRequestStateComplete];
  ScaleEnv_wake := TimerFired |}.

(** Deploy the release [R2] of the app [A], then scale it to three
    [web] processes. *)
Definition deploy_R2 : CreateDeploymentRequest := {|
  CreateDeploymentRequest_Parent := "apps/A";
  CreateDeploymentRequest_Release := "apps/A/releases/R2";
  CreateDeploymentRequest_ScaleRequest := Some {|
    CreateScaleRequest_Parent := "";
    CreateScaleRequest_Processes := {[ "web" := 3 ]};
    CreateScaleRequest_Tags := ∅ |} |}.

(** The deployment [d1] in the status [status]. *)
Definition d1 (status : string) : ct_Deployment := {|
  ct_Deployment_ID := "d1";
  ct_Deployment_AppID := "A";
  ct_Deployment_NewReleaseID := "R2";
  ct_Deployment_Status := status |}.

(** An event of the deployment [d1], with the deployment as the repo
    returns it when the event is handled. *)
Definition deployment_event (id : Z) (status err : string)
  : Event Payload * (error + ct_Deployment) :=
  ({| Event_ID := id;
      Event_AppID := "A";
      Event_ObjectType := EventTypeDeployment;
      Event_ObjectID := "d1";
      Event_Op := EventOpUpdate;
      Event_Data := DeploymentEventJSON {|
        ct_DeploymentEvent_Status := status;
        ct_DeploymentEvent_JobType := "web";
        ct_DeploymentEvent_JobState := "up";
        ct_DeploymentEvent_Error := err |};
      Event_CreatedAt := id |},
   inr (d1 status)).

(** A deployment that runs, then fails. *)
Definition failing_deployment : DeploymentEnv := {|
  DeploymentEnv_Add appID releaseID := inr (d1 "pending");
  DeploymentEnv_events :=
    [deployment_event 11 "running" ""; deployment_event 12 "failed" "boom"];
  DeploymentEnv_scale := completed_scale |}.

(** A deployment that runs, then completes, with the embedded scale in
    the surroundings [scale]. *)
Definition completing_deployment (scale : ScaleEnv Payload) : DeploymentEnv := {|
  DeploymentEnv_Add appID releaseID := inr (d1 "pending");
  DeploymentEnv_events :=
    [deployment_event 11 "running" ""; deployment_event 12 "complete" ""];
  DeploymentEnv_scale := scale |}.

(** The first page of apps, then every app created from then on. *)
Definition watch_apps : StreamRequest := {|
  PageSize := 0;
  PageToken_ := "";
  NameFilters := [];
  LabelFilters := [];
  TypeFilters := [];
  StreamUpdates := false;
  StreamCreates := true |}.

(** The event that reports the creation of the app [a]. *)
Definition app_created (id : Z) (a : ct_App) : Event Payload := {|
  Event_ID := id;
  Event_AppID := ct_App_ID a;
  Event_ObjectType := EventTypeApp;
  Event_ObjectID := ct_App_ID a;
  Event_Op := EventOpCreate;
  Event_Data := AppJSON a;
  Event_CreatedAt := id |}.

Definition a5 := app "a5" "five" "prod".

(** The scale requests of the release [R] of the app [A], updates
    included. *)
Definition watch_scales_of_R : StreamRequest := {|
  PageSize := 0;
  PageToken_ := "";
  NameFilters := ["apps/A/releases/R"];
  LabelFilters := [];
  TypeFilters := [];
  StreamUpdates := true;
  StreamCreates := true |}.

(** Everything, the first page and then every creation and update. *)
Definition watch_all : StreamRequest := {|
  PageSize := 0;
  PageToken_ := "";
  NameFilters := [];
  LabelFilters := [];
  TypeFilters := [];
  StreamUpdates := true;
  StreamCreates := true |}.

(** The page of two apps that starts after [a2], and what follows. *)
Definition watch_after_a2 : StreamRequest := {|
  PageSize := 2;
  PageToken_ := "a2:2";
  NameFilters := [];
  LabelFilters := [];
  TypeFilters := [];
  StreamUpdates := true;
  StreamCreates := true |}.

(** The event that reports the creation of the release [R] of [A]. *)
Definition release_created (id : Z) : Event Payload := {|
  Event_ID := id;
  Event_AppID := "A";
  Event_ObjectType := EventTypeRelease;
  Event_ObjectID := "R";
  Event_Op := EventOpCreate;
  Event_Data := ReleaseJSON {|
    ct_Release_ID := "R"; ct_Release_AppID := "A"; ct_Release_Meta := ∅ |};
  Event_CreatedAt := id |}.

(** An event of the deployment [d1], with the expanded deployment as the
    repo returns it when the event is handled. *)
Definition deployment_update (id : Z) (status : string)
  : Event Payload * (error + ct_ExpandedDeployment) :=
  ((deployment_event id status "").1,
   inr {| ct_ExpandedDeployment_ID := "d1";
          ct_ExpandedDeployment_Type := "code";
          ct_ExpandedDeployment_Status := "pending" |}).

(** A state whose listener accepts one more subscription. *)
Definition last_slot : World := {|
  eventListener := Some {| down := false; budget := 1; next := 0 |};
  trace := [] |}.

End Scenario.

(** ** Reading a trace *)

Section Reading.
Context {bus : EventBus}.

(** The messages written to the client stream, in order. *)
Definition sent (tr : list Call) : list Response :=
  omap (λ c, match c with CallSend r => Some r | _ => None end) tr.

Definition is_close (c : Call) : bool :=
  match c with CallClose _ => true | _ => false end.

(** The calls that [subscribeEach] records for app ids whose
    subscriptions all succeed. *)
Definition subscribed (objectTypes objectIDs : list string)
    (made : list (string * Subscriber)) : list Call :=
  made ≫= λ '(appID, sub),
    [CallSubscribe appID objectTypes objectIDs (inr sub); CallGo sub].

End Reading.


(** ** Reading the waits *)

(** What an event can settle for a waiting [createScale]. *)
Inductive Settled := SettledComplete | SettledCancelled.

Section ReadingWaits.
Context {bus : EventBus} {utils : Utils} {Raw : Type} {json : Json Raw}.

(** An event settles the wait for the request [id] when it is a
    [scale_request] event whose payload decodes to a request with that id
    in state [complete] or [cancelled]. *)
Definition settles (id : string) (event : Event Raw) : option Settled :=
  if decide (Event_ObjectType event = EventTypeScaleRequest) then
    match Unmarshal_ScaleRequest (Event_Data event) with
    | Some req =>
        if decide (ct_ScaleRequest_ID req = id) then
          if decide (ct_ScaleRequest_State req = ScaleRequestStateCancelled)
          then Some SettledCancelled
          else if decide (ct_ScaleRequest_State req = ScaleRequestStateComplete)
          then Some SettledComplete
          else None
        else None
    | None => None
    end
  else None.

(** The request [createScale] hands to [formationRepo.AddScaleRequest]. *)
Definition pending_request (req : CreateScaleRequest) : ct_ScaleRequest := {|
  ct_ScaleRequest_ID := "";
  ct_ScaleRequest_AppID := ParseIDFromName (CreateScaleRequest_Parent req) "apps";
  ct_ScaleRequest_ReleaseID := ParseIDFromName (CreateScaleRequest_Parent req) "releases";
  ct_ScaleRequest_State := ScaleRequestStatePending;
  ct_ScaleRequest_NewProcesses := Some (CreateScaleRequest_Processes req);
  ct_ScaleRequest_NewTags := Some (CreateScaleRequest_Tags req) |}.

(** A delivery that [CreateDeployment] acts on: a [deployment] event
    whose payload decodes and whose deployment the repo returns. *)
Definition acted_on (delivery : Event Raw * (error + ct_Deployment))
  : option (Event Raw * ct_DeploymentEvent * ct_Deployment) :=
  let '(ctEvent, get) := delivery in
  if decide (Event_ObjectType ctEvent = "deployment") then
    match Unmarshal_DeploymentEvent (Event_Data ctEvent), get with
    | Some de, inr d => Some (ctEvent, de, d)
    | _, _ => None
    end
  else None.

(** The deployment has reached [failed] or [complete]. *)
Definition terminal (d : ct_Deployment) : bool :=
  bool_decide (ct_Deployment_Status d = "failed")
  || bool_decide (ct_Deployment_Status d = "complete").

(** The message [CreateDeployment] sends for a delivery it acts on. *)
Definition forwarded (x : Event Raw * ct_DeploymentEvent * ct_Deployment) : Response :=
  let '(ctEvent, de, d) := x in
  DeploymentEventResponse {|
    DeploymentEvent_Deployment := ConvertDeployment d;
    DeploymentEvent_JobType := ct_DeploymentEvent_JobType de;
    DeploymentEvent_JobState :=
      ConvertDeploymentEventJobState (ct_DeploymentEvent_JobState de);
    DeploymentEvent_Error := ct_DeploymentEvent_Error de;
    DeploymentEvent_CreateTime := TimestampProto (Event_CreatedAt ctEvent) |}.

(** The request of the embedded [createScale]. *)
Definition embedded_scale (d : ct_Deployment) (sr : CreateScaleRequest)
  : CreateScaleRequest := {|
  CreateScaleRequest_Parent :=
    "apps/" +:+ ct_Deployment_AppID d +:+ "/releases/" +:+ ct_Deployment_NewReleaseID d;
  CreateScaleRequest_Processes := CreateScaleRequest_Processes sr;
  CreateScaleRequest_Tags := CreateScaleRequest_Tags sr |}.

(** The state in which the deployment loop of [CreateDeployment] ends,
    when the deliveries [pre] hold no terminal deployment and the next
    one is acted on with the terminal deployment [d]: the state after the
    subscription, the messages for [pre], then the embedded scale if [d]
    is complete and the request has a scale request. *)
Definition CreateDeployment_last_state (req : CreateDeploymentRequest) (scale : ScaleEnv Raw)
    (w : World) (pre : list (Event Raw * (error + ct_Deployment))) (d : ct_Deployment)
  : World :=
  let w2 := log (CallSend ∘ forwarded <$> omap acted_on pre) w in
  if decide (ct_Deployment_Status d = "complete") then
    match CreateDeploymentRequest_ScaleRequest req with
    | Some sr => (createScale (embedded_scale d sr) scale w2).2
    | None => w2
    end
  else w2.

End ReadingWaits.

(** ** Reading the live loops *)

Section ReadingLive.
Context {Raw : Type}.

(** The ids of the events something was sent for, in the order of the
    sends. *)
Definition ids {P : Type} (out : list (Event Raw * P)) : list Z :=
  (λ x, Event_ID x.1) <$> out.

(** The same event under another id. *)
Definition with_ID (id : Z) (event : Event Raw) : Event Raw := {|
  Event_ID := id;
  Event_AppID := Event_AppID event;
  Event_ObjectType := Event_ObjectType event;
  Event_ObjectID := Event_ObjectID event;
  Event_Op := Event_Op event;
  Event_Data := Event_Data event;
  Event_CreatedAt := Event_CreatedAt event |}.

(** A step keeps a watermark when it drops, without moving the
    watermark, an event whose id is not above it, and moves the watermark
    to the id of any other event. *)
Definition keeps_watermark {P : Type} (step : Z → Event Raw → Z * option P) : Prop :=
  ∀ (currID : Z) (event : Event Raw),
    (Event_ID event ≤ currID → step currID event = (currID, None))
    ∧ (currID < Event_ID event → (step currID event).1 = Event_ID event).

(** The events [StreamReleases] builds its page from (lines 830-835): the
    listed events, without the last one when one more than the page size
    was listed, or when the page size is zero. *)
Definition StreamReleases_page_events (pageSize : Z) (events : list (Event Raw))
  : list (Event Raw) :=
  if (bool_decide (pageSize = 0) || bool_decide (Z.of_nat (length events) = pageSize + 1))
     && bool_decide (0 < length events)%nat
  then take (length events - 1) events
  else events.

End ReadingLive.

(** ** Reading the order of the calls *)

(** What kind of call a trace entry is. *)
Inductive Step := Subscribed | Spawned | Closed | Queried | Wrote | Sent.

Definition step_of {bus : EventBus} (c : Call) : Step :=
  match c with
  | CallSubscribe _ _ _ _ => Subscribed
  | CallGo _ => Spawned
  | CallClose _ => Closed
  | CallQuery _ => Queried
  | CallAddScaleRequest _ | CallDeploymentAdd _ _ => Wrote
  | CallSend _ => Sent
  end.

Definition steps {bus : EventBus} (tr : list Call) : list Step := step_of <$> tr.

(** ** Reading the snapshot *)

(** The page size [listApps] fills up to, once the first page is read
    (lines 276-290). *)
Definition listApps_pageSize (req : StreamRequest) (pageToken : PageToken)
    (ctApps : list ct_App) : Z :=
  let pageSize := (page_setup (PageSize req) pageToken).1 in
  if decide (pageSize = 0) then Z.of_nat (length ctApps) else pageSize.

(** ** Reading the pages and the handle *)

Section ReadingPages.
Context {utils : Utils}.

(** An app gets through the two tests of the loop of [listApps] (lines
    302-317): it is named by the name filters, when there are any, and
    its labels match the label filters. *)
Definition listApps_keeps (appIDs : list string) (labelFilters : list Labels)
    (a : ct_App) : bool :=
  (bool_decide (appIDs = [])
   || existsb (λ appID, bool_decide (ct_App_ID a = appID)
                        || bool_decide (ct_App_Name a = appID)) appIDs)
  && MatchLabelFilters (ct_App_Meta a) labelFilters.

End ReadingPages.

(** [EventListener.Close] (lines 169-176), as far as the field [Err] goes.
    The state is [Err] and whether [errOnce] has fired; [subErrs] lists,
    in the order of [subs], the [Err] each subscriber has once closed. *)
Definition Close_Err (st : option error * bool) (subErrs : list (option error))
  : option error * bool :=
  foldl (λ (st : option error * bool) (subErr : option error),
           match subErr with
           | Some err => if st.2 then st else (Some err, true)
           | None => st
           end) st subErrs.

(** ** Reading the filter of StreamScales *)

Section ReadingScales.
Context {utils : Utils} {Raw : Type} {json : Json Raw}.

(** The reading of the specification of the client-side filter of
    [StreamScales]: any of the release id, the app id and the scale id
    of the scale request matches its filter set, when that set is not
    empty, or the three filter sets are empty. *)
Definition spec_nameFilter (releaseIDs appIDs scaleIDs : list string)
    (scale : ScaleRequest) : bool :=
  (bool_decide (releaseIDs ≠ [])
   && bool_decide (ParseIDFromName (ScaleRequest_Name scale) "releases" ∈ releaseIDs))
  || (bool_decide (appIDs ≠ [])
      && bool_decide (ParseIDFromName (ScaleRequest_Name scale) "apps" ∈ appIDs))
  || (bool_decide (scaleIDs ≠ [])
      && bool_decide (ParseIDFromName (ScaleRequest_Name scale) "scales" ∈ scaleIDs))
  || (bool_decide (releaseIDs = []) && bool_decide (appIDs = [])
      && bool_decide (scaleIDs = [])).

(** What the live loop of [StreamScales] emits for one event under that
    reading: the scale request of an event above the watermark, of an
    accepted op, whose payload decodes, when the filter accepts it. *)
Definition spec_StreamScales_emits (req : StreamRequest) (currID : Z) (event : Event Raw)
  : Z * option ScaleRequest :=
  if decide (Event_ID event ≤ currID)%Z then (currID, None)
  else
    (Event_ID event,
     if op_accepted req (Event_Op event) then
       match Unmarshal_ScaleRequest (Event_Data event) with
       | Some ctReq =>
           let scale := ConvertScaleRequest ctReq in
           if spec_nameFilter (ParseIDsFromNameFilters (NameFilters req) "releases")
                (ParseIDsFromNameFilters (NameFilters req) "apps")
                (ParseIDsFromNameFilters (NameFilters req) "scales") scale
           then Some scale else None
       | None => None
       end
     else None).

End ReadingScales.

(** ** Reading the page of StreamReleases *)

(** The first release of each name, in the order of the list, [seen]
    being the names met so far. *)
Fixpoint first_of_each_name (seen : gset string) (releases : list Release)
  : list Release :=
  match releases with
  | [] => []
  | r :: releases =>
      if decide (Release_Name r ∈ seen) then first_of_each_name seen releases
      else r :: first_of_each_name ({[ Release_Name r ]} ∪ seen) releases
  end.

Section ReadingReleases.
Context {utils : Utils} {Raw : Type} {json : Json Raw}.

(** The release [maybeAcceptRelease] accepts from an event, if it
    accepts one. *)
Definition accepted_release (req : StreamRequest) (releaseIDs appIDs : gset string)
    (event : Event Raw) : option Release :=
  match maybeAcceptRelease req releaseIDs appIDs event with
  | Accepted r => Some r
  | Rejected | DecodeError => None
  end.

End ReadingReleases.

(** ** Reading the writes *)

(** The scale requests handed to [formationRepo.AddScaleRequest], in
    order. *)
Definition scale_requests_added {bus : EventBus} (tr : list Call) : list ct_ScaleRequest :=
  omap (λ c, match c with CallAddScaleRequest scaleReq => Some scaleReq | _ => None end) tr.

(** ** More sample data *)

Module Cases.
Import Sample.

(** The event that reports the creation of the release [rid] of the app
    [A]. *)
Definition release_event (id : Z) (rid : string) : Event Payload := {|
  Event_ID := id;
  Event_AppID := "A";
  Event_ObjectType := EventTypeRelease;
  Event_ObjectID := rid;
  Event_Op := EventOpCreate;
  Event_Data := ReleaseJSON {|
    ct_Release_ID := rid; ct_Release_AppID := "A"; ct_Release_Meta := ∅ |};
  Event_CreatedAt := id |}.

(** A stored scale request of the release [R] of the app [A]. *)
Definition stored_scale (id state : string) : ct_ScaleRequest := {|
  ct_ScaleRequest_ID := id;
  ct_ScaleRequest_AppID := "A";
  ct_ScaleRequest_ReleaseID := "R";
  ct_ScaleRequest_State := state;
  ct_ScaleRequest_NewProcesses := Some {[ "web" := 2 ]};
  ct_ScaleRequest_NewTags := Some ∅ |}.

Definition expanded (id type status : string) : ct_ExpandedDeployment := {|
  ct_ExpandedDeployment_ID := id;
  ct_ExpandedDeployment_Type := type;
  ct_ExpandedDeployment_Status := status |}.

(** A store with a log of three release events, the release [R1] being
    reported twice, one scale request and one deployment. *)
Definition busy_store : Store := {|
  store_apps := [Scenario.a1; Scenario.a2];
  store_broken_after := None;
  store_down := false;
  store_scales := [stored_scale "s0" ScaleRequestStateComplete];
  store_events := [release_event 6 "R1"; release_event 5 "R2"; release_event 4 "R1"];
  store_deployments := [expanded "d0" "code" "complete"] |}.

(** A store whose log holds a single release event. *)
Definition lone_store : Store := {|
  store_apps := [];
  store_broken_after := None;
  store_down := false;
  store_scales := [];
  store_events := [release_event 4 "R1"];
  store_deployments := [] |}.

(** The first page, without streaming. *)
Definition list_all : StreamRequest := {|
  PageSize := 0;
  PageToken_ := "";
  NameFilters := [];
  LabelFilters := [];
  TypeFilters := [];
  StreamUpdates := false;
  StreamCreates := false |}.

(** The handle of the first subscription made on a fresh listener. *)
Definition first_handle : EventListener := {|
  EventListener_Err := None;
  EventListener_subs := [0%nat : @Subscriber Sample.bus] |}.

(** A bus whose listener cannot be started. *)
Definition dead_bus : EventBus := {|
  DataListener := Listener;
  Subscriber := nat;
  NewEventListener := {| down := true; budget := 0; next := 0 |};
  IsClosed := down;
  Listen l := (l, Some listener_closed);
  Subscribe l appID objectTypes objectIDs := (l, inl listener_closed);
|}.

(** The repo refuses the scale request. *)
Definition refused_scale : ScaleEnv Payload := {|
  ScaleEnv_AddScaleRequest sr := inl storage_down;
  ScaleEnv_events := [Scenario.scale_event 7 ScaleRequestStateComplete];
  ScaleEnv_wake := TimerFired |}.

(** A deployment that is still running when the channel is closed. *)
Definition unfinished_deployment : DeploymentEnv := {|
  DeploymentEnv_Add appID releaseID := inr (Scenario.d1 "pending");
  DeploymentEnv_events :=
    [Scenario.deployment_event 11 "running" "";
     (Scenario.release_created 12, inr (Scenario.d1 "running"));
     Scenario.deployment_event 13 "running" ""];
  DeploymentEnv_scale := Scenario.completed_scale |}.

(** A token that asks for pages of minus one app. *)
Definition negative_page : StreamRequest := {|
  PageSize := 0;
  PageToken_ := ":-1";
  NameFilters := [];
  LabelFilters := [];
  TypeFilters := [];
  StreamUpdates := false;
  StreamCreates := false |}.

(** The event that reports the release [rid] of the app [A] with the
    label [v]. *)
Definition release_labelled (id : Z) (rid v : string) : Event Payload := {|
  Event_ID := id;
  Event_AppID := "A";
  Event_ObjectType := EventTypeRelease;
  Event_ObjectID := rid;
  Event_Op := EventOpUpdate;
  Event_Data := ReleaseJSON {|
    ct_Release_ID := rid; ct_Release_AppID := "A"; ct_Release_Meta := {[ "v" := v ]} |};
  Event_CreatedAt := id |}.

(** A log, newest first, in which the release [R1] is reported at the
    ids 4 and 6, with the label [v] going from 1 to 2. *)
Definition relabelled_log : list (Event Payload) :=
  [release_labelled 6 "R1" "2"; release_event 5 "R2"; release_labelled 4 "R1" "1"].

(** An update of a scale request of the release [Q] of the app [B]. *)
Definition scale_of_other_release (id : Z) : Event Payload := {|
  Event_ID := id;
  Event_AppID := "B";
  Event_ObjectType := EventTypeScaleRequest;
  Event_ObjectID := "s0";
  Event_Op := EventOpUpdate;
  Event_Data := ScaleRequestJSON {|
    ct_ScaleRequest_ID := "s0";
    ct_ScaleRequest_AppID := "B";
    ct_ScaleRequest_ReleaseID := "Q";
    ct_ScaleRequest_State := ScaleRequestStateComplete;
    ct_ScaleRequest_NewProcesses := Some {[ "web" := 1 ]};
    ct_ScaleRequest_NewTags := Some ∅ |};
  Event_CreatedAt := id |}.

(** The event that reports the stored scale request [s0]. *)
Definition scale_seen (id : Z) : Event Payload := {|
  Event_ID := id;
  Event_AppID := "A";
  Event_ObjectType := EventTypeScaleRequest;
  Event_ObjectID := "s0";
  Event_Op := EventOpUpdate;
  Event_Data := ScaleRequestJSON (stored_scale "s0" ScaleRequestStateComplete);
  Event_CreatedAt := id |}.

(** An event of the stored deployment [d0], with the expanded deployment
    as the repo returns it when the event is handled. *)
Definition deployment_seen (id : Z) : Event Payload * (error + ct_ExpandedDeployment) :=
  ({| Event_ID := id;
      Event_AppID := "A";
      Event_ObjectType := EventTypeDeployment;
      Event_ObjectID := "d0";
      Event_Op := EventOpUpdate;
      Event_Data := DeploymentEventJSON {|
        ct_DeploymentEvent_Status := "complete";
        ct_DeploymentEvent_JobType := "web";
        ct_DeploymentEvent_JobState := "up";
        ct_DeploymentEvent_Error := "" |};
      Event_CreatedAt := id |},
   inr (expanded "d0" "code" "complete")).

(** The four apps, with the page after [a2] unreadable and the other
    repos in order. *)
Definition apps_broken_store : Store := {|
  store_apps := [Scenario.a1; Scenario.a2; Scenario.a3; Scenario.a4];
  store_broken_after := Some "a2";
  store_down := false;
  store_scales := [];
  store_events := [];
  store_deployments := [] |}.

(** Pages of two apps, without streaming. *)
Definition pair_page : StreamRequest := {|
  PageSize := 2;
  PageToken_ := "";
  NameFilters := [];
  LabelFilters := [];
  TypeFilters := [];
  StreamUpdates := false;
  StreamCreates := false |}.

End Cases.

(** * Properties *)

(** ** UpdateApp *)

Lemma mask_fold_lookup (d acc : gmap string Value) (paths : list string) (k : string) :
  acc !! k = None ∨ acc !! k = d !! k →
  foldl (UpdateApp.mask_step d) acc paths !! k =
    if decide (k ∈ UpdateApp.alias <$> paths) then d !! k else acc !! k.
Proof.
  revert acc. induction paths as [|p paths IH]; intros acc Hacc; cbn [foldl].
  - rewrite decide_False; [done | apply not_elem_of_nil].
  - rewrite fmap_cons, IH.
    + unfold UpdateApp.mask_step.
      destruct (decide (k = UpdateApp.alias p)) as [->|Hne].
      * rewrite (decide_True (P := _ ∈ _ :: _)) by (apply elem_of_cons; by left).
        destruct (d !! UpdateApp.alias p) as [v|] eqn:Hd.
        -- rewrite lookup_insert_eq. by case_decide.
        -- case_decide; [done|]. destruct Hacc as [->| ->]; done.
      * assert (Hk : (match d !! UpdateApp.alias p with
                      | Some v => <[UpdateApp.alias p:=v]> acc
                      | None => acc
                      end) !! k = acc !! k).
        { destruct (d !! UpdateApp.alias p); [by rewrite lookup_insert_ne|done]. }
        rewrite Hk.
        destruct (decide (k ∈ UpdateApp.alias <$> paths)) as [Hin|Hin].
        -- rewrite decide_True; [done | apply elem_of_cons; by right].
        -- rewrite decide_False; [done | apply not_elem_of_cons; by split].
    + unfold UpdateApp.mask_step.
      destruct (d !! UpdateApp.alias p) as [v|] eqn:Hd; [|done].
      destruct (decide (k = UpdateApp.alias p)) as [->|Hne].
      * right. by rewrite lookup_insert_eq.
      * by rewrite lookup_insert_ne.
Qed.

Lemma masked_lookup (d : gmap string Value) (paths : list string) (k : string) :
  UpdateApp.masked d paths !! k =
    if decide (k ∈ UpdateApp.alias <$> paths) then d !! k else None.
Proof.
  unfold UpdateApp.masked. rewrite mask_fold_lookup; [done|]. left. apply lookup_empty.
Qed.

Lemma masked_filter (d : gmap string Value) (paths : list string) :
  UpdateApp.masked d paths =
    filter (λ kv, kv.1 ∈ UpdateApp.alias <$> paths) d.
Proof.
  apply map_eq. intros k. rewrite masked_lookup.
  rewrite map_lookup_filter.
  destruct (d !! k) as [v|] eqn:Hd; simpl.
  - case_decide.
    + by rewrite option_guard_True.
    + by rewrite option_guard_False.
  - by case_decide.
Qed.

Lemma unmasked_dom (app : App) :
  dom (UpdateApp.unmasked app) ⊆ ({[ "meta"; "strategy"; "deploy_timeout" ]} : gset string).
Proof.
  unfold UpdateApp.unmasked.
  repeat case_decide; rewrite ?dom_insert_L, dom_singleton_L; set_solver.
Qed.

(** C5, as amended.  Before the mask is looked at, the map holds [meta]
    (the labels, whatever they are, empty or not), [strategy] exactly when
    the strategy is not empty, [deploy_timeout] exactly when the timeout
    is positive, and no other key.  Without a mask, or with a mask that
    has no path, that map is written.  With a mask that has paths, the
    entries of that map whose key is named by a path are written, where
    the path [labels] names the key [meta]. *)
Theorem UpdateApp_data_written (req : UpdateAppRequest) :
  let app := UpdateAppRequest_App req in
  let unmasked := UpdateApp.unmasked app in
  unmasked !! "meta" = Some (VLabels (App_Labels app))
  ∧ unmasked !! "strategy" =
      (if decide (App_Strategy app ≠ "") then Some (VString (App_Strategy app)) else None)
  ∧ unmasked !! "deploy_timeout" =
      (if decide (App_DeployTimeout app > 0)
       then Some (VInt (App_DeployTimeout app)) else None)
  ∧ dom unmasked ⊆ ({[ "meta"; "strategy"; "deploy_timeout" ]} : gset string)
  ∧ UpdateApp.alias "labels" = "meta"
  ∧ UpdateApp.data req =
      match UpdateAppRequest_UpdateMask req with
      | None | Some [] => unmasked
      | Some paths => filter (λ kv, kv.1 ∈ UpdateApp.alias <$> paths) unmasked
      end.
Proof.
  intros app unmasked. subst unmasked.
  split_and!.
  - unfold UpdateApp.unmasked. repeat case_decide; by simplify_map_eq.
  - unfold UpdateApp.unmasked. repeat case_decide; by simplify_map_eq.
  - unfold UpdateApp.unmasked. repeat case_decide; by simplify_map_eq.
  - apply unmasked_dom.
  - reflexivity.
  - unfold UpdateApp.data. fold app.
    destruct (UpdateAppRequest_UpdateMask req) as [[|p paths]|]; [done| |done].
    rewrite decide_True by (simpl; lia).
    apply masked_filter.
Qed.

(** C5 as stated fails: a projection whose labels are empty still has
    its [meta] written, as the empty map. *)
Lemma UpdateApp_writes_empty_labels :
  let req := {| UpdateAppRequest_App := Scenario.blank_app;
                UpdateAppRequest_UpdateMask := None |} in
  App_Labels Scenario.blank_app = ∅
  ∧ UpdateApp.data req !! "meta" = Some (VLabels ∅)
  ∧ UpdateApp.spec_unmasked Scenario.blank_app !! "meta" = None
  ∧ UpdateApp.data req ≠ UpdateApp.spec_unmasked Scenario.blank_app.
Proof.
  split_and!; [reflexivity..|].
  intros Heq. apply (f_equal (λ m, m !! "meta")) in Heq. discriminate Heq.
Qed.

(** ** subscribeEvents *)

Section SubscriptionFacts.
Context {bus : EventBus}.

Lemma open_after_app (tr1 tr2 : list Call) (s : Subscriber) (b : bool) :
  open_after (tr1 ++ tr2) s b = open_after tr2 s (open_after tr1 s b).
Proof.
  revert b. induction tr1 as [|c tr1 IH]; intros b; [done|].
  destruct c as [? ? ? [?|?]| | | | | |]; simpl; apply IH.
Qed.

Lemma open_after_subscribed (objectTypes objectIDs : list string)
    (made : list (string * Subscriber)) (s : Subscriber) (b : bool) :
  open_after (subscribed objectTypes objectIDs made) s b =
    bool_decide (s ∈ made.*2) || b.
Proof.
  revert b. induction made as [|[a s'] made IH]; intros b; [done|].
  cbn [subscribed mbind list_bind] in *. simpl.
  change (open_after (subscribed objectTypes objectIDs made) s
            (if decide (s' = s) then true else b) =
          bool_decide (s ∈ s' :: made.*2) || b).
  rewrite IH. destruct (decide (s' = s)) as [->|Hne].
  - rewrite orb_true_r. symmetry. rewrite (bool_decide_eq_true_2 _); [done|].
    apply elem_of_cons. by left.
  - f_equal. apply bool_decide_ext. rewrite elem_of_cons. naive_solver.
Qed.

Lemma subscribed_no_close (objectTypes objectIDs : list string)
    (made : list (string * Subscriber)) :
  forallb (λ c, negb (is_close c)) (subscribed objectTypes objectIDs made) = true.
Proof. induction made as [|[a s] made IH]; [done|]. simpl. apply IH. Qed.

(** While the subscriptions succeed, [subscribeEach] records a
    [Subscribe] and a goroutine for each app id and closes nothing. *)
Lemma subscribeEach_ok (objectTypes objectIDs : list string) (appIDs : list string) :
  ∀ (l l1 : DataListener) (subs subs1 : list Subscriber) (tr tr1 : list Call),
    subscribeEach l objectTypes objectIDs appIDs subs tr = (l1, tr1, inr subs1) →
    ∃ new : list Subscriber,
      subs1 = subs ++ new
      ∧ length new = length appIDs
      ∧ tr1 = tr ++ subscribed objectTypes objectIDs (zip appIDs new).
Proof.
  induction appIDs as [|a appIDs IH]; intros l l1 subs subs1 tr tr1 Heach.
  - simpl in Heach. injection Heach as <- <- <-. exists [].
    by rewrite !app_nil_r.
  - simpl in Heach.
    destruct (Subscribe l a objectTypes objectIDs) as [l' [err|s]] eqn:Hsub;
      [discriminate Heach|].
    apply IH in Heach as (new & -> & Hlen & ->).
    exists (s :: new). split_and!.
    + by rewrite <- app_assoc.
    + simpl. by rewrite Hlen.
    + by rewrite <- app_assoc.
Qed.

(** [subscribeEach] over a list resumes where its prefix ended. *)
Lemma subscribeEach_app (objectTypes objectIDs : list string) (pre post : list string) :
  ∀ (l l1 : DataListener) (subs subs1 : list Subscriber) (tr tr1 : list Call),
    subscribeEach l objectTypes objectIDs pre subs tr = (l1, tr1, inr subs1) →
    subscribeEach l objectTypes objectIDs (pre ++ post) subs tr =
      subscribeEach l1 objectTypes objectIDs post subs1 tr1.
Proof.
  induction pre as [|a pre IH]; intros l l1 subs subs1 tr tr1 Heach.
  - simpl in Heach. by injection Heach as <- <- <-.
  - simpl in *.
    destruct (Subscribe l a objectTypes objectIDs) as [l' [err|s]] eqn:Hsub;
      [discriminate Heach|].
    by apply IH.
Qed.

(** The trace a run of [subscribeEach] starts from is a prefix of the
    trace it ends with, and has no other part in the run. *)
Lemma subscribeEach_base (objectTypes objectIDs : list string) (appIDs : list string) :
  ∀ (l : DataListener) (subs : list Subscriber) (tr : list Call),
    subscribeEach l objectTypes objectIDs appIDs subs tr =
      let r := subscribeEach l objectTypes objectIDs appIDs subs [] in
      (r.1.1, tr ++ r.1.2, r.2).
Proof.
  induction appIDs as [|a appIDs IH]; intros l subs tr; simpl.
  - by rewrite app_nil_r.
  - destruct (Subscribe l a objectTypes objectIDs) as [l' [err|s]] eqn:Hsub; simpl.
    + done.
    + rewrite IH. rewrite (IH _ _ [_; _]). simpl. by rewrite <- app_assoc.
Qed.

Lemma maybeStartEventListener_trace (w : World) :
  trace (maybeStartEventListener w).2 = trace w.
Proof.
  unfold maybeStartEventListener.
  destruct (eventListener w) as [l|]; [destruct (IsClosed l)|]; simpl;
    by destruct (Listen NewEventListener).
Qed.

(** A successful [subscribeEvents]: one subscriber for each app id
    wanted, and the calls made. *)
Lemma subscribeEvents_made (appIDs objectTypes objectIDs : list string) (w : World)
    (sub : EventListener) :
  result (subscribeEvents appIDs objectTypes objectIDs) w = inr sub →
  let wanted := match appIDs with [] => [""] | _ => appIDs end in
  length (EventListener_subs sub) = length wanted
  ∧ trace (subscribeEvents appIDs objectTypes objectIDs w).2 =
      trace w ++ subscribed objectTypes objectIDs (zip wanted (EventListener_subs sub)).
Proof.
  intros Hrun wanted.
  unfold result, subscribeEvents, mbind, M_bind in *.
  pose proof (maybeStartEventListener_trace w) as Htr.
  destruct (maybeStartEventListener w) as [[l e] w1]. simpl in Htr.
  destruct e as [err|]; [done|].
  assert (Hwanted : (if decide (length appIDs = 0%nat) then [""] else appIDs) = wanted).
  { subst wanted. by destruct appIDs. }
  rewrite Hwanted in *.
  destruct (subscribeEach l objectTypes objectIDs wanted [] (trace w1))
    as [[l1 tr1] [err|subs]] eqn:Heach; [done|].
  simpl in Hrun. injection Hrun as <-. simpl.
  apply subscribeEach_ok in Heach as (new & Hsubs & Hlen & ->).
  simpl in Hsubs. subst subs. by rewrite Htr.
Qed.

(** Once open, a subscriber stays open over calls that close nothing. *)
Lemma open_after_no_close (rest : list Call) (s : Subscriber) :
  forallb (λ c, negb (is_close c)) rest = true →
  open_after rest s true = true.
Proof.
  induction rest as [|c rest IH]; [done|]. intros Hrest. simpl in Hrest.
  apply andb_true_iff in Hrest as [Hc Hrest].
  destruct c as [? ? ? [?|?]| | | | | |]; simpl in *; try done; try by apply IH.
  destruct (decide _); by apply IH.
Qed.

(** The subscribers of a successful [subscribeEvents] are open as long
    as what follows closes nothing. *)
Lemma open_after_made (appIDs objectTypes objectIDs : list string) (w : World)
    (sub : EventListener) (rest : list Call) (b : bool) :
  result (subscribeEvents appIDs objectTypes objectIDs) w = inr sub →
  forallb (λ c, negb (is_close c)) rest = true →
  Forall (λ s, open_after
                 (trace (subscribeEvents appIDs objectTypes objectIDs w).2 ++ rest) s b
               = true) (EventListener_subs sub).
Proof.
  intros Hrun Hrest.
  destruct (subscribeEvents_made _ _ _ _ _ Hrun) as [Hlen ->].
  apply Forall_forall. intros s Hs.
  rewrite !open_after_app, open_after_subscribed, snd_zip by lia.
  rewrite (bool_decide_eq_true_2 _ Hs). cbn [orb].
  by apply open_after_no_close.
Qed.

(** C9.  Let the listener be in place, let the subscriptions for the app
    ids [pre] (at least one) succeed with the subscribers [subs], and let
    the subscription for the next app id [a] fail with [err].  Then
    [subscribeEvents] returns [err] and no handle; the calls it made are
    the subscriptions and goroutines for [pre] and the failed
    subscription, and no close; so every subscriber of [subs] has a
    forwarding goroutine and is open when the call returns. *)
Theorem subscribeEvents_failure_leaves_subscribers_open
    (w : World) (l0 l1 l2 : DataListener) (objectTypes objectIDs pre post : list string)
    (a : string) (subs : list Subscriber) (tr1 : list Call) (err : error) :
  result maybeStartEventListener w = (l0, None) →
  pre ≠ [] →
  subscribeEach l0 objectTypes objectIDs pre [] [] = (l1, tr1, inr subs) →
  Subscribe l1 a objectTypes objectIDs = (l2, inl err) →
  let run := subscribeEvents (pre ++ a :: post) objectTypes objectIDs in
  result run w = inl err
  ∧ length subs = length pre
  ∧ calls run w =
      trace w ++ subscribed objectTypes objectIDs (zip pre subs)
        ++ [CallSubscribe a objectTypes objectIDs (inl err)]
  ∧ Forall (λ s, open_after (calls run w) s false = true ∧ CallGo s ∈ calls run w) subs
  ∧ forallb (λ c, negb (is_close c)) (drop (length (trace w)) (calls run w)) = true.
Proof.
  intros Hstart Hpre Heach Hfail run.
  pose proof (subscribeEach_ok _ _ _ _ _ _ _ _ _ Heach) as (new & Hsubs & Hlen & Htr1).
  simpl in Hsubs, Htr1. subst subs tr1.
  assert (Hrun : run w =
            (inl err,
             {| eventListener := Some l2;
                trace := trace w ++ subscribed objectTypes objectIDs (zip pre new)
                           ++ [CallSubscribe a objectTypes objectIDs (inl err)] |})).
  { unfold run, subscribeEvents, mbind, M_bind.
    pose proof (maybeStartEventListener_trace w) as Htr.
    unfold result in Hstart.
    destruct (maybeStartEventListener w) as [[l e] w1]. simpl in Hstart, Htr.
    injection Hstart as -> ->.
    rewrite decide_False by (destruct pre; [done | simpl; lia]).
    rewrite (subscribeEach_app _ _ pre (a :: post) l0 l1 [] new (trace w1)
               (trace w1 ++ subscribed objectTypes objectIDs (zip pre new))).
    - simpl. rewrite Hfail, Htr. by rewrite <- app_assoc.
    - rewrite subscribeEach_base, Heach. done. }
  unfold calls, result. rewrite Hrun. simpl.
  split_and!; [done..| |].
  - apply Forall_forall. intros s Hs.
    assert (Hin : s ∈ (zip pre new).*2) by (by rewrite snd_zip by lia).
    split.
    + rewrite !open_after_app, open_after_subscribed. simpl.
      by rewrite (bool_decide_eq_true_2 _ Hin).
    + apply elem_of_app. right. apply elem_of_app. left.
      apply list_elem_of_fmap in Hin as ([a' s'] & -> & Hin).
      unfold subscribed. apply list_elem_of_bind. exists (a', s'). split; [|done].
      simpl. apply elem_of_cons. right. apply elem_of_cons. by left.
  - rewrite drop_app_length. rewrite forallb_app, subscribed_no_close. done.
Qed.

End SubscriptionFacts.

(** C9 on the sample bus: a listener with one slot left, asked for two
    app ids. *)
Lemma subscribeEvents_failure_leaves_subscribers_open_witness :
  let run := subscribeEvents (["a"] ++ "b" :: []) [EventTypeScaleRequest] [] in
  result run Scenario.last_slot = inl Sample.listener_closed
  ∧ length [0%nat] = length ["a"]
  ∧ calls run Scenario.last_slot =
      trace Scenario.last_slot
        ++ subscribed [EventTypeScaleRequest] [] (zip ["a"] [0%nat])
        ++ [CallSubscribe "b" [EventTypeScaleRequest] [] (inl Sample.listener_closed)]
  ∧ Forall (λ s, open_after (calls run Scenario.last_slot) s false = true
                 ∧ CallGo s ∈ calls run Scenario.last_slot) [0%nat]
  ∧ forallb (λ c, negb (is_close c))
      (drop (length (trace Scenario.last_slot)) (calls run Scenario.last_slot)) = true.
Proof.
  apply (subscribeEvents_failure_leaves_subscribers_open (bus := Sample.bus)
           Scenario.last_slot
           {| Sample.down := false; Sample.budget := 1; Sample.next := 0 |}
           {| Sample.down := false; Sample.budget := 0; Sample.next := 1 |}
           {| Sample.down := true; Sample.budget := 0; Sample.next := 1 |}
           [EventTypeScaleRequest] [] ["a"] [] "b" [0%nat : @Subscriber Sample.bus]
           (subscribed [EventTypeScaleRequest] [] [("a", 0%nat : @Subscriber Sample.bus)])
           Sample.listener_closed);
    [reflexivity | discriminate | reflexivity | reflexivity].
Defined.


(** ** createScale *)

Section WaitFacts.
Context {bus : EventBus} {utils : Utils} {Raw : Type} {json : Json Raw}.

(** The wait ends at the first event that settles it, and with [wake] if
    there is none. *)
Lemma createScale_wait_first (id : string) (events : list (Event Raw)) (wake : Wake) :
  createScale_wait id events wake =
    match head (omap (settles id) events), wake with
    | Some SettledCancelled, _ => WaitCancelled
    | Some SettledComplete, _ | None, ChannelClosed => WaitBreak
    | None, TimerFired => WaitTimedOut
    end.
Proof.
  induction events as [|event events IH]; [by destruct wake|].
  cbn [createScale_wait omap list_omap]. unfold settles at 1.
  destruct (decide (Event_ObjectType event = EventTypeScaleRequest)); [|exact IH].
  destruct (Unmarshal_ScaleRequest (Event_Data event)) as [req|]; [|exact IH].
  destruct (decide (ct_ScaleRequest_ID req = id)) as [Heq|Hne].
  - rewrite decide_False by (by intros Hne).
    repeat case_decide; done.
  - rewrite decide_True by done. exact IH.
Qed.

(** A handle fresh from [subscribeEvents] carries no error. *)
Lemma subscribeEvents_Err (appIDs objectTypes objectIDs : list string) (w : World)
    (sub : EventListener) :
  result (subscribeEvents appIDs objectTypes objectIDs) w = inr sub →
  EventListener_Err sub = None.
Proof.
  unfold result, subscribeEvents, mbind, M_bind.
  destruct (maybeStartEventListener w) as [[l [e|]] w1]; [done|].
  destruct (subscribeEach _ _ _ _ _ _) as [[l' tr] [e|subs]]; simpl; [done|].
  by intros [= <-].
Qed.

(** [createScale], one step after the other. *)
Lemma createScale_run (req : CreateScaleRequest) (env : ScaleEnv Raw) (w : World) :
  createScale req env w =
    let '(r, w1) :=
      subscribeEvents [ParseIDFromName (CreateScaleRequest_Parent req) "apps"]
        [EventTypeScaleRequest] [] w in
    match r with
    | inl err => (inl err, w1)
    | inr sub =>
        (match ScaleEnv_AddScaleRequest env (pending_request req) with
         | inl err => inl err
         | inr stored =>
             match createScale_wait (ct_ScaleRequest_ID stored) (ScaleEnv_events env)
                     (ScaleEnv_wake env) with
             | WaitCancelled => inl (errors_New "scale request cancelled")
             | WaitTimedOut => inl (errors_New scaleTimeoutMessage)
             | WaitBreak =>
                 match EventListener_Err sub with
                 | Some err => inl (ConvertError err (Error err))
                 | None => inr (ConvertScaleRequest stored)
                 end
             end
         end,
         log ([CallAddScaleRequest (pending_request req)]
                ++ (CallClose <$> EventListener_subs sub)) w1)
    end.
Proof.
  unfold createScale, mbind, M_bind. fold (pending_request req).
  destruct (subscribeEvents _ _ _ w) as [[err|sub] w1]; [done|].
  unfold call, Close, mret, M_ret, log. simpl.
  destruct (ScaleEnv_AddScaleRequest env (pending_request req)) as [err|stored]; simpl.
  { by rewrite <- app_assoc. }
  destruct (createScale_wait _ _ _); simpl; try by rewrite <- app_assoc.
  destruct (EventListener_Err sub); simpl; by rewrite <- app_assoc.
Qed.

(** C3, as amended.  When the subscription to [scale_request] events of
    the target app succeeds and the repo stores the request, which it is
    handed in state [pending] after the subscription has been made,
    [createScale] waits for the first event that settles the request.  On
    [complete], or when the channel is closed before any such event, it
    returns the stored request; on [cancelled] it fails with an error
    that carries no status, of message "scale request cancelled"; when
    the timer fires first it fails with an error that carries no status,
    the timeout message.  The handle is closed on the way out. *)
Theorem createScale_outcomes (req : CreateScaleRequest) (env : ScaleEnv Raw) (w : World)
    (sub : EventListener) (stored : ct_ScaleRequest) :
  let subscribe :=
    subscribeEvents [ParseIDFromName (CreateScaleRequest_Parent req) "apps"]
      [EventTypeScaleRequest] [] in
  result subscribe w = inr sub →
  ScaleEnv_AddScaleRequest env (pending_request req) = inr stored →
  ct_ScaleRequest_State (pending_request req) = ScaleRequestStatePending
  ∧ calls (createScale req env) w =
      calls subscribe w ++ [CallAddScaleRequest (pending_request req)]
        ++ (CallClose <$> EventListener_subs sub)
  ∧ result (createScale req env) w =
      match head (omap (settles (ct_ScaleRequest_ID stored)) (ScaleEnv_events env)),
            ScaleEnv_wake env with
      | Some SettledComplete, _ | None, ChannelClosed => inr (ConvertScaleRequest stored)
      | Some SettledCancelled, _ => inl (errors_New "scale request cancelled")
      | None, TimerFired => inl (errors_New scaleTimeoutMessage)
      end.
Proof.
  intros subscribe Hsub Hadd. subst subscribe.
  pose proof (subscribeEvents_Err _ _ _ _ _ Hsub) as Herr.
  unfold calls, result in *. rewrite createScale_run.
  destruct (subscribeEvents _ _ _ w) as [r w1]. simpl in Hsub. subst r. simpl.
  rewrite Hadd, Herr, createScale_wait_first.
  split_and!; [done..|].
  by destruct (head _) as [[]|], (ScaleEnv_wake env).
Qed.

End WaitFacts.

(** C3 on the sample bus: the request completes at the second event. *)
Lemma createScale_outcomes_witness :
  let subscribe := subscribeEvents ["A"] [EventTypeScaleRequest] [] in
  let stored := {|
    ct_ScaleRequest_ID := "s1";
    ct_ScaleRequest_AppID := "A";
    ct_ScaleRequest_ReleaseID := "R";
    ct_ScaleRequest_State := ScaleRequestStatePending;
    ct_ScaleRequest_NewProcesses := Some {[ "web" := 2 ]};
    ct_ScaleRequest_NewTags := Some ∅ |} in
  ct_ScaleRequest_State (pending_request Scenario.scale_up) = ScaleRequestStatePending
  ∧ calls (createScale Scenario.scale_up Scenario.completed_scale) Scenario.w0 =
      calls subscribe Scenario.w0 ++ [CallAddScaleRequest (pending_request Scenario.scale_up)]
        ++ [CallClose (0%nat : @Subscriber Sample.bus)]
  ∧ result (createScale Scenario.scale_up Scenario.completed_scale) Scenario.w0 =
      inr (ConvertScaleRequest stored).
Proof.
  intros subscribe stored.
  refine (createScale_outcomes (bus := Sample.bus) Scenario.scale_up
            Scenario.completed_scale Scenario.w0
            {| EventListener_Err := None;
               EventListener_subs := [0%nat : @Subscriber Sample.bus] |}
            stored _ _);
    reflexivity.
Defined.

(** C3 as stated fails: a cancelled scale request and a timeout both end
    in an error without a status, which the client sees as [Unknown], not
    as [Aborted] or [DeadlineExceeded]. *)
Lemma createScale_errors_carry_no_status :
  result (createScale Scenario.scale_up Scenario.cancelled_scale) Scenario.w0
    = inl (errors_New "scale request cancelled")
  ∧ status_Code (Some (errors_New "scale request cancelled")) = Unknown
  ∧ result (createScale Scenario.scale_up Scenario.cancelled_scale) Scenario.w0
    ≠ inl (status_Error Aborted "scale request cancelled")
  ∧ result (createScale Scenario.scale_up Scenario.silent_scale) Scenario.w0
    = inl (errors_New scaleTimeoutMessage)
  ∧ status_Code (Some (errors_New scaleTimeoutMessage)) = Unknown.
Proof. split_and!; [reflexivity..|discriminate|reflexivity|reflexivity]. Qed.

(** ** CreateDeployment *)

Section DeploymentFacts.
Context {bus : EventBus} {utils : Utils} {Raw : Type} {json : Json Raw}.

Lemma log_log (cs1 cs2 : list Call) (w : World) :
  log cs2 (log cs1 w) = log (cs1 ++ cs2) w.
Proof. unfold log. simpl. by rewrite <- app_assoc. Qed.

Lemma log_nil (w : World) : log [] w = w.
Proof. destruct w. unfold log. simpl. by rewrite app_nil_r. Qed.

(** The state [createScale] leaves does not depend on how the scale
    goes. *)
Lemma createScale_state (req : CreateScaleRequest) (env1 env2 : ScaleEnv Raw) (w : World) :
  (createScale req env1 w).2 = (createScale req env2 w).2.
Proof.
  rewrite !createScale_run.
  by destruct (subscribeEvents _ _ _ w) as [[err|sub] w1].
Qed.

(** Deliveries that are not acted on are skipped; a delivery acted on
    whose deployment is not terminal is forwarded, and the loop goes
    on. *)
Lemma CreateDeployment_loop_prefix (req : CreateDeploymentRequest) (sub : EventListener)
    (scale : ScaleEnv Raw) (pre rest : list (Event Raw * (error + ct_Deployment))) :
  ∀ w : World,
    Forall (λ x, terminal x.2 = false) (omap acted_on pre) →
    CreateDeployment_loop req sub scale (pre ++ rest) w =
      CreateDeployment_loop req sub scale rest
        (log (CallSend ∘ forwarded <$> omap acted_on pre) w).
Proof.
  induction pre as [|[ctEvent get] pre IH]; intros w Hpre.
  - simpl. by rewrite log_nil.
  - cbn [app CreateDeployment_loop omap list_omap] in *.
    unfold acted_on at 1 in Hpre. unfold acted_on at 1.
    destruct (decide (Event_ObjectType ctEvent = "deployment")) as [Hty|Hty].
    2:{ rewrite decide_True by done. by apply IH. }
    rewrite decide_False by (by intros Hne).
    destruct (Unmarshal_DeploymentEvent (Event_Data ctEvent)) as [de|]; [|by apply IH].
    destruct get as [err|d]; [by apply IH|].
    apply Forall_cons in Hpre as [Hd Hpre]. simpl in Hd.
    unfold terminal in Hd. apply orb_false_iff in Hd as [Hfailed Hcomplete].
    apply bool_decide_eq_false in Hfailed, Hcomplete.
    unfold mbind, M_bind, call, mret, M_ret.
    rewrite !decide_False by done.
    rewrite IH by done. rewrite log_log. done.
Qed.

(** A delivery acted on whose deployment is terminal ends the loop: the
    embedded scale, if any, comes first, then the message, then the
    return. *)
Lemma CreateDeployment_loop_terminal (req : CreateDeploymentRequest) (sub : EventListener)
    (scale : ScaleEnv Raw) (delivery : Event Raw * (error + ct_Deployment))
    (rest : list (Event Raw * (error + ct_Deployment))) (w : World)
    (ev : Event Raw) (de : ct_DeploymentEvent) (d : ct_Deployment) :
  acted_on delivery = Some (ev, de, d) →
  terminal d = true →
  CreateDeployment_loop req sub scale (delivery :: rest) w =
    (if decide (ct_Deployment_Status d = "failed")
     then Some (errors_New (Errorf (ct_DeploymentEvent_Error de)))
     else EventListener_Err sub,
     log [CallSend (forwarded (ev, de, d))]
       (if decide (ct_Deployment_Status d = "complete") then
          match CreateDeploymentRequest_ScaleRequest req with
          | Some sr => (createScale (embedded_scale d sr) scale w).2
          | None => w
          end
        else w)).
Proof.
  destruct delivery as [ctEvent get]. unfold acted_on. intros Hacted Hterminal.
  cbn [CreateDeployment_loop].
  destruct (decide (Event_ObjectType ctEvent = "deployment")) as [Hty|Hty]; [|done].
  rewrite decide_False by (by intros Hne).
  destruct (Unmarshal_DeploymentEvent (Event_Data ctEvent)) as [de'|]; [|done].
  destruct get as [err|d']; [done|]. injection Hacted as -> -> ->.
  unfold terminal in Hterminal. apply orb_true_iff in Hterminal.
  unfold mbind, M_bind, call, mret, M_ret. fold (embedded_scale d).
  destruct (decide (ct_Deployment_Status d = "complete")) as [Hc|Hc].
  - destruct (decide (ct_Deployment_Status d = "failed")) as [Hf|Hf];
      [rewrite Hc in Hf; discriminate Hf|].
    destruct (CreateDeploymentRequest_ScaleRequest req) as [sr|]; [|done].
    fold (embedded_scale d sr).
    by destruct (createScale (embedded_scale d sr) scale w).
  - destruct Hterminal as [Hf|Hf]; apply bool_decide_eq_true in Hf; [|done].
    by destruct (decide (ct_Deployment_Status d = "failed")).
Qed.

End DeploymentFacts.

Section SentFacts.
Context {bus : EventBus}.

Lemma sent_app (tr1 tr2 : list Call) : sent (tr1 ++ tr2) = sent tr1 ++ sent tr2.
Proof. apply omap_app. Qed.

Lemma sent_log (cs : list Call) (w : World) :
  sent (trace (log cs w)) = sent (trace w) ++ sent cs.
Proof. unfold log. simpl. apply sent_app. Qed.

Lemma sent_sends (rs : list Response) : sent (CallSend <$> rs) = rs.
Proof. induction rs as [|r rs IH]; [done|]. simpl. f_equal. exact IH. Qed.

Lemma sent_closes (subs : list Subscriber) : sent (CallClose <$> subs) = [].
Proof. by induction subs. Qed.

Lemma subscribeEach_sent (objectTypes objectIDs appIDs : list string) :
  ∀ (l : DataListener) (subs : list Subscriber) (tr : list Call),
    sent (subscribeEach l objectTypes objectIDs appIDs subs tr).1.2 = sent tr.
Proof.
  induction appIDs as [|a appIDs IH]; intros l subs tr; [done|]. simpl.
  destruct (Subscribe l a objectTypes objectIDs) as [l' [err|s]]; simpl.
  - rewrite sent_app. simpl. by rewrite app_nil_r.
  - rewrite IH, sent_app. simpl. by rewrite app_nil_r.
Qed.

(** [subscribeEvents] writes nothing to the client stream. *)
Lemma subscribeEvents_sent (appIDs objectTypes objectIDs : list string) (w : World) :
  sent (trace (subscribeEvents appIDs objectTypes objectIDs w).2) = sent (trace w).
Proof.
  unfold subscribeEvents, mbind, M_bind.
  pose proof (maybeStartEventListener_trace w) as Htr.
  destruct (maybeStartEventListener w) as [[l [e|]] w1]; simpl in *; [by rewrite Htr|].
  pose proof (subscribeEach_sent objectTypes objectIDs
                (if decide (length appIDs = 0%nat) then [""] else appIDs) l [] (trace w1))
    as Hsent.
  destruct (subscribeEach _ _ _ _ _ _) as [[l' tr] [e|subs]]; simpl in *;
    by rewrite Hsent, Htr.
Qed.

End SentFacts.

Section DeploymentOutcomes.
Context {bus : EventBus} {utils : Utils} {Raw : Type} {json : Json Raw}.

(** [createScale] writes nothing to the client stream. *)
Lemma createScale_sent (req : CreateScaleRequest) (env : ScaleEnv Raw) (w : World) :
  sent (trace (createScale req env w).2) = sent (trace w).
Proof.
  rewrite createScale_run.
  pose proof (subscribeEvents_sent
                [ParseIDFromName (CreateScaleRequest_Parent req) "apps"]
                [EventTypeScaleRequest] [] w) as Hsent.
  destruct (subscribeEvents _ _ _ w) as [[err|sub] w1]; simpl in *; [done|].
  rewrite sent_app, Hsent.
  change (sent (CallAddScaleRequest (pending_request req)
                  :: (CallClose <$> EventListener_subs sub)))
    with (sent (CallClose <$> EventListener_subs sub)).
  by rewrite sent_closes, app_nil_r.
Qed.

Lemma CreateDeployment_loop_scale (req : CreateDeploymentRequest) (sub : EventListener)
    (scale1 scale2 : ScaleEnv Raw) (events : list (Event Raw * (error + ct_Deployment))) :
  ∀ w : World,
    CreateDeployment_loop req sub scale1 events w =
    CreateDeployment_loop req sub scale2 events w.
Proof.
  induction events as [|[ctEvent get] events IH]; intros w; [done|].
  cbn [CreateDeployment_loop].
  destruct (decide (Event_ObjectType ctEvent ≠ "deployment")); [done|].
  destruct (Unmarshal_DeploymentEvent (Event_Data ctEvent)) as [de|]; [|done].
  destruct get as [err|d]; [done|].
  unfold mbind, M_bind, call, mret, M_ret.
  destruct (decide (ct_Deployment_Status d = "complete")) as [Hc|Hc].
  - destruct (CreateDeploymentRequest_ScaleRequest req) as [sr|].
    + pose proof (createScale_state
                    {| CreateScaleRequest_Parent :=
                         "apps/" +:+ ct_Deployment_AppID d +:+ "/releases/"
                           +:+ ct_Deployment_NewReleaseID d;
                       CreateScaleRequest_Processes := CreateScaleRequest_Processes sr;
                       CreateScaleRequest_Tags := CreateScaleRequest_Tags sr |}
                    scale1 scale2 w) as Hstate.
      destruct (createScale _ scale1 w) as [r1 w1], (createScale _ scale2 w) as [r2 w2].
      simpl in Hstate. subst w2.
      by destruct (decide (ct_Deployment_Status d = "failed")).
    + by destruct (decide (ct_Deployment_Status d = "failed")).
  - destruct (decide (ct_Deployment_Status d = "failed")); [done|]. apply IH.
Qed.

(** [CreateDeployment], one step after the other, up to the first
    delivery with a terminal deployment. *)
Lemma CreateDeployment_run (req : CreateDeploymentRequest) (env : DeploymentEnv)
    (w : World) (d0 : ct_Deployment) (sub : EventListener)
    (pre rest : list (Event Raw * (error + ct_Deployment)))
    (delivery : Event Raw * (error + ct_Deployment))
    (ev : Event Raw) (de : ct_DeploymentEvent) (d : ct_Deployment) :
  let appID := ParseIDFromName (CreateDeploymentRequest_Parent req) "apps" in
  let releaseID := ParseIDFromName (CreateDeploymentRequest_Release req) "releases" in
  let w1 := log [CallDeploymentAdd appID releaseID] w in
  let subscribe :=
    subscribeEvents [appID] [EventTypeDeployment] [ct_Deployment_ID d0] in
  DeploymentEnv_Add env appID releaseID = inr d0 →
  result subscribe w1 = inr sub →
  DeploymentEnv_events env = pre ++ delivery :: rest →
  Forall (λ x, terminal x.2 = false) (omap acted_on pre) →
  acted_on delivery = Some (ev, de, d) →
  terminal d = true →
  CreateDeployment req env w =
    (if decide (ct_Deployment_Status d = "failed")
     then Some (errors_New (Errorf (ct_DeploymentEvent_Error de)))
     else None,
     log ([CallSend (forwarded (ev, de, d))] ++ (CallClose <$> EventListener_subs sub))
       (CreateDeployment_last_state req (DeploymentEnv_scale env) (subscribe w1).2 pre d)).
Proof.
  intros appID releaseID w1 subscribe Hadd Hsub Hevents Hpre Hacted Hterminal.
  assert (Herr : EventListener_Err sub = None).
  { subst subscribe. by eapply subscribeEvents_Err. }
  unfold CreateDeployment, CreateDeployment_last_state, mbind, M_bind, call.
  fold appID releaseID w1. rewrite Hadd. fold subscribe. unfold result in Hsub.
  destruct (subscribe w1) as [r w1'] eqn:Hw1. simpl in Hsub. subst r.
  rewrite Hevents, CreateDeployment_loop_prefix by done.
  rewrite (CreateDeployment_loop_terminal _ _ _ _ _ _ ev de d) by done.
  unfold Close, mret, M_ret. rewrite log_log, Herr. done.
Qed.

(** Up to that state, the messages written to the client stream are
    those of the deliveries of [pre] that were acted on. *)
Lemma CreateDeployment_last_state_sent (req : CreateDeploymentRequest)
    (scale : ScaleEnv Raw) (w : World)
    (pre : list (Event Raw * (error + ct_Deployment))) (d : ct_Deployment) :
  sent (trace (CreateDeployment_last_state req scale w pre d)) =
    sent (trace w) ++ (forwarded <$> omap acted_on pre).
Proof.
  unfold CreateDeployment_last_state.
  assert (Hpre : sent (trace (log (CallSend ∘ forwarded <$> omap acted_on pre) w)) =
                 sent (trace w) ++ (forwarded <$> omap acted_on pre)).
  { unfold log. cbn [trace]. by rewrite sent_app, list_fmap_compose, sent_sends. }
  destruct (decide (ct_Deployment_Status d = "complete")); [|done].
  destruct (CreateDeploymentRequest_ScaleRequest req); [|done].
  by rewrite createScale_sent.
Qed.

(** C10.  Whatever the surroundings of the embedded [createScale] (it
    completes, it is cancelled, it times out, its insert fails),
    [CreateDeployment] makes the same calls in the same order and returns
    the same result.  In particular, when the deployment is added, the
    subscription is made and the first terminal deployment acted on is
    [complete], with a scale request to issue, the message of that final
    deployment event is the last one sent and the handler returns no
    error, however the embedded scale went. *)
Theorem CreateDeployment_ignores_scale_outcome (req : CreateDeploymentRequest)
    (add : string → string → error + ct_Deployment)
    (scale1 scale2 : ScaleEnv Raw) (w : World) (d0 : ct_Deployment) (sub : EventListener)
    (pre rest : list (Event Raw * (error + ct_Deployment)))
    (delivery : Event Raw * (error + ct_Deployment))
    (ev : Event Raw) (de : ct_DeploymentEvent) (d : ct_Deployment)
    (sr : CreateScaleRequest) :
  let appID := ParseIDFromName (CreateDeploymentRequest_Parent req) "apps" in
  let releaseID := ParseIDFromName (CreateDeploymentRequest_Release req) "releases" in
  let w1 := log [CallDeploymentAdd appID releaseID] w in
  let subscribe :=
    subscribeEvents [appID] [EventTypeDeployment] [ct_Deployment_ID d0] in
  let env scale := {|
    DeploymentEnv_Add := add;
    DeploymentEnv_events := pre ++ delivery :: rest;
    DeploymentEnv_scale := scale |} in
  add appID releaseID = inr d0 →
  result subscribe w1 = inr sub →
  Forall (λ x, terminal x.2 = false) (omap acted_on pre) →
  acted_on delivery = Some (ev, de, d) →
  ct_Deployment_Status d = "complete" →
  CreateDeploymentRequest_ScaleRequest req = Some sr →
  CreateDeployment req (env scale1) w = CreateDeployment req (env scale2) w
  ∧ result (CreateDeployment req (env scale1)) w = None
  ∧ last (sent (calls (CreateDeployment req (env scale1)) w)) = Some (forwarded (ev, de, d))
  ∧ steps (calls (createScale (embedded_scale d sr) scale1)
             (log (CallSend ∘ forwarded <$> omap acted_on pre) (subscribe w1).2))
    = steps (calls (createScale (embedded_scale d sr) scale2)
               (log (CallSend ∘ forwarded <$> omap acted_on pre) (subscribe w1).2)).
Proof.
  intros appID releaseID w1 subscribe env Hadd Hsub Hpre Hacted Hcomplete Hsr.
  assert (Hterminal : terminal d = true).
  { unfold terminal. rewrite Hcomplete. done. }
  split; [|split; [|split]].
  - unfold CreateDeployment, mbind, M_bind, call. simpl.
    destruct (add _ _) as [err|d']; [done|].
    destruct (subscribeEvents _ _ _ _) as [[err|sub'] w']; [done|].
    by rewrite (CreateDeployment_loop_scale req sub' scale1 scale2).
  - unfold result.
    rewrite (CreateDeployment_run req (env scale1) w d0 sub pre rest delivery ev de d)
      by done.
    simpl. by rewrite decide_False by (rewrite Hcomplete; discriminate).
  - unfold calls.
    rewrite (CreateDeployment_run req (env scale1) w d0 sub pre rest delivery ev de d)
      by done.
    cbn [snd]. rewrite sent_log, sent_app, sent_closes, app_nil_r.
    change (sent [CallSend (forwarded (ev, de, d))]) with [forwarded (ev, de, d)].
    apply last_snoc.
  - unfold calls. by rewrite (createScale_state _ scale1 scale2).
Qed.

(** C4, as amended.  Let the deployment be added and the subscription be
    made, let the deliveries [pre] hold no terminal deployment, and let
    the next delivery be acted on with a deployment [d] that is [failed]
    or [complete].  Then every delivery acted on so far has been
    forwarded, in order, and nothing else was sent; on [complete] the
    embedded [createScale] runs first, when the request has a scale
    request, then the last message is sent and the handler returns no
    error; on [failed] the last message is sent and the handler returns
    an error that carries no status, whose message is built from the
    error of the deployment event.  The handle is closed on the way
    out. *)
Theorem CreateDeployment_outcomes (req : CreateDeploymentRequest) (env : DeploymentEnv)
    (w : World) (d0 : ct_Deployment) (sub : EventListener)
    (pre rest : list (Event Raw * (error + ct_Deployment)))
    (delivery : Event Raw * (error + ct_Deployment))
    (ev : Event Raw) (de : ct_DeploymentEvent) (d : ct_Deployment) :
  let appID := ParseIDFromName (CreateDeploymentRequest_Parent req) "apps" in
  let releaseID := ParseIDFromName (CreateDeploymentRequest_Release req) "releases" in
  let w1 := log [CallDeploymentAdd appID releaseID] w in
  let subscribe :=
    subscribeEvents [appID] [EventTypeDeployment] [ct_Deployment_ID d0] in
  DeploymentEnv_Add env appID releaseID = inr d0 →
  result subscribe w1 = inr sub →
  DeploymentEnv_events env = pre ++ delivery :: rest →
  Forall (λ x, terminal x.2 = false) (omap acted_on pre) →
  acted_on delivery = Some (ev, de, d) →
  terminal d = true →
  let w2 := log (CallSend ∘ forwarded <$> omap acted_on pre) (subscribe w1).2 in
  let w3 :=
    if decide (ct_Deployment_Status d = "complete") then
      match CreateDeploymentRequest_ScaleRequest req with
      | Some sr => (createScale (embedded_scale d sr) (DeploymentEnv_scale env) w2).2
      | None => w2
      end
    else w2 in
  result (CreateDeployment req env) w =
    (if decide (ct_Deployment_Status d = "failed")
     then Some (errors_New (Errorf (ct_DeploymentEvent_Error de)))
     else None)
  ∧ (CreateDeployment req env w).2 =
      log ([CallSend (forwarded (ev, de, d))] ++ (CallClose <$> EventListener_subs sub)) w3
  ∧ sent (calls (CreateDeployment req env) w) =
      sent (trace w) ++ (forwarded <$> omap acted_on pre) ++ [forwarded (ev, de, d)].
Proof.
  intros appID releaseID w1 subscribe Hadd Hsub Hevents Hpre Hacted Hterminal w2 w3.
  pose proof (CreateDeployment_run req env w d0 sub pre rest delivery ev de d
                Hadd Hsub Hevents Hpre Hacted Hterminal) as Hrun.
  fold appID releaseID w1 subscribe in Hrun.
  unfold result, calls. rewrite Hrun. split_and!; [done..|].
  cbn [snd]. rewrite sent_log, CreateDeployment_last_state_sent.
  rewrite sent_app, sent_closes, app_nil_r.
  change (sent [CallSend (forwarded (ev, de, d))]) with [forwarded (ev, de, d)].
  subst subscribe. rewrite subscribeEvents_sent. subst w1. rewrite sent_log.
  simpl. by rewrite app_nil_r, <- app_assoc.
Qed.

End DeploymentOutcomes.

(** C4 on the sample bus: a deployment that runs and then completes,
    with a scale request to issue. *)
Lemma CreateDeployment_outcomes_witness :
  let env := Scenario.completing_deployment Scenario.completed_scale in
  let run := CreateDeployment Scenario.deploy_R2 env in
  result run Scenario.w0 = None
  ∧ sent (calls run Scenario.w0) =
      forwarded <$> omap acted_on
        [Scenario.deployment_event 11 "running" "";
         Scenario.deployment_event 12 "complete" ""].
Proof.
  intros env run.
  destruct (CreateDeployment_outcomes (bus := Sample.bus) Scenario.deploy_R2 env
              Scenario.w0 (Scenario.d1 "pending")
              {| EventListener_Err := None;
                 EventListener_subs := [0%nat : @Subscriber Sample.bus] |}
              [Scenario.deployment_event 11 "running" ""] []
              (Scenario.deployment_event 12 "complete" "")
              (Scenario.deployment_event 12 "complete" "").1
              {| ct_DeploymentEvent_Status := "complete";
                 ct_DeploymentEvent_JobType := "web";
                 ct_DeploymentEvent_JobState := "up";
                 ct_DeploymentEvent_Error := "" |}
              (Scenario.d1 "complete"))
    as (Hresult & _ & Hsent);
    [reflexivity | reflexivity | reflexivity | repeat constructor
    | reflexivity | reflexivity |].
  split; [exact Hresult | exact Hsent].
Defined.

(** C10 on the sample bus: the deployment completes and the embedded
    scale is cancelled, where it could have completed. *)
Lemma CreateDeployment_ignores_scale_outcome_witness :
  let run scale :=
    CreateDeployment Scenario.deploy_R2 (Scenario.completing_deployment scale) in
  run Scenario.cancelled_scale Scenario.w0 = run Scenario.completed_scale Scenario.w0
  ∧ result (run Scenario.cancelled_scale) Scenario.w0 = None
  ∧ last (sent (calls (run Scenario.cancelled_scale) Scenario.w0)) =
      forwarded <$> acted_on (Scenario.deployment_event 12 "complete" "").
Proof.
  intros run.
  destruct (CreateDeployment_ignores_scale_outcome (bus := Sample.bus)
              Scenario.deploy_R2 (λ _ _, inr (Scenario.d1 "pending"))
              Scenario.cancelled_scale Scenario.completed_scale
              Scenario.w0 (Scenario.d1 "pending")
              {| EventListener_Err := None;
                 EventListener_subs := [0%nat : @Subscriber Sample.bus] |}
              [Scenario.deployment_event 11 "running" ""] []
              (Scenario.deployment_event 12 "complete" "")
              (Scenario.deployment_event 12 "complete" "").1
              {| ct_DeploymentEvent_Status := "complete";
                 ct_DeploymentEvent_JobType := "web";
                 ct_DeploymentEvent_JobState := "up";
                 ct_DeploymentEvent_Error := "" |}
              (Scenario.d1 "complete")
              {| CreateScaleRequest_Parent := "";
                 CreateScaleRequest_Processes := {[ "web" := 3 ]};
                 CreateScaleRequest_Tags := ∅ |})
    as (Hsame & Hresult & Hlast & _);
    [reflexivity | reflexivity | repeat constructor | reflexivity | reflexivity
    | reflexivity |].
  split_and!; [exact Hsame | exact Hresult | exact Hlast].
Defined.

(** C4 as stated fails: a failed deployment ends the call with an error
    without a status, which the client sees as [Unknown], not as
    [FailedPrecondition]. *)
Lemma CreateDeployment_failure_carries_no_status :
  result (CreateDeployment Scenario.deploy_R2 Scenario.failing_deployment) Scenario.w0
    = Some (errors_New "boom")
  ∧ status_Code (Some (errors_New "boom")) = Unknown
  ∧ result (CreateDeployment Scenario.deploy_R2 Scenario.failing_deployment) Scenario.w0
    ≠ Some (status_Error FailedPrecondition "boom").
Proof. split_and!; [reflexivity | reflexivity | discriminate]. Qed.

(** ** The live loops *)

Section LiveFacts.
Context {bus : EventBus} {utils : Utils} {Raw : Type} {json : Json Raw} {repos : Repos Raw}.

(** Under a step that keeps a watermark, the ids of the events something
    is sent for increase strictly and lie above the starting watermark. *)
Lemma run_live_increasing {P : Type} (step : Z → Event Raw → Z * option P) :
  keeps_watermark step →
  ∀ (live : list (Event Raw)) (currID : Z),
    StronglySorted Z.lt (ids (run_live step currID live))
    ∧ Forall (Z.lt currID) (ids (run_live step currID live)).
Proof.
  intros Hstep. induction live as [|event live IH]; intros currID.
  - split; constructor.
  - cbn [run_live]. destruct (Hstep currID event) as [Hle Hgt].
    destruct (decide (Event_ID event ≤ currID)) as [Hdrop|Hkeep].
    + rewrite Hle by done. apply IH.
    + assert (Hlt : currID < Event_ID event) by lia.
      specialize (Hgt Hlt). destruct (step currID event) as [currID' sent'].
      simpl in Hgt. subst currID'.
      destruct (IH (Event_ID event)) as [Hsorted Habove].
      assert (Habove' : Forall (Z.lt currID) (ids (run_live step (Event_ID event) live))).
      { eapply Forall_impl; [exact Habove|]. intros id Hid. simpl in Hid. lia. }
      destruct sent' as [p|]; [|done].
      split.
      * apply SSorted_cons; done.
      * apply Forall_cons. done.
Qed.

(** A list of integers that increases strictly holds no integer
    twice. *)
Lemma increasing_NoDup (l : list Z) : StronglySorted Z.lt l → NoDup l.
Proof.
  induction 1 as [|x l Hsorted IH Hall]; constructor; [|done].
  intros Hin. rewrite Forall_forall in Hall. specialize (Hall x Hin). lia.
Qed.

Lemma StreamScales_keeps_watermark (req : StreamRequest)
    (releaseIDsMap appIDsMap scaleIDsMap : gset string) :
  keeps_watermark (StreamScales_step req releaseIDsMap appIDsMap scaleIDsMap).
Proof.
  intros currID event. unfold StreamScales_step. split; intros Hid.
  - by rewrite decide_True.
  - rewrite decide_False by lia.
    destruct (negb _); [done|].
    destruct (Unmarshal_ScaleRequest _); [|done].
    by destruct (StreamScales_nameFilter _ _ _ _).
Qed.

Lemma StreamReleases_keeps_watermark (req : StreamRequest)
    (releaseIDs appIDs : gset string) :
  keeps_watermark (StreamReleases_step req releaseIDs appIDs).
Proof.
  intros currID event. unfold StreamReleases_step. split; intros Hid.
  - by rewrite decide_True.
  - rewrite decide_False by lia. by destruct (maybeAcceptRelease _ _ _ _).
Qed.

(** The watermark after the loop of lines 837-846 is the id of the last
    event visited. *)
Lemma StreamReleases_fill_watermark (req : StreamRequest) (releaseIDs appIDs : gset string)
    (oldest_first : list (Event Raw)) :
  ∀ (currID : Z) (releases : list Release),
    (StreamReleases_fill req releaseIDs appIDs oldest_first currID releases).1 =
      default currID (Event_ID <$> last oldest_first).
Proof.
  induction oldest_first as [|event rest IH]; intros currID releases; [reflexivity|].
  cbn [StreamReleases_fill]. rewrite IH.
  destruct rest as [|e rest]; [reflexivity|].
  change (last (event :: e :: rest)) with (last (e :: rest)).
  destruct (last (e :: rest)) eqn:Hlast; [reflexivity|].
  by apply last_None in Hlast.
Qed.

(** The live loop of [StreamApps] sends for every event that
    [StreamApps_forward] keeps. *)
Lemma StreamApps_live_all (req : StreamRequest) (live : list (Event Raw)) :
  StreamApps_live req live =
    omap (λ event, (λ app, (event, app)) <$> StreamApps_forward req event) live.
Proof.
  unfold StreamApps_live. generalize 0.
  induction live as [|event live IH]; intros currID; [done|].
  cbn [run_live omap list_omap].
  destruct (StreamApps_forward req event); simpl; by rewrite IH.
Qed.

(** The watermark of the live loops.  The live loops of [StreamScales]
    and [StreamReleases] drop an event whose id is not above the
    watermark [currID] and move the watermark to the id of any other
    event, so the events they send for have strictly increasing ids, all
    above the watermark the loop starts from.  The snapshot of
    [StreamReleases] leaves as watermark the id of the newest event of
    the page or, when the page has no event, the [before_id] of the page
    token (zero without one).  [StreamApps] and [StreamDeployments] keep
    no watermark: what they send for an event does not depend on its id,
    and [StreamApps] sends for every event its filters keep. *)
Theorem live_watermark (req : StreamRequest) (releaseIDs appIDs scaleIDs : gset string)
    (currID : Z) (live : list (Event Raw)) (pageSize : Z) (pageToken : PageToken)
    (events : list (Event Raw)) (id : Z) (event : Event Raw)
    (get : error + ct_ExpandedDeployment) :
  (let out := run_live (StreamScales_step req releaseIDs appIDs scaleIDs) currID live in
   keeps_watermark (StreamScales_step req releaseIDs appIDs scaleIDs)
   ∧ StronglySorted Z.lt (ids out) ∧ Forall (Z.lt currID) (ids out) ∧ NoDup (ids out))
  ∧ (let out := run_live (StreamReleases_step req releaseIDs appIDs) currID live in
     keeps_watermark (StreamReleases_step req releaseIDs appIDs)
     ∧ StronglySorted Z.lt (ids out) ∧ Forall (Z.lt currID) (ids out) ∧ NoDup (ids out))
  ∧ match StreamReleases_snapshot req releaseIDs appIDs pageSize pageToken events with
    | Ret (watermark, _, _) =>
        watermark =
          default (default 0 (BeforeIDInt64 pageToken))
            (Event_ID <$> head (StreamReleases_page_events pageSize events))
    | Panic => StreamReleases_page_events pageSize events = []
    | NoFuel => False
    end
  ∧ StreamApps_forward req (with_ID id event) = StreamApps_forward req event
  ∧ StreamApps_live req live =
      omap (λ event, (λ app, (event, app)) <$> StreamApps_forward req event) live
  ∧ StreamDeployments_forward req (with_ID id event, get) =
      StreamDeployments_forward req (event, get).
Proof.
  split_and!.
  - pose proof (StreamScales_keeps_watermark req releaseIDs appIDs scaleIDs) as Hstep.
    destruct (run_live_increasing _ Hstep live currID) as [Hsorted Habove].
    split_and!; [done..|]. by apply increasing_NoDup.
  - pose proof (StreamReleases_keeps_watermark req releaseIDs appIDs) as Hstep.
    destruct (run_live_increasing _ Hstep live currID) as [Hsorted Habove].
    split_and!; [done..|]. by apply increasing_NoDup.
  - unfold StreamReleases_snapshot, StreamReleases_page_events.
    destruct (_ && _).
    + destruct (take _ events) as [|e kept] eqn:Hkept; [done|].
      pose proof (StreamReleases_fill_watermark req releaseIDs appIDs
                    (reverse (e :: kept)) (default 0 (BeforeIDInt64 pageToken)) []) as Hw.
      destruct (StreamReleases_fill _ _ _ _ _ _) as [w releases]. simpl in Hw.
      rewrite Hw. by rewrite last_reverse.
    + pose proof (StreamReleases_fill_watermark req releaseIDs appIDs
                    (reverse events) (default 0 (BeforeIDInt64 pageToken)) []) as Hw.
      destruct (StreamReleases_fill _ _ _ _ _ _) as [w releases]. simpl in Hw.
      rewrite Hw. by rewrite last_reverse.
  - reflexivity.
  - apply StreamApps_live_all.
  - reflexivity.
Qed.

End LiveFacts.

(** C1.  With both stream flags set and the channel of the handle
    still open, three of the four handlers send again what their page
    already holds.  [StreamScales], whose [currID] is never set from the
    snapshot, sends the scale request [s0] on the page and again for the
    event of id 3 that reports it.  [StreamApps], which keeps no
    watermark, sends the app [a4] on the page and then once for each
    delivery of the event of id 4 that created it, so twice for the same
    id.  [StreamDeployments], which keeps none either, sends the
    deployment [d0] on the page and again for the event of id 3 about
    it.  [StreamReleases] alone sets its watermark from the snapshot,
    here to 6, and sends nothing for the events of ids 5 and 6. *)
Theorem live_events_overlap_the_snapshot :
  let scales :=
    StreamScales (repos := Sample.repos Cases.busy_store) Scenario.watch_all
      [Cases.scale_seen 3] false in
  let apps :=
    StreamApps (repos := Sample.repos Scenario.store) 5 Scenario.watch_all
      [Scenario.app_created 4 Scenario.a4; Scenario.app_created 4 Scenario.a4] false in
  let deployments :=
    StreamDeployments (repos := Sample.repos Cases.busy_store) Scenario.watch_all
      [Cases.deployment_seen 3] false in
  let releases :=
    StreamReleases (repos := Sample.repos Cases.busy_store) Scenario.watch_all
      [Cases.release_event 5 "R2"; Cases.release_event 6 "R1"] false in
  let s0 := ConvertScaleRequest (Cases.stored_scale "s0" ScaleRequestStateComplete) in
  let d0 := ConvertExpandedDeployment (Cases.expanded "d0" "code" "complete") in
  let R1 := ConvertRelease {| ct_Release_ID := "R1"; ct_Release_AppID := "A";
                              ct_Release_Meta := ∅ |} in
  let R2 := ConvertRelease {| ct_Release_ID := "R2"; ct_Release_AppID := "A";
                              ct_Release_Meta := ∅ |} in
  unary Scenario.watch_all = false
  ∧ (result scales Scenario.w0 = Blocked
     ∧ sent (calls scales Scenario.w0) =
         [StreamScalesResponse [s0] "" true; StreamScalesResponse [s0] "" false])
  ∧ (result apps Scenario.w0 = Blocked
     ∧ sent (calls apps Scenario.w0) =
         [StreamAppsResponse
            (ConvertApp <$> [Scenario.a1; Scenario.a2; Scenario.a3; Scenario.a4]) "" true;
          StreamAppsResponse [ConvertApp Scenario.a4] "" false;
          StreamAppsResponse [ConvertApp Scenario.a4] "" false])
  ∧ (result deployments Scenario.w0 = Blocked
     ∧ sent (calls deployments Scenario.w0) =
         [StreamDeploymentsResponse [d0] "" true; StreamDeploymentsResponse [d0] "" false])
  ∧ (result releases Scenario.w0 = Blocked
     ∧ sent (calls releases Scenario.w0) = [StreamReleasesResponse [R1; R2] "6:0" true]).
Proof. split_and!; vm_compute; reflexivity. Qed.

(** ** The name filter of StreamScales *)

Section ScalesFacts.
Context {bus : EventBus} {utils : Utils} {Raw : Type} {json : Json Raw} {repos : Repos Raw}.

Lemma nonempty_list_to_set (l : list string) :
  nonempty (list_to_set l) = bool_decide (l ≠ []).
Proof.
  unfold nonempty. destruct l as [|x l].
  - rewrite list_to_set_nil, size_empty.
    rewrite (bool_decide_eq_false_2 ([] ≠ [])) by (by intros Hne).
    apply bool_decide_eq_false_2. lia.
  - rewrite (bool_decide_eq_true_2 (_ :: _ ≠ [])) by done.
    apply bool_decide_eq_true_2.
    assert (Hne : (list_to_set (x :: l) : gset string) ≢ ∅).
    { apply (non_empty_inhabited x). simpl. apply elem_of_union. left.
      by apply elem_of_singleton. }
    apply size_non_empty_iff in Hne. lia.
Qed.

(** The name filter lets a scale request through exactly when one of its
    ids is in the matching filter set, or the three sets are empty. *)
Lemma StreamScales_nameFilter_spec (releaseIDs appIDs scaleIDs : list string)
    (scale : ScaleRequest) :
  StreamScales_nameFilter (list_to_set releaseIDs) (list_to_set appIDs)
    (list_to_set scaleIDs) scale = true ↔
  (releaseIDs ≠ [] ∧ ParseIDFromName (ScaleRequest_Name scale) "releases" ∈ releaseIDs)
  ∨ (appIDs ≠ [] ∧ ParseIDFromName (ScaleRequest_Name scale) "apps" ∈ appIDs)
  ∨ (scaleIDs ≠ [] ∧ ParseIDFromName (ScaleRequest_Name scale) "scales" ∈ scaleIDs)
  ∨ (releaseIDs = [] ∧ appIDs = [] ∧ scaleIDs = []).
Proof.
  unfold StreamScales_nameFilter. rewrite !nonempty_list_to_set.
  destruct releaseIDs as [|r releaseIDs], appIDs as [|a appIDs], scaleIDs as [|s scaleIDs];
    repeat (rewrite (bool_decide_eq_true_2 (_ :: _ ≠ [])) by done);
    repeat (rewrite (bool_decide_eq_false_2 ([] ≠ [])) by (by intros Hne));
    cbn [negb orb andb];
    repeat match goal with
           | |- context [bool_decide (?x ∈ list_to_set ?l)] =>
               destruct (bool_decide_reflect (x ∈ (list_to_set l : gset string)))
                 as [?Hin%elem_of_list_to_set|?Hout]
           end;
    cbn [negb orb andb]; split; try done; try (intros _; naive_solver);
    intros Hcases; exfalso;
    repeat match goal with
           | H : _ ∉ list_to_set _ |- _ => rewrite elem_of_list_to_set in H
           end;
    naive_solver.
Qed.

Lemma spec_nameFilter_true (releaseIDs appIDs scaleIDs : list string)
    (scale : ScaleRequest) :
  spec_nameFilter releaseIDs appIDs scaleIDs scale = true ↔
  (releaseIDs ≠ [] ∧ ParseIDFromName (ScaleRequest_Name scale) "releases" ∈ releaseIDs)
  ∨ (appIDs ≠ [] ∧ ParseIDFromName (ScaleRequest_Name scale) "apps" ∈ appIDs)
  ∨ (scaleIDs ≠ [] ∧ ParseIDFromName (ScaleRequest_Name scale) "scales" ∈ scaleIDs)
  ∨ (releaseIDs = [] ∧ appIDs = [] ∧ scaleIDs = []).
Proof.
  unfold spec_nameFilter.
  rewrite !orb_true_iff, !andb_true_iff, !bool_decide_eq_true. naive_solver.
Qed.

(** The name filter of the code is the filter of the specification. *)
Lemma StreamScales_nameFilter_refines (releaseIDs appIDs scaleIDs : list string)
    (scale : ScaleRequest) :
  StreamScales_nameFilter (list_to_set releaseIDs) (list_to_set appIDs)
    (list_to_set scaleIDs) scale
  = spec_nameFilter releaseIDs appIDs scaleIDs scale.
Proof.
  apply eq_true_iff_eq.
  by rewrite StreamScales_nameFilter_spec, spec_nameFilter_true.
Qed.

Lemma run_live_ext {P : Type} (step1 step2 : Z → Event Raw → Z * option P)
    (live : list (Event Raw)) :
  (∀ currID event, step1 currID event = step2 currID event) →
  ∀ currID, run_live step1 currID live = run_live step2 currID live.
Proof.
  intros Hstep. induction live as [|event live IH]; intros currID; [done|].
  cbn [run_live]. rewrite Hstep.
  destruct (step2 currID event) as [currID' [p|]]; by rewrite IH.
Qed.

(** The live loop of [StreamScales] emits what the specification says. *)
Lemma StreamScales_live_refines (req : StreamRequest) (live : list (Event Raw)) :
  StreamScales_live req live = run_live (spec_StreamScales_emits req) 0 live.
Proof.
  unfold StreamScales_live. apply run_live_ext. intros currID event.
  unfold StreamScales_step, spec_StreamScales_emits.
  destruct (decide (Event_ID event ≤ currID)); [done|].
  destruct (op_accepted req (Event_Op event)); [|done]. cbn [negb].
  destruct (Unmarshal_ScaleRequest (Event_Data event)) as [ctReq|]; [|done].
  rewrite StreamScales_nameFilter_refines.
  by destruct (spec_nameFilter _ _ _ _).
Qed.

(** [defer sub.Close()] around a body, one step after the other. *)
Lemma deferred_Close_run (sub : EventListener) (body : M Standing) (w : World) :
  deferred_Close sub body w =
    match (body w).1 with
    | Ended o => (Ended o, log (CallClose <$> EventListener_subs sub) (body w).2)
    | Blocked => (Blocked, (body w).2)
    end.
Proof.
  unfold deferred_Close, mbind, M_bind, Close, mret, M_ret.
  by destruct (body w) as [[o|] w1].
Qed.

(** C8.  Let a streaming [StreamScales] get its subscription and its
    page.  When its name filters hold a release id, the subscription it
    made is the widened one: a single [Subscribe] for every app ([""])
    and for no object id, the app ids and the scale ids of the filters
    being dropped; otherwise it subscribed for its app ids and scale
    ids.  After the page it sends, for each live event above the
    watermark, of an accepted op, whose payload decodes, the scale
    request exactly when the release id, the app id or the scale id of
    the scale request is in the matching, non-empty filter set, or the
    three filter sets are empty; it sends nothing else, and closes its
    subscribers only once the channel is closed. *)
Theorem StreamScales_widens_and_refilters (req : StreamRequest) (live : list (Event Raw))
    (closed : bool) (w : World) (tok : PageToken) (sub : EventListener)
    (scales : list ct_ScaleRequest) (nextPageToken : option PageToken) :
  let appIDs := ParseIDsFromNameFilters (NameFilters req) "apps" in
  let releaseIDs := ParseIDsFromNameFilters (NameFilters req) "releases" in
  let scaleIDs := ParseIDsFromNameFilters (NameFilters req) "scales" in
  let widened := bool_decide (releaseIDs ≠ []) in
  let streamAppIDs := if widened then [""] else match appIDs with [] => [""] | _ => appIDs end in
  let streamScaleIDs := if widened then [] else scaleIDs in
  unary req = false →
  ParsePageToken (PageToken_ req) = inr tok →
  result (subscribeEvents (if widened then [] else appIDs) [EventTypeScaleRequest]
            streamScaleIDs) w = inr sub →
  formationRepo_ListScaleRequests (StreamScales_options req tok) = inr (scales, nextPageToken) →
  length (EventListener_subs sub) = length streamAppIDs
  ∧ calls (StreamScales req live closed) w =
      trace w
        ++ subscribed [EventTypeScaleRequest] streamScaleIDs
             (zip streamAppIDs (EventListener_subs sub))
        ++ [CallQuery (formationRepo_ListScaleRequests_query (StreamScales_options req tok));
            CallSend (StreamScalesResponse (ConvertScaleRequest <$> scales)
                        (PageToken_String nextPageToken) true)]
        ++ (CallSend <$> ((λ '(_, scale), StreamScalesResponse [scale] "" false)
                            <$> run_live (spec_StreamScales_emits req) 0 live))
        ++ (if closed then CallClose <$> EventListener_subs sub else [])
  ∧ result (StreamScales req live closed) w = (if closed then Ended (Ret None) else Blocked).
Proof.
  intros appIDs releaseIDs scaleIDs widened streamAppIDs streamScaleIDs
    Hstream Hparse Hsub Hlist.
  assert (Hwanted : StreamScales_subscription req =
            (if widened then [] else appIDs, streamScaleIDs)).
  { unfold StreamScales_subscription. fold releaseIDs appIDs scaleIDs.
    subst widened streamScaleIDs. destruct releaseIDs.
    - rewrite decide_False by (simpl; lia).
      by rewrite bool_decide_eq_false_2 by (by intros Hne).
    - rewrite decide_True by (simpl; lia). by rewrite bool_decide_eq_true_2. }
  pose proof (subscribeEvents_Err _ _ _ _ _ Hsub) as Herr.
  destruct (subscribeEvents_made _ _ _ _ _ Hsub) as [Hlen Htrace].
  assert (Happs : match (if widened then [] else appIDs) with
                  | [] => [""] | _ => if widened then [] else appIDs end = streamAppIDs).
  { subst streamAppIDs. by destruct widened. }
  rewrite Happs in Hlen, Htrace.
  split; [exact Hlen|].
  unfold calls, result in *. unfold StreamScales. rewrite Hparse, Hwanted.
  unfold mbind, M_bind.
  destruct (subscribeEvents _ _ _ w) as [r w1]. cbn [fst snd] in *. subst r.
  rewrite deferred_Close_run.
  unfold call, sends, receive_end, mret, M_ret. rewrite Hlist, Hstream, Herr.
  rewrite StreamScales_live_refines.
  destruct closed; cbn [fst snd]; unfold log; cbn [trace];
    rewrite Htrace, <- ?app_assoc, ?app_nil_r; done.
Qed.

End ScalesFacts.

(** C8 on the sample repos: the filter names the release [R] of the app
    [A]; an update of the scale request [s1] of [R] arrives, then an
    update of the scale request [s0] of another release. *)
Lemma StreamScales_widens_and_refilters_witness :
  let run :=
    StreamScales (repos := Sample.repos Scenario.store) Scenario.watch_scales_of_R
      [Scenario.scale_event 7 ScaleRequestStateComplete; Cases.scale_of_other_release 8]
      false in
  let s1 := ConvertScaleRequest (Cases.stored_scale "s1" ScaleRequestStateComplete) in
  calls run Scenario.w0 =
    [CallSubscribe "" [EventTypeScaleRequest] [] (inr (0%nat : @Subscriber Sample.bus));
     CallGo (0%nat : @Subscriber Sample.bus);
     CallQuery (formationRepo_ListScaleRequests_query
                  {| ListScaleRequestOptions_PageToken :=
                       {| PageToken_BeforeID := None; PageToken_Size := 0 |};
                     ListScaleRequestOptions_AppIDs := ["A"];
                     ListScaleRequestOptions_ReleaseIDs := ["R"];
                     ListScaleRequestOptions_ScaleIDs := [] |});
     CallSend (StreamScalesResponse [] "" true);
     CallSend (StreamScalesResponse [s1] "" false)]
  ∧ result run Scenario.w0 = Blocked.
Proof.
  intros run s1.
  destruct (StreamScales_widens_and_refilters (bus := Sample.bus)
              (repos := Sample.repos Scenario.store) Scenario.watch_scales_of_R
              [Scenario.scale_event 7 ScaleRequestStateComplete;
               Cases.scale_of_other_release 8]
              false Scenario.w0 {| PageToken_BeforeID := None; PageToken_Size := 0 |}
              Cases.first_handle [] None)
    as (_ & Hcalls & Hresult); [reflexivity..|].
  split; [exact Hcalls | exact Hresult].
Defined.

(** ** The snapshot phase *)

(** C7.  A page of two apps labelled [env=prod] is asked for; the first
    page of the repo holds one such app and a next page token, so
    [listApps] fetches the next page, again for two apps, and puts its
    two apps in front: three apps are returned, where two, the lesser of
    the page size and of the three matching apps, were asked for. *)
Theorem listApps_overfills_the_page :
  let run := listApps (repos := Sample.repos Scenario.store) 5 Scenario.prod_page in
  let matching :=
    filter (λ a, MatchLabelFilters (ct_App_Meta a) (LabelFilters Scenario.prod_page) = true)
      (Sample.store_apps Scenario.store) in
  PageSize Scenario.prod_page = 2
  ∧ matching = [Scenario.a1; Scenario.a3; Scenario.a4]
  ∧ result run Scenario.w0 =
      Ret (inr (ConvertApp <$> [Scenario.a3; Scenario.a4; Scenario.a1], None))
  ∧ steps (calls run Scenario.w0) = [Queried; Queried]
  ∧ Z.of_nat (length (ConvertApp <$> [Scenario.a3; Scenario.a4; Scenario.a1]))
      ≠ Z.min (PageSize Scenario.prod_page) (Z.of_nat (length matching)).
Proof. split_and!; [vm_compute; reflexivity..|vm_compute; discriminate]. Qed.

(** C2.  With streaming asked for, [StreamDeployments] queries the repo
    and sends the page before it subscribes, where [StreamApps],
    [StreamScales] and [StreamReleases] subscribe first; the subscribers
    are closed at the end only if the channel of the handle is closed. *)
Theorem StreamDeployments_subscribes_after_the_snapshot (closed : bool) :
  let closing := if closed then [Closed] else [] in
  unary Scenario.watch_all = false
  ∧ steps (calls (StreamDeployments (repos := Sample.repos Scenario.store)
                    Scenario.watch_all [Scenario.deployment_update 12 "running"] closed)
             Scenario.w0)
    = [Queried; Sent; Subscribed; Spawned; Sent] ++ closing
  ∧ steps (calls (StreamApps (repos := Sample.repos Scenario.store) 5
                    Scenario.watch_all [Scenario.app_created 9 Scenario.a5] closed)
             Scenario.w0)
    = [Subscribed; Spawned; Queried; Sent; Sent] ++ closing
  ∧ steps (calls (StreamScales (repos := Sample.repos Scenario.store)
                    Scenario.watch_all [Scenario.scale_event 7 ScaleRequestStatePending]
                    closed)
             Scenario.w0)
    = [Subscribed; Spawned; Queried; Sent; Sent] ++ closing
  ∧ steps (calls (StreamReleases (repos := Sample.repos Scenario.store)
                    Scenario.watch_all [Scenario.release_created 8] closed)
             Scenario.w0)
    = [Subscribed; Spawned; Queried; Sent; Sent] ++ closing.
Proof. destruct closed; split_and!; vm_compute; reflexivity. Qed.

Section SnapshotFacts.
Context {bus : EventBus} {utils : Utils} {Raw : Type} {json : Json Raw} {repos : Repos Raw}.

(** An error of the repo on the first page ends [listApps] with that
    error. *)
Lemma listApps_first_error (fuel : nat) (req : StreamRequest) (w : World)
    (tok : PageToken) (err : error) :
  ParsePageToken (PageToken_ req) = inr tok →
  appRepo_ListPage (page_setup (PageSize req) tok).2 = inl err →
  listApps (S fuel) req w =
    (Ret (inl err),
     log [CallQuery (appRepo_ListPage_query (page_setup (PageSize req) tok).2)] w).
Proof.
  intros Hparse Herr. cbn [listApps]. rewrite Hparse.
  destruct (page_setup (PageSize req) tok) as [pageSize pageToken]. simpl in Herr.
  unfold mbind, M_bind, call. by rewrite Herr.
Qed.

(** When the first page comes short and the repo hands back a token,
    [listApps] asks for the next page; the apps of that page go in front,
    and an error of that call is dropped. *)
Lemma listApps_next_page (fuel : nat) (req : StreamRequest) (w : World)
    (tok : PageToken) (ctApps : list ct_App) (npt : PageToken) :
  let pageSize := listApps_pageSize req tok ctApps in
  let apps :=
    listApps_filter (ParseAppIDsFromNameFilters (NameFilters req)) (LabelFilters req)
      pageSize 0 ctApps in
  let w1 := log [CallQuery (appRepo_ListPage_query (page_setup (PageSize req) tok).2)] w in
  ParsePageToken (PageToken_ req) = inr tok →
  appRepo_ListPage (page_setup (PageSize req) tok).2 = inr (ctApps, Some npt) →
  Z.of_nat (length apps) < pageSize →
  listApps (S fuel) req w =
    let '(r, w2) := listApps fuel (listApps_next req (Some npt)) w1 in
    (match r with
     | Ret (inl _) => Ret (inr (apps, Some npt))
     | Ret (inr (nextApps, npt')) => Ret (inr (nextApps ++ apps, npt'))
     | Panic => Panic
     | NoFuel => NoFuel
     end, w2).
Proof.
  intros pageSize apps w1 Hparse Hpage Hshort. subst pageSize apps w1.
  unfold listApps_pageSize in *. cbn [listApps]. rewrite Hparse.
  destruct (page_setup (PageSize req) tok) as [pageSize pageToken].
  cbn [fst snd] in *. unfold mbind, M_bind, call. rewrite Hpage.
  set (size := if decide (pageSize = 0) then Z.of_nat (length ctApps) else pageSize) in *.
  rewrite decide_False by lia. rewrite decide_True by done.
  destruct (listApps fuel _ _) as [[[err|[nextApps npt']]| |] w2]; done.
Qed.

(** With streaming asked for, [StreamDeployments] has queried the repo
    and sent the page when it subscribes. *)
Lemma StreamDeployments_order (req : StreamRequest)
    (live : list (Event Raw * (error + ct_ExpandedDeployment))) (closed : bool) (w : World)
    (tok : PageToken) (page : list ct_ExpandedDeployment) (npt : option PageToken) :
  ParsePageToken (PageToken_ req) = inr tok →
  deploymentRepo_ListPage (listDeployments_options req tok) = inr (page, npt) →
  unary req = false →
  StreamDeployments req live closed w =
    let w1 :=
      log [CallQuery (deploymentRepo_ListPage_query (listDeployments_options req tok));
           CallSend (StreamDeploymentsResponse
                       (listDeployments_filter req (ConvertExpandedDeployment <$> page))
                       (PageToken_String npt) true)] w in
    let '(r, w2) :=
      subscribeEvents (ParseIDsFromNameFilters (NameFilters req) "apps")
        [EventTypeDeployment]
        (ParseIDsFromNameFilters (NameFilters req) "deployments") w1 in
    match r with
    | inl err => (Ended (Ret (Some err)), w2)
    | inr sub =>
        let w3 :=
          log (CallSend <$> ((λ '(_, d), StreamDeploymentsResponse [d] "" false)
                               <$> StreamDeployments_live req live)) w2 in
        if closed
        then (Ended (Ret (EventListener_Err sub)),
              log (CallClose <$> EventListener_subs sub) w3)
        else (Blocked, w3)
    end.
Proof.
  intros Hparse Hpage Hstream.
  unfold StreamDeployments, listDeployments, mbind, M_bind. rewrite Hparse.
  unfold call, mret, M_ret. rewrite Hpage, Hstream. rewrite log_log. simpl.
  destruct (subscribeEvents _ _ _ _) as [[err|sub] w2]; [done|].
  rewrite deferred_Close_run. unfold sends, receive_end, mret, M_ret.
  by destruct closed.
Qed.

(** C6, as amended.  For each [Stream*] handler on its own: when the
    page token parses and the subscription, where the handler makes one
    before its query, is made, an error of the repo on the first query
    of the snapshot phase ends the call with that error, and nothing is
    sent.  In [listApps], when the first page comes short and the repo
    hands back a token, the next page is asked for: its apps go in front
    of those of the first page, and an error of that call is dropped,
    the apps of the first page being returned with the token of the page
    that could not be read. *)
Theorem first_snapshot_error_fails_rpc :
  (∀ (fuel : nat) (req : StreamRequest) (live : list (Event Raw)) (closed : bool)
     (w : World) (tok : PageToken) (err : error),
     ParsePageToken (PageToken_ req) = inr tok →
     appRepo_ListPage (page_setup (PageSize req) tok).2 = inl err →
     (unary req = true
      ∨ ∃ sub, result (subscribeEvents (ParseAppIDsFromNameFilters (NameFilters req))
                         [EventTypeApp; EventTypeAppDeletion; EventTypeAppRelease] []) w
               = inr sub) →
     result (StreamApps (S fuel) req live closed) w = Ended (Ret (Some err))
     ∧ sent (calls (StreamApps (S fuel) req live closed) w) = sent (trace w))
  ∧ (∀ (req : StreamRequest) (live : list (Event Raw)) (closed : bool) (w : World)
       (tok : PageToken) (err : error) (sub : EventListener),
       ParsePageToken (PageToken_ req) = inr tok →
       result (subscribeEvents (StreamScales_subscription req).1 [EventTypeScaleRequest]
                 (StreamScales_subscription req).2) w = inr sub →
       formationRepo_ListScaleRequests (StreamScales_options req tok) = inl err →
       result (StreamScales req live closed) w = Ended (Ret (Some err))
       ∧ sent (calls (StreamScales req live closed) w) = sent (trace w))
  ∧ (∀ (req : StreamRequest) (live : list (Event Raw)) (closed : bool) (w : World)
       (tok : PageToken) (err : error) (sub : EventListener),
       ParsePageToken (PageToken_ req) = inr tok →
       result (subscribeEvents (StreamReleases_eventAppIDs req) [EventTypeRelease] []) w
         = inr sub →
       eventRepo_LegacyListEvents (StreamReleases_eventAppIDs req) [EventTypeRelease]
         (BeforeIDInt64 (page_setup (PageSize req) tok).2)
         (StreamReleases_count (page_setup (PageSize req) tok).1) = inl err →
       result (StreamReleases req live closed) w = Ended (Ret (Some err))
       ∧ sent (calls (StreamReleases req live closed) w) = sent (trace w))
  ∧ (∀ (req : StreamRequest) (live : list (Event Raw * (error + ct_ExpandedDeployment)))
       (closed : bool) (w : World) (tok : PageToken) (err : error),
       ParsePageToken (PageToken_ req) = inr tok →
       deploymentRepo_ListPage (listDeployments_options req tok) = inl err →
       result (StreamDeployments req live closed) w = Ended (Ret (Some err))
       ∧ sent (calls (StreamDeployments req live closed) w) = sent (trace w))
  ∧ (∀ (fuel : nat) (req : StreamRequest) (w : World) (tok : PageToken)
       (ctApps : list ct_App) (npt : PageToken),
       let pageSize := listApps_pageSize req tok ctApps in
       let apps :=
         listApps_filter (ParseAppIDsFromNameFilters (NameFilters req)) (LabelFilters req)
           pageSize 0 ctApps in
       let w1 :=
         log [CallQuery (appRepo_ListPage_query (page_setup (PageSize req) tok).2)] w in
       ParsePageToken (PageToken_ req) = inr tok →
       appRepo_ListPage (page_setup (PageSize req) tok).2 = inr (ctApps, Some npt) →
       Z.of_nat (length apps) < pageSize →
       result (listApps (S fuel) req) w =
         match result (listApps fuel (listApps_next req (Some npt))) w1 with
         | Ret (inl _) => Ret (inr (apps, Some npt))
         | Ret (inr (nextApps, npt')) => Ret (inr (nextApps ++ apps, npt'))
         | Panic => Panic
         | NoFuel => NoFuel
         end).
Proof.
  unfold result, calls. split; [|split; [|split; [|split]]].
  - intros fuel req live closed w tok err Hparse Herr Hsub.
    unfold StreamApps, mbind, M_bind.
    destruct (unary req).
    + rewrite (listApps_first_error fuel req w tok err) by done.
      unfold mret, M_ret.
      split; [done|]. cbn [snd]. rewrite sent_log. simpl. apply app_nil_r.
    + destruct Hsub as [Hsub|[sub Hsub]]; [done|].
      pose proof (subscribeEvents_sent (ParseAppIDsFromNameFilters (NameFilters req))
                    [EventTypeApp; EventTypeAppDeletion; EventTypeAppRelease] [] w) as Hsent.
      destruct (subscribeEvents (ParseAppIDsFromNameFilters (NameFilters req))
                  [EventTypeApp; EventTypeAppDeletion; EventTypeAppRelease] [] w)
        as [r w'].
      cbn [fst snd] in Hsub, Hsent. subst r.
      rewrite deferred_Close_run.
      rewrite (listApps_first_error fuel req w' tok err) by done.
      unfold mret, M_ret. cbn [fst snd]. split; [done|].
      rewrite !sent_log, sent_closes, Hsent. simpl. by rewrite !app_nil_r.
  - intros req live closed w tok err sub Hparse Hsub Herr.
    unfold StreamScales, mbind, M_bind. rewrite Hparse.
    pose proof (subscribeEvents_sent (StreamScales_subscription req).1
                  [EventTypeScaleRequest] (StreamScales_subscription req).2 w) as Hsent.
    destruct (StreamScales_subscription req) as [streamAppIDs streamScaleIDs].
    cbn [fst snd] in Hsub, Hsent.
    destruct (subscribeEvents streamAppIDs [EventTypeScaleRequest] streamScaleIDs w)
      as [r w'].
    cbn [fst snd] in Hsub, Hsent. subst r.
    rewrite deferred_Close_run.
    unfold call, mret, M_ret. rewrite Herr. cbn [fst snd].
    split; [done|].
    rewrite !sent_log, sent_closes, Hsent. simpl. by rewrite !app_nil_r.
  - intros req live closed w tok err sub Hparse Hsub Herr.
    unfold StreamReleases, mbind, M_bind. rewrite Hparse.
    pose proof (subscribeEvents_sent (StreamReleases_eventAppIDs req)
                  [EventTypeRelease] [] w) as Hsent.
    destruct (page_setup (PageSize req) tok) as [pageSize pageToken].
    cbn [fst snd] in Herr.
    destruct (subscribeEvents (StreamReleases_eventAppIDs req) [EventTypeRelease] [] w)
      as [r w'].
    cbn [fst snd] in Hsub, Hsent. subst r.
    rewrite deferred_Close_run.
    unfold call, mret, M_ret. rewrite Herr. cbn [fst snd].
    split; [done|].
    rewrite !sent_log, sent_closes, Hsent. simpl. by rewrite !app_nil_r.
  - intros req live closed w tok err Hparse Herr.
    unfold StreamDeployments, listDeployments, mbind, M_bind. rewrite Hparse.
    unfold call, mret, M_ret. rewrite Herr.
    split; [done|]. cbn [snd]. rewrite sent_log. simpl. apply app_nil_r.
  - intros fuel req w tok ctApps npt Hparse Hpage Hshort.
    rewrite (listApps_next_page fuel req w tok ctApps npt) by done.
    cbv zeta.
    by destruct (listApps fuel _ _) as [[[err|[nextApps npt']]| |] w2].
Qed.

End SnapshotFacts.

(** C6 on the sample repos.  With only the page of apps after [a2]
    unreadable, [StreamApps] fails on a request that starts after [a2];
    with the other repos down, each of the other three handlers fails;
    and [listApps] on the first page drops the error of the page after
    [a2]. *)
Lemma first_snapshot_error_fails_rpc_witness :
  let req := Scenario.watch_after_a2 in
  let apps := StreamApps (repos := Sample.repos Cases.apps_broken_store) 4 req [] false in
  let scales := StreamScales (repos := Sample.repos Scenario.broken_store) req [] false in
  let releases := StreamReleases (repos := Sample.repos Scenario.broken_store) req [] false in
  let deployments :=
    StreamDeployments (repos := Sample.repos Scenario.broken_store) req [] false in
  (result apps Scenario.w0 = Ended (Ret (Some Sample.storage_down))
   ∧ sent (calls apps Scenario.w0) = [])
  ∧ (result scales Scenario.w0 = Ended (Ret (Some Sample.storage_down))
     ∧ sent (calls scales Scenario.w0) = [])
  ∧ (result releases Scenario.w0 = Ended (Ret (Some Sample.storage_down))
     ∧ sent (calls releases Scenario.w0) = [])
  ∧ (result deployments Scenario.w0 = Ended (Ret (Some Sample.storage_down))
     ∧ sent (calls deployments Scenario.w0) = [])
  ∧ result (listApps (repos := Sample.repos Cases.apps_broken_store) 4 Scenario.prod_page)
      Scenario.w0 =
      Ret (inr ([ConvertApp Scenario.a1],
                Some {| PageToken_BeforeID := Some "a2"; PageToken_Size := 2 |})).
Proof.
  intros req apps scales releases deployments.
  pose (tok := {| PageToken_BeforeID := Some "a2"; PageToken_Size := 2 |}).
  destruct (first_snapshot_error_fails_rpc (bus := Sample.bus)
              (repos := Sample.repos Cases.apps_broken_store)) as (HA & _ & _ & _ & HL).
  destruct (first_snapshot_error_fails_rpc (bus := Sample.bus)
              (repos := Sample.repos Scenario.broken_store)) as (_ & HS & HR & HD & _).
  split; [|split; [|split; [|split]]].
  - apply (HA 3%nat req [] false Scenario.w0 tok Sample.storage_down);
      [reflexivity | reflexivity |].
    right. exists Cases.first_handle. reflexivity.
  - apply (HS req [] false Scenario.w0 tok Sample.storage_down Cases.first_handle);
      reflexivity.
  - apply (HR req [] false Scenario.w0 tok Sample.storage_down Cases.first_handle);
      reflexivity.
  - apply (HD req [] false Scenario.w0 tok Sample.storage_down); reflexivity.
  - apply (HL 3%nat Scenario.prod_page Scenario.w0
             {| PageToken_BeforeID := None; PageToken_Size := 0 |}
             [Scenario.a1; Scenario.a2] tok);
      [reflexivity | reflexivity | vm_compute; reflexivity].
Defined.

(** C6 as stated fails: the repo fails on the page after [a2], which
    [listApps] asks for to fill the page; the call goes on, sends the one
    app of the first page and ends without an error. *)
Lemma listApps_drops_the_error_of_a_later_page :
  let repos := Sample.repos Scenario.broken_store in
  let run := StreamApps 5 Scenario.prod_page [] false in
  appRepo_ListPage {| PageToken_BeforeID := Some "a2"; PageToken_Size := 2 |}
    = inl Sample.storage_down
  ∧ (calls run Scenario.w0 : list (@Call Sample.bus)) =
      [CallQuery (appRepo_ListPage_query
                    {| PageToken_BeforeID := None; PageToken_Size := 2 |});
       CallQuery (appRepo_ListPage_query
                    {| PageToken_BeforeID := Some "a2"; PageToken_Size := 2 |});
       CallSend (StreamAppsResponse [ConvertApp Scenario.a1] "a2:2" true)]
  ∧ result run Scenario.w0 = Ended (Ret None).
Proof. split_and!; vm_compute; reflexivity. Qed.

(** * Further properties *)

(** ** One page of listApps *)

Section PageFacts.
Context {bus : EventBus} {utils : Utils} {Raw : Type} {json : Json Raw} {repos : Repos Raw}.

Lemma listApps_filter_take (appIDs : list string) (labelFilters : list Labels)
    (pageSize : Z) (ctApps : list ct_App) :
  ∀ n : Z,
    0 ≤ n < pageSize →
    listApps_filter appIDs labelFilters pageSize n ctApps =
      take (Z.to_nat (pageSize - n))
        (ConvertApp <$> filter (λ a, listApps_keeps appIDs labelFilters a = true) ctApps).
Proof.
  induction ctApps as [|a ctApps IH]; intros n Hn.
  - cbn [listApps_filter]. rewrite filter_nil, fmap_nil. by rewrite take_nil.
  - cbn [listApps_filter]. rewrite filter_cons.
    set (found := existsb _ appIDs).
    assert (Hskip : bool_decide (appIDs ≠ []) && negb found =
                    negb (bool_decide (appIDs = []) || found)).
    { destruct (decide (appIDs = [])) as [Hnil|Hnil].
      - rewrite (bool_decide_eq_true_2 _ Hnil).
        by rewrite (bool_decide_eq_false_2 (appIDs ≠ [])) by (by intros Hne).
      - rewrite (bool_decide_eq_false_2 _ Hnil).
        by rewrite (bool_decide_eq_true_2 (appIDs ≠ [])) by done. }
    rewrite Hskip.
    destruct (listApps_keeps appIDs labelFilters a) eqn:Hkeep.
    + rewrite (decide_True (P := true = true)) by done.
      unfold listApps_keeps in Hkeep. fold found in Hkeep.
      apply andb_true_iff in Hkeep as [Hname Hmatch]. rewrite Hname, Hmatch.
      cbn [negb]. rewrite fmap_cons.
      replace (Z.to_nat (pageSize - n)) with (S (Z.to_nat (pageSize - (n + 1)))) by lia.
      cbn [take]. f_equal. case_decide.
      * replace (Z.to_nat (pageSize - (n + 1))) with 0%nat by lia. done.
      * apply IH. lia.
    + rewrite (decide_False (P := false = true)) by done.
      unfold listApps_keeps in Hkeep. fold found in Hkeep.
      apply andb_false_iff in Hkeep as [Hname|Hmatch].
      * rewrite Hname. cbn [negb]. by apply IH.
      * rewrite Hmatch. cbn [negb].
        destruct (bool_decide (appIDs = []) || found); cbn [negb]; by apply IH.
Qed.

(** X1.  Out of one page of the repo, [listApps] keeps the apps that get
    through its name and label filters, in the order of the page, and
    stops at the page size: for a positive page size it keeps the first
    [pageSize] of them, converted, so never more than [pageSize]. *)
Theorem listApps_filter_page (appIDs : list string) (labelFilters : list Labels)
    (pageSize : Z) (ctApps : list ct_App) :
  0 < pageSize →
  listApps_filter appIDs labelFilters pageSize 0 ctApps =
    take (Z.to_nat pageSize)
      (ConvertApp <$> filter (λ a, listApps_keeps appIDs labelFilters a = true) ctApps)
  ∧ Z.of_nat (length (listApps_filter appIDs labelFilters pageSize 0 ctApps)) ≤ pageSize.
Proof.
  intros Hsize. rewrite listApps_filter_take by lia. rewrite Z.sub_0_r.
  split; [done|]. rewrite length_take. lia.
Qed.

(** The calls of [listApps] are queries. *)
Lemma listApps_state (fuel : nat) :
  ∀ (req : StreamRequest) (w : World),
    ∃ qs : list Query, (listApps fuel req w).2 = log (CallQuery <$> qs) w.
Proof.
  induction fuel as [|fuel IH]; intros req w; cbn [listApps].
  - exists []. unfold mret, M_ret. cbn [snd]. by rewrite fmap_nil, log_nil.
  - destruct (ParsePageToken (PageToken_ req)) as [err|tok].
    { exists []. unfold mret, M_ret. cbn [snd]. by rewrite fmap_nil, log_nil. }
    destruct (page_setup (PageSize req) tok) as [pageSize pageToken].
    unfold mbind, M_bind, call, mret, M_ret.
    assert (Hone : ∃ qs : list Query,
              log [CallQuery (appRepo_ListPage_query pageToken)] w =
                log (CallQuery <$> qs) w)
      by (by exists [appRepo_ListPage_query pageToken]).
    destruct (appRepo_ListPage pageToken) as [err|[ctApps nextPageToken]]; [exact Hone|].
    destruct (decide (_ < 0)); [exact Hone|].
    destruct nextPageToken as [npt|]; [|exact Hone].
    destruct (decide (_ < _)); [|exact Hone].
    destruct (IH (listApps_next req (Some npt))
                (log [CallQuery (appRepo_ListPage_query pageToken)] w)) as (qs & Hstate).
    exists (appRepo_ListPage_query pageToken :: qs).
    assert (Hfinal : (listApps fuel (listApps_next req (Some npt))
                        (log [CallQuery (appRepo_ListPage_query pageToken)] w)).2 =
                     log (CallQuery <$> appRepo_ListPage_query pageToken :: qs) w)
      by (by rewrite Hstate, log_log).
    destruct (listApps fuel _ _) as [[[err|[nextApps npt']]| |] w2]; exact Hfinal.
Qed.

Lemma sent_queries (qs : list Query) : sent (CallQuery <$> qs) = [].
Proof. by induction qs. Qed.

(** X2.  [listApps] calls nothing but [appRepo.ListPage]: it leaves the
    listener alone, records only page queries, at most one for each unit
    of fuel, and, when the request has a positive page size, asks for a
    page of that full size every time, also when only a part of the page
    is still missing. *)
Theorem listApps_queries_only (fuel : nat) :
  ∀ (req : StreamRequest) (w : World),
    ∃ toks : list PageToken,
      (listApps fuel req w).2 = log (CallQuery ∘ appRepo_ListPage_query <$> toks) w
      ∧ (length toks ≤ fuel)%nat
      ∧ (PageSize req ≤ 0 ∨ Forall (λ t, PageToken_Size t = PageSize req) toks).
Proof.
  induction fuel as [|fuel IH]; intros req w.
  - exists []. cbn [listApps]. unfold mret, M_ret. cbn [snd].
    rewrite fmap_nil, log_nil. split_and!; [done|done|]. right. constructor.
  - cbn [listApps].
    destruct (ParsePageToken (PageToken_ req)) as [err|tok].
    { exists []. unfold mret, M_ret. cbn [snd]. rewrite fmap_nil, log_nil.
      split_and!; [done|simpl; lia|]. right. constructor. }
    assert (Hsize : PageSize req ≤ 0
                    ∨ PageToken_Size (page_setup (PageSize req) tok).2 = PageSize req).
    { unfold page_setup. destruct (decide (PageSize req > 0)); [by right|left; lia]. }
    destruct (page_setup (PageSize req) tok) as [pageSize pageToken]. cbn [snd] in Hsize.
    unfold mbind, M_bind, call.
    assert (Hone : ∃ toks : list PageToken,
              log [CallQuery (appRepo_ListPage_query pageToken)] w =
                log (CallQuery ∘ appRepo_ListPage_query <$> toks) w
              ∧ (length toks ≤ S fuel)%nat
              ∧ (PageSize req ≤ 0 ∨ Forall (λ t, PageToken_Size t = PageSize req) toks)).
    { exists [pageToken]. split_and!; [done|simpl; lia|].
      destruct Hsize as [Hsize|Hsize]; [by left|right]. by constructor. }
    destruct (appRepo_ListPage pageToken) as [err|[ctApps nextPageToken]]; [exact Hone|].
    unfold mret, M_ret.
    destruct (decide (_ < 0)); [exact Hone|].
    destruct nextPageToken as [npt|]; [|exact Hone].
    destruct (decide (_ < _)); [|exact Hone].
    destruct (IH (listApps_next req (Some npt))
                (log [CallQuery (appRepo_ListPage_query pageToken)] w))
      as (toks & Hstate & Hlen & Hsizes).
    exists (pageToken :: toks).
    assert (Hfinal : (listApps fuel (listApps_next req (Some npt))
                        (log [CallQuery (appRepo_ListPage_query pageToken)] w)).2 =
                     log (CallQuery ∘ appRepo_ListPage_query <$> pageToken :: toks) w).
    { rewrite Hstate, log_log. done. }
    split_and!.
    + destruct (listApps fuel _ _) as [[[err|[nextApps npt']]| |] w2]; exact Hfinal.
    + simpl. lia.
    + destruct Hsize as [Hsize|Hsize]; [by left|].
      destruct Hsizes as [Hsizes|Hsizes]; [by left|right]. by constructor.
Qed.

End PageFacts.

(** X1 on the sample helpers: a page of three apps, two of them labelled
    [env=prod], read for a page size of one. *)
Lemma listApps_filter_page_witness :
  listApps_filter [] [ {[ "env" := "prod" ]} ] 1 0 [Scenario.a2; Scenario.a3; Scenario.a4]
    = [ConvertApp Scenario.a3]
  ∧ Z.of_nat (length (listApps_filter [] [ {[ "env" := "prod" ]} ] 1 0
                        [Scenario.a2; Scenario.a3; Scenario.a4])) ≤ 1.
Proof.
  refine (listApps_filter_page (utils := Sample.utils) [] [ {[ "env" := "prod" ]} ] 1
            [Scenario.a2; Scenario.a3; Scenario.a4] _).
  reflexivity.
Defined.

(** ** The handlers from the subscription to the return *)

Section HandlerFacts.
Context {bus : EventBus} {utils : Utils} {Raw : Type} {json : Json Raw} {repos : Repos Raw}.

Lemma open_after_closing (subs : list Subscriber) (s : Subscriber) :
  ∀ b : bool,
    open_after (CallClose <$> subs) s b = if decide (s ∈ subs) then false else b.
Proof.
  induction subs as [|s' subs IH]; intros b.
  - rewrite decide_False; [done | apply not_elem_of_nil].
  - rewrite fmap_cons. cbn [open_after]. rewrite IH.
    destruct (decide (s' = s)) as [->|Hne].
    + rewrite (decide_True (P := s ∈ s :: subs)) by (apply elem_of_cons; by left).
      by case_decide.
    + destruct (decide (s ∈ subs)) as [Hin|Hin].
      * by rewrite decide_True by (apply elem_of_cons; by right).
      * rewrite decide_False; [done|]. apply not_elem_of_cons. split; [congruence|done].
Qed.

(** Whatever came before, the subscribers of a handle are closed once
    the calls of its [Close] are recorded. *)
Lemma open_after_Close (w : World) (sub : EventListener) (b : bool) :
  Forall (λ s, open_after (trace (log (CallClose <$> EventListener_subs sub) w)) s b = false)
    (EventListener_subs sub).
Proof.
  apply Forall_forall. intros s Hs. unfold log. cbn [trace].
  rewrite open_after_app, open_after_closing. by rewrite decide_True.
Qed.

Lemma quiet_sends (rs : list Response) :
  forallb (λ c : Call, negb (is_close c)) (CallSend <$> rs) = true.
Proof. by induction rs. Qed.

Lemma quiet_queries (qs : list Query) :
  forallb (λ c : Call, negb (is_close c)) (CallQuery <$> qs) = true.
Proof. by induction qs. Qed.

(** The subscribers of a handle just made are open after queries and
    sends. *)
Lemma open_after_streaming (appIDs objectTypes objectIDs : list string) (w : World)
    (sub : EventListener) (qs : list Query) (rs : list Response) (b : bool) :
  result (subscribeEvents appIDs objectTypes objectIDs) w = inr sub →
  Forall (λ s, open_after
                 (trace (log (CallSend <$> rs)
                           (log (CallQuery <$> qs)
                              (subscribeEvents appIDs objectTypes objectIDs w).2))) s b
               = true) (EventListener_subs sub).
Proof.
  intros Hsub. rewrite log_log. unfold log. cbn [trace].
  apply open_after_made; [done|].
  by rewrite forallb_app, quiet_queries, quiet_sends.
Qed.

(** X3.  A [StreamApps] request with neither stream flag set never
    touches the event bus: the listener is left as it was, the calls are
    the page queries of [listApps] and, when [listApps] returns a page,
    the one message that carries it with [page_complete]; the live events
    and the channel play no part. *)
Theorem StreamApps_unary (fuel : nat) (req : StreamRequest) (live : list (Event Raw))
    (closed : bool) (w : World) :
  unary req = true →
  ∃ qs : list Query,
    eventListener (StreamApps fuel req live closed w).2 = eventListener w
    ∧ calls (StreamApps fuel req live closed) w =
        trace w ++ (CallQuery <$> qs)
          ++ match result (listApps fuel req) w with
             | Ret (inr (apps, nextPageToken)) =>
                 [CallSend (StreamAppsResponse apps (PageToken_String nextPageToken) true)]
             | _ => []
             end
    ∧ result (StreamApps fuel req live closed) w =
        Ended match result (listApps fuel req) w with
              | Ret (inr _) => Ret None
              | Ret (inl err) => Ret (Some err)
              | Panic => Panic
              | NoFuel => NoFuel
              end.
Proof.
  intros Hunary. destruct (listApps_state fuel req w) as (qs & Hstate). exists qs.
  unfold calls, result, StreamApps, mbind, M_bind. rewrite Hunary.
  destruct (listApps fuel req w) as [r w1]. cbn [fst snd] in *. subst w1.
  destruct r as [[err|[apps nextPageToken]]| |]; unfold call, mret, M_ret; cbn [fst snd];
    unfold log; cbn [trace eventListener];
    rewrite ?app_nil_r, <- ?app_assoc; done.
Qed.

(** X4.  A streaming [StreamApps] whose subscription succeeds and whose
    [listApps] returns a page sends that page first, with
    [page_complete], then one message of one app for each live event its
    loop keeps.  While the channel of its handle is open it is then
    blocked in its live loop, its subscribers open; were the channel
    closed, it would return no error and close every subscriber of its
    handle. *)
Theorem StreamApps_streams (fuel : nat) (req : StreamRequest) (live : list (Event Raw))
    (closed : bool) (w : World) (sub : EventListener) (apps : list App)
    (nextPageToken : option PageToken) :
  let subscribe :=
    subscribeEvents (ParseAppIDsFromNameFilters (NameFilters req))
      [EventTypeApp; EventTypeAppDeletion; EventTypeAppRelease] [] in
  let run := StreamApps fuel req live closed in
  unary req = false →
  result subscribe w = inr sub →
  result (listApps fuel req) (subscribe w).2 = Ret (inr (apps, nextPageToken)) →
  result run w = (if closed then Ended (Ret None) else Blocked)
  ∧ sent (calls run w) =
      sent (trace w)
        ++ StreamAppsResponse apps (PageToken_String nextPageToken) true
           :: ((λ '(_, app), StreamAppsResponse [app] "" false) <$> StreamApps_live req live)
  ∧ (if closed
     then Forall (λ s, open_after (calls run w) s true = false) (EventListener_subs sub)
     else Forall (λ s, open_after (calls run w) s false = true) (EventListener_subs sub)).
Proof.
  intros subscribe run Hunary Hsub Hpage. subst subscribe run.
  pose proof (subscribeEvents_Err _ _ _ _ _ Hsub) as Herr.
  pose proof (subscribeEvents_sent (ParseAppIDsFromNameFilters (NameFilters req))
                [EventTypeApp; EventTypeAppDeletion; EventTypeAppRelease] [] w) as Hsent.
  pose proof (λ qs rs b, open_after_streaming _ _ _ w sub qs rs b Hsub) as Hopen.
  unfold calls, result in *. unfold StreamApps, mbind, M_bind. rewrite Hunary.
  destruct (subscribeEvents _ _ _ w) as [r w1]. cbn [fst snd] in *. subst r.
  rewrite deferred_Close_run. unfold mbind, M_bind.
  destruct (listApps_state fuel req w1) as (qs & Hstate).
  destruct (listApps fuel req w1) as [r w2]. cbn [fst snd] in *. subst r w2.
  unfold call, sends, receive_end, mret, M_ret. rewrite Herr.
  destruct closed; cbn [fst snd].
  - split_and!; [done| |apply open_after_Close].
    rewrite !sent_log, sent_queries, sent_closes, sent_sends, Hsent, !app_nil_r.
    by rewrite <- app_assoc.
  - split_and!; [done| |].
    + rewrite !sent_log, sent_queries, sent_sends, Hsent, !app_nil_r.
      by rewrite <- app_assoc.
    + rewrite log_log. cbn [app]. rewrite <- fmap_cons. apply Hopen.
Qed.

(** X5.  [StreamScales] subscribes before it looks at the stream flags.
    When its token parses, its subscription succeeds and the repo lists
    the scale requests, it sends the page first, with [page_complete],
    then, unless neither stream flag is set, one message for each live
    event its loop keeps.  A request with neither flag then returns no
    error and closes every subscriber of its handle.  A streaming
    request is then blocked in its live loop, its subscribers open,
    while the channel of its handle is open; were the channel closed, it
    would return no error and close its subscribers. *)
Theorem StreamScales_run (req : StreamRequest) (live : list (Event Raw)) (closed : bool)
    (w : World) (tok : PageToken) (sub : EventListener) (scales : list ct_ScaleRequest)
    (nextPageToken : option PageToken) :
  let subscribe :=
    subscribeEvents (StreamScales_subscription req).1 [EventTypeScaleRequest]
      (StreamScales_subscription req).2 in
  let run := StreamScales req live closed in
  let page :=
    StreamScalesResponse (ConvertScaleRequest <$> scales)
      (PageToken_String nextPageToken) true in
  let tail :=
    if unary req then []
    else (λ '(_, scale), StreamScalesResponse [scale] "" false)
           <$> StreamScales_live req live in
  let ends := unary req || closed in
  ParsePageToken (PageToken_ req) = inr tok →
  result subscribe w = inr sub →
  formationRepo_ListScaleRequests (StreamScales_options req tok) = inr (scales, nextPageToken) →
  result run w = (if ends then Ended (Ret None) else Blocked)
  ∧ calls run w =
      calls subscribe w
        ++ [CallQuery (formationRepo_ListScaleRequests_query (StreamScales_options req tok))]
        ++ (CallSend <$> page :: tail)
        ++ (if ends then CallClose <$> EventListener_subs sub else [])
  ∧ sent (calls run w) = sent (trace w) ++ page :: tail
  ∧ (if ends
     then Forall (λ s, open_after (calls run w) s true = false) (EventListener_subs sub)
     else Forall (λ s, open_after (calls run w) s false = true) (EventListener_subs sub)).
Proof.
  intros subscribe run page tail ends Hparse Hsub Hlist. subst subscribe run.
  pose proof (subscribeEvents_Err _ _ _ _ _ Hsub) as Herr.
  pose proof (subscribeEvents_sent (StreamScales_subscription req).1
                [EventTypeScaleRequest] (StreamScales_subscription req).2 w) as Hsent.
  pose proof (λ qs rs b, open_after_streaming _ _ _ w sub qs rs b Hsub) as Hopen.
  set (w1 := (subscribeEvents (StreamScales_subscription req).1 [EventTypeScaleRequest]
                (StreamScales_subscription req).2 w).2) in *.
  set (body := log ([CallQuery (formationRepo_ListScaleRequests_query
                                  (StreamScales_options req tok))]
                      ++ (CallSend <$> page :: tail)) w1).
  assert (Hrun : StreamScales req live closed w =
            if ends
            then (Ended (Ret None), log (CallClose <$> EventListener_subs sub) body)
            else (Blocked, body)).
  { unfold StreamScales, mbind, M_bind. rewrite Hparse. unfold result in Hsub.
    subst body w1.
    destruct (StreamScales_subscription req) as [streamAppIDs streamScaleIDs].
    cbn [fst snd] in *.
    destruct (subscribeEvents streamAppIDs [EventTypeScaleRequest] streamScaleIDs w)
      as [r w1].
    cbn [fst snd] in *. subst r.
    rewrite deferred_Close_run.
    unfold call, sends, receive_end, mret, M_ret. rewrite Hlist. fold page.
    subst tail ends. destruct (unary req), closed; cbn [fst snd orb];
      rewrite ?Herr, !log_log; done. }
  unfold calls, result. rewrite Hrun.
  assert (Hbody : sent (trace body) = sent (trace w) ++ page :: tail).
  { unfold body. rewrite sent_log, sent_app, (sent_sends (page :: tail)), Hsent.
    by cbn. }
  destruct ends; cbn [fst snd].
  - split_and!; [done| | |apply open_after_Close].
    + unfold body, log. cbn [trace]. by rewrite <- !app_assoc.
    + by rewrite sent_log, sent_closes, app_nil_r.
  - split_and!; [done| |done|].
    + unfold body, log. cbn [trace]. by rewrite app_nil_r.
    + unfold body. rewrite <- log_log.
      change [CallQuery ?q] with (CallQuery <$> [q]). apply Hopen.
Qed.

(** X6.  [StreamReleases] subscribes before it looks at the stream
    flags.  When its token parses, its subscription succeeds, the repo
    lists the events and the page can be built, it sends the page first,
    with [page_complete], then, unless neither stream flag is set, one
    message for each live event above the watermark of the page that
    [maybeAcceptRelease] accepts.  A request with neither flag then
    returns no error and closes every subscriber of its handle.  A
    streaming request is then blocked in its live loop, its subscribers
    open, while the channel of its handle is open; were the channel
    closed, it would return no error and close its subscribers.  When
    building the page panics, nothing is sent and the deferred [Close]
    closes the subscribers. *)
Theorem StreamReleases_run (req : StreamRequest) (live : list (Event Raw)) (closed : bool)
    (w : World) (tok : PageToken) (sub : EventListener) (events : list (Event Raw)) :
  let subscribe := subscribeEvents (StreamReleases_eventAppIDs req) [EventTypeRelease] [] in
  let run := StreamReleases req live closed in
  let appIDs : gset string := list_to_set (ParseAppIDsFromNameFilters (NameFilters req)) in
  let releaseIDs : gset string :=
    list_to_set (ParseReleaseIDsFromNameFilters (NameFilters req)) in
  let pageSize := (page_setup (PageSize req) tok).1 in
  let pageToken := (page_setup (PageSize req) tok).2 in
  let ends := unary req || closed in
  ParsePageToken (PageToken_ req) = inr tok →
  result subscribe w = inr sub →
  eventRepo_LegacyListEvents (StreamReleases_eventAppIDs req) [EventTypeRelease]
    (BeforeIDInt64 pageToken) (StreamReleases_count pageSize) = inr events →
  match StreamReleases_snapshot req releaseIDs appIDs pageSize pageToken events with
  | Ret (currID, releases, nextPageToken) =>
      let page := StreamReleasesResponse releases (PageToken_String nextPageToken) true in
      let tail :=
        if unary req then []
        else (λ '(_, release), StreamReleasesResponse [release] "" false)
               <$> run_live (StreamReleases_step req releaseIDs appIDs) currID live in
      result run w = (if ends then Ended (Ret None) else Blocked)
      ∧ sent (calls run w) = sent (trace w) ++ page :: tail
      ∧ (if ends
         then Forall (λ s, open_after (calls run w) s true = false) (EventListener_subs sub)
         else Forall (λ s, open_after (calls run w) s false = true) (EventListener_subs sub))
  | Panic =>
      result run w = Ended Panic
      ∧ sent (calls run w) = sent (trace w)
      ∧ Forall (λ s, open_after (calls run w) s true = false) (EventListener_subs sub)
  | NoFuel => False
  end.
Proof.
  intros subscribe run appIDs releaseIDs pageSize pageToken ends Hparse Hsub Hlist.
  subst subscribe run pageSize pageToken.
  pose proof (subscribeEvents_Err _ _ _ _ _ Hsub) as Herr.
  pose proof (subscribeEvents_sent (StreamReleases_eventAppIDs req)
                [EventTypeRelease] [] w) as Hsent.
  pose proof (λ qs rs b, open_after_streaming _ _ _ w sub qs rs b Hsub) as Hopen.
  unfold calls, result in *. unfold StreamReleases, mbind, M_bind. rewrite Hparse.
  destruct (page_setup (PageSize req) tok) as [pageSize pageToken]. cbn [fst snd] in *.
  fold appIDs releaseIDs.
  destruct (subscribeEvents (StreamReleases_eventAppIDs req) [EventTypeRelease] [] w)
    as [r w1].
  cbn [fst snd] in *. subst r.
  rewrite deferred_Close_run.
  unfold call, sends, receive_end, mret, M_ret. rewrite Hlist.
  destruct (StreamReleases_snapshot req releaseIDs appIDs pageSize pageToken events)
    as [[[currID releases] nextPageToken]| |] eqn:Hsnapshot.
  - subst ends. destruct (unary req), closed; cbn [fst snd orb]; rewrite ?Herr;
      (split_and!; [done| |]);
      rewrite ?sent_log, ?sent_sends, ?sent_closes, ?Hsent, ?app_nil_r, <- ?app_assoc;
      try done; try apply open_after_Close.
    rewrite log_log. cbn [app]. rewrite <- fmap_cons.
    change (log [CallQuery ?q] w1) with (log (CallQuery <$> [q]) w1). apply Hopen.
  - cbn [fst snd]. split_and!; [done| |apply open_after_Close].
    rewrite !sent_log, sent_closes, Hsent, !app_nil_r. done.
  - exfalso. unfold StreamReleases_snapshot in Hsnapshot.
    destruct (_ && _); [destruct (take _ events)|]; try discriminate Hsnapshot;
      by destruct (StreamReleases_fill _ _ _ _ _ _).
Qed.

(** X7.  [StreamDeployments] subscribes only when a stream flag is set,
    and after it has sent the page.  When its token parses and the repo
    lists the deployments, a request with neither flag makes no call on
    the bus, sends the page and returns no error.  A streaming request
    sends the page and then subscribes: if the subscription fails it
    returns that error, the page being the one message sent; otherwise
    it sends one message for each live event its loop keeps and is then
    blocked in its live loop, its subscribers open, while the channel of
    its handle is open; were the channel closed, it would return no
    error and close its subscribers. *)
Theorem StreamDeployments_run (req : StreamRequest)
    (live : list (Event Raw * (error + ct_ExpandedDeployment))) (closed : bool) (w : World)
    (tok : PageToken) (page : list ct_ExpandedDeployment)
    (nextPageToken : option PageToken) :
  let query := CallQuery (deploymentRepo_ListPage_query (listDeployments_options req tok)) in
  let first :=
    StreamDeploymentsResponse
      (listDeployments_filter req (ConvertExpandedDeployment <$> page))
      (PageToken_String nextPageToken) true in
  let subscribe :=
    subscribeEvents (ParseIDsFromNameFilters (NameFilters req) "apps")
      [EventTypeDeployment] (ParseIDsFromNameFilters (NameFilters req) "deployments") in
  let run := StreamDeployments req live closed in
  ParsePageToken (PageToken_ req) = inr tok →
  deploymentRepo_ListPage (listDeployments_options req tok) = inr (page, nextPageToken) →
  if unary req
  then run w = (Ended (Ret None), log [query; CallSend first] w)
  else
    match result subscribe (log [query; CallSend first] w) with
    | inl err =>
        result run w = Ended (Ret (Some err))
        ∧ sent (calls run w) = sent (trace w) ++ [first]
    | inr sub =>
        result run w = (if closed then Ended (Ret None) else Blocked)
        ∧ sent (calls run w) =
            sent (trace w)
              ++ first :: ((λ '(_, d), StreamDeploymentsResponse [d] "" false)
                             <$> StreamDeployments_live req live)
        ∧ (if closed
           then Forall (λ s, open_after (calls run w) s true = false)
                  (EventListener_subs sub)
           else Forall (λ s, open_after (calls run w) s false = true)
                  (EventListener_subs sub))
    end.
Proof.
  intros query first subscribe run Hparse Hpage. subst subscribe run.
  destruct (unary req) eqn:Hunary.
  - unfold StreamDeployments, listDeployments, mbind, M_bind. rewrite Hparse.
    unfold call, mret, M_ret. rewrite Hpage, Hunary. by rewrite log_log.
  - pose proof (subscribeEvents_sent (ParseIDsFromNameFilters (NameFilters req) "apps")
                  [EventTypeDeployment]
                  (ParseIDsFromNameFilters (NameFilters req) "deployments")
                  (log [query; CallSend first] w)) as Hsent.
    pose proof (subscribeEvents_Err (ParseIDsFromNameFilters (NameFilters req) "apps")
                  [EventTypeDeployment]
                  (ParseIDsFromNameFilters (NameFilters req) "deployments")
                  (log [query; CallSend first] w)) as Herr.
    pose proof (λ sub Hsub rs b,
                  open_after_streaming
                    (ParseIDsFromNameFilters (NameFilters req) "apps")
                    [EventTypeDeployment]
                    (ParseIDsFromNameFilters (NameFilters req) "deployments")
                    (log [query; CallSend first] w) sub [] rs b Hsub) as Hopen.
    assert (Hfirst : sent (trace (log [query; CallSend first] w)) = sent (trace w) ++ [first]).
    { rewrite sent_log. subst query. by cbn. }
    unfold calls, result in *.
    rewrite (StreamDeployments_order req live closed w tok page nextPageToken) by done.
    fold query first. cbn zeta.
    destruct (subscribeEvents _ _ _ (log [query; CallSend first] w)) as [[err|sub] w2];
      cbn [fst snd] in *.
    + by rewrite Hsent.
    + rewrite (Herr sub) by done.
      destruct closed; cbn [fst snd].
      * split_and!; [done| |apply open_after_Close].
        rewrite !sent_log, sent_closes, sent_sends, Hsent, Hfirst, !app_nil_r.
        by rewrite <- app_assoc.
      * split_and!; [done| |].
        -- rewrite sent_log, sent_sends, Hsent, Hfirst. by rewrite <- app_assoc.
        -- specialize (Hopen sub eq_refl). rewrite fmap_nil, log_nil in Hopen.
           apply Hopen.
Qed.

End HandlerFacts.

(** X3 on the sample repos: the first page of apps, without streaming. *)
Lemma StreamApps_unary_witness :
  let repos := Sample.repos Scenario.store in
  let run := StreamApps 5 Cases.list_all [Scenario.app_created 9 Scenario.a5] false in
  ∃ qs : list Query,
    eventListener (run Scenario.w0).2 = None
    ∧ calls run Scenario.w0 =
        (CallQuery <$> qs)
          ++ [CallSend (StreamAppsResponse
                          (ConvertApp <$> [Scenario.a1; Scenario.a2; Scenario.a3; Scenario.a4])
                          "" true)]
    ∧ result run Scenario.w0 = Ended (Ret None).
Proof.
  intros repos run.
  destruct (StreamApps_unary (bus := Sample.bus) (repos := repos) 5 Cases.list_all
              [Scenario.app_created 9 Scenario.a5] false Scenario.w0)
    as (qs & H1 & H2 & H3);
    [reflexivity|].
  exists qs. split_and!; [exact H1 | exact H2 | exact H3].
Defined.

(** X4 on the sample repos, the channel open: the first page, then the
    creation of [a5]. *)
Lemma StreamApps_streams_witness :
  let repos := Sample.repos Scenario.store in
  let run := StreamApps 5 Scenario.watch_apps [Scenario.app_created 9 Scenario.a5] false in
  result run Scenario.w0 = Blocked
  ∧ sent (calls run Scenario.w0) =
      [StreamAppsResponse
         (ConvertApp <$> [Scenario.a1; Scenario.a2; Scenario.a3; Scenario.a4]) "" true;
       StreamAppsResponse [ConvertApp Scenario.a5] "" false]
  ∧ Forall (λ s, open_after (calls run Scenario.w0) s false = true) [0%nat].
Proof.
  intros repos run.
  refine (StreamApps_streams (bus := Sample.bus) (repos := repos) 5 Scenario.watch_apps
            [Scenario.app_created 9 Scenario.a5] false Scenario.w0 Cases.first_handle
            (ConvertApp <$> [Scenario.a1; Scenario.a2; Scenario.a3; Scenario.a4]) None
            _ _ _);
    vm_compute; reflexivity.
Defined.

(** X5 on the sample repos, the channel open: one stored scale request,
    then an update that arrives while streaming. *)
Lemma StreamScales_run_witness :
  let repos := Sample.repos Cases.busy_store in
  let run :=
    StreamScales Scenario.watch_all [Scenario.scale_event 7 ScaleRequestStatePending]
      false in
  result run Scenario.w0 = Blocked
  ∧ sent (calls run Scenario.w0) =
      [StreamScalesResponse
         [ConvertScaleRequest (Cases.stored_scale "s0" ScaleRequestStateComplete)] "" true;
       StreamScalesResponse
         [ConvertScaleRequest (Cases.stored_scale "s1" ScaleRequestStatePending)] "" false]
  ∧ Forall (λ s, open_after (calls run Scenario.w0) s false = true) [0%nat].
Proof.
  intros repos run.
  destruct (StreamScales_run (bus := Sample.bus) (repos := repos) Scenario.watch_all
              [Scenario.scale_event 7 ScaleRequestStatePending] false Scenario.w0
              {| PageToken_BeforeID := None; PageToken_Size := 0 |} Cases.first_handle
              [Cases.stored_scale "s0" ScaleRequestStateComplete] None)
    as (H1 & _ & H3 & H4); [vm_compute; reflexivity..|].
  split_and!; [exact H1 | exact H3 | exact H4].
Defined.

(** X6 on the sample repos, the channel open: a log of three release
    events, then a fourth that arrives while streaming. *)
Lemma StreamReleases_run_witness :
  let repos := Sample.repos Cases.busy_store in
  let run := StreamReleases Scenario.watch_all [Cases.release_event 9 "R3"] false in
  result run Scenario.w0 = Blocked
  ∧ sent (calls run Scenario.w0) =
      [StreamReleasesResponse
         [ConvertRelease {| ct_Release_ID := "R1"; ct_Release_AppID := "A";
                            ct_Release_Meta := ∅ |};
          ConvertRelease {| ct_Release_ID := "R2"; ct_Release_AppID := "A";
                            ct_Release_Meta := ∅ |}] "6:0" true;
       StreamReleasesResponse
         [ConvertRelease {| ct_Release_ID := "R3"; ct_Release_AppID := "A";
                            ct_Release_Meta := ∅ |}] "" false]
  ∧ Forall (λ s, open_after (calls run Scenario.w0) s false = true) [0%nat].
Proof.
  intros repos run.
  refine (StreamReleases_run (bus := Sample.bus) (repos := repos) Scenario.watch_all
            [Cases.release_event 9 "R3"] false Scenario.w0
            {| PageToken_BeforeID := None; PageToken_Size := 0 |} Cases.first_handle
            [Cases.release_event 6 "R1"; Cases.release_event 5 "R2";
             Cases.release_event 4 "R1"] _ _ _);
    vm_compute; reflexivity.
Defined.

(** X7 on the sample repos, the channel open: one stored deployment,
    then an update that arrives while streaming. *)
Lemma StreamDeployments_run_witness :
  let repos := Sample.repos Cases.busy_store in
  let run :=
    StreamDeployments Scenario.watch_all [Scenario.deployment_update 12 "running"] false in
  result run Scenario.w0 = Blocked
  ∧ sent (calls run Scenario.w0) =
      [StreamDeploymentsResponse
         [ConvertExpandedDeployment (Cases.expanded "d0" "code" "complete")] "" true;
       StreamDeploymentsResponse
         [ConvertExpandedDeployment (Cases.expanded "d1" "code" "running")] "" false]
  ∧ Forall (λ s, open_after (calls run Scenario.w0) s false = true) [0%nat].
Proof.
  intros repos run.
  refine (StreamDeployments_run (bus := Sample.bus) (repos := repos) Scenario.watch_all
            [Scenario.deployment_update 12 "running"] false Scenario.w0
            {| PageToken_BeforeID := None; PageToken_Size := 0 |}
            [Cases.expanded "d0" "code" "complete"] None _ _);
    vm_compute; reflexivity.
Defined.

(** ** The snapshot page of StreamReleases *)

Section ReleaseFacts.
Context {bus : EventBus} {utils : Utils} {Raw : Type} {json : Json Raw} {repos : Repos Raw}.

Lemma maybePrependRelease_names (req : StreamRequest) (releaseIDs appIDs : gset string)
    (releases : list Release) (event : Event Raw) :
  NoDup (Release_Name <$> releases) →
  NoDup (Release_Name <$> maybePrependRelease req releaseIDs appIDs releases event)
  ∧ (length (maybePrependRelease req releaseIDs appIDs releases event)
     ≤ S (length releases))%nat.
Proof.
  intros Hnd. unfold maybePrependRelease.
  destruct (maybeAcceptRelease _ _ _ _) as [r| |]; [|split; [done|lia]..].
  split.
  - rewrite fmap_cons. apply NoDup_cons. split.
    + rewrite list_elem_of_fmap. intros (sr & Heq & Hin).
      apply list_elem_of_filter in Hin as [Hne _]. congruence.
    + eapply sublist_NoDup; [exact Hnd|].
      apply fmap_sublist, sublist_filter.
  - cbn [length]. pose proof (length_filter (λ sr, Release_Name sr ≠ Release_Name r) releases).
    lia.
Qed.

(** The page after the loop of lines 837-846: no name twice, no more
    releases than events visited, every release accepted from an event
    visited or there before, and the name of every release accepted on
    the way still there. *)
Lemma StreamReleases_fill_page (req : StreamRequest) (releaseIDs appIDs : gset string)
    (oldest_first : list (Event Raw)) :
  ∀ (currID : Z) (releases : list Release),
    NoDup (Release_Name <$> releases) →
    let page := (StreamReleases_fill req releaseIDs appIDs oldest_first currID releases).2 in
    NoDup (Release_Name <$> page)
    ∧ (length page ≤ length releases + length oldest_first)%nat
    ∧ (∀ r, r ∈ page →
         r ∈ releases
         ∨ ∃ event, event ∈ oldest_first
                    ∧ maybeAcceptRelease req releaseIDs appIDs event = Accepted r)
    ∧ (∀ name, (name ∈ Release_Name <$> releases
                ∨ ∃ event r, event ∈ oldest_first
                             ∧ maybeAcceptRelease req releaseIDs appIDs event = Accepted r
                             ∧ Release_Name r = name) →
               name ∈ Release_Name <$> page).
Proof.
  induction oldest_first as [|event rest IH]; intros currID releases Hnd page.
  - subst page. cbn [StreamReleases_fill snd length]. split_and!; [done|lia|by left|].
    intros name [Hin|(event & r & Hin & _)]; [done|]. by apply elem_of_nil in Hin.
  - subst page. cbn [StreamReleases_fill].
    destruct (maybePrependRelease_names req releaseIDs appIDs releases event Hnd)
      as [Hnd' Hlen'].
    destruct (IH (Event_ID event) _ Hnd') as (IHnd & IHlen & IHsound & IHnames).
    split_and!.
    + done.
    + cbn [length]. lia.
    + intros r Hr. destruct (IHsound r Hr) as [Hin|(e & He & Hacc)].
      * unfold maybePrependRelease in Hin.
        destruct (maybeAcceptRelease req releaseIDs appIDs event) as [r'| |] eqn:Hacc;
          [|by left..].
        apply elem_of_cons in Hin as [->|Hin].
        -- right. exists event. split; [apply elem_of_cons; by left|done].
        -- left. by apply list_elem_of_filter in Hin as [_ Hin].
      * right. exists e. split; [apply elem_of_cons; by right|done].
    + intros name Hname. apply IHnames.
      assert (Hkept : ∀ n, n ∈ Release_Name <$> releases →
                n ∈ Release_Name <$> maybePrependRelease req releaseIDs appIDs releases event).
      { intros n Hn. unfold maybePrependRelease.
        destruct (maybeAcceptRelease req releaseIDs appIDs event) as [r'| |]; [|done..].
        rewrite fmap_cons. apply elem_of_cons.
        destruct (decide (n = Release_Name r')) as [->|Hne]; [by left|right].
        apply list_elem_of_fmap in Hn as (sr & -> & Hsr).
        apply list_elem_of_fmap. exists sr. split; [done|].
        apply list_elem_of_filter. by split. }
      destruct Hname as [Hin|(e & r & He & Hacc & Hr)].
      * left. by apply Hkept.
      * apply elem_of_cons in He as [->|He].
        -- left. unfold maybePrependRelease. rewrite Hacc, fmap_cons, Hr.
           apply elem_of_cons. by left.
        -- right. by exists e, r.
Qed.

(** When the snapshot is built, it is built from the events of the
    page. *)
Lemma StreamReleases_snapshot_fill (req : StreamRequest) (releaseIDs appIDs : gset string)
    (pageSize : Z) (pageToken : PageToken) (events : list (Event Raw))
    (currID : Z) (releases : list Release) (nextPageToken : option PageToken) :
  StreamReleases_snapshot req releaseIDs appIDs pageSize pageToken events
    = Ret (currID, releases, nextPageToken) →
  StreamReleases_fill req releaseIDs appIDs
    (reverse (StreamReleases_page_events pageSize events))
    (default 0 (BeforeIDInt64 pageToken)) [] = (currID, releases).
Proof.
  unfold StreamReleases_snapshot, StreamReleases_page_events.
  destruct (_ && _).
  - destruct (take _ events) as [|e kept]; [done|].
    destruct (StreamReleases_fill _ _ _ _ _ _) as [c rs]. by intros [= -> -> _].
  - destruct (StreamReleases_fill _ _ _ _ _ _) as [c rs]. by intros [= -> -> _].
Qed.

Lemma first_of_each_name_seen (releases : list Release) :
  ∀ (seen : gset string) (name : string),
    first_of_each_name ({[ name ]} ∪ seen) releases =
      filter (λ sr, Release_Name sr ≠ name) (first_of_each_name seen releases).
Proof.
  induction releases as [|r releases IH]; intros seen name; [done|].
  cbn [first_of_each_name].
  destruct (decide (Release_Name r ∈ seen)) as [Hseen|Hseen].
  - rewrite decide_True by set_solver. apply IH.
  - destruct (decide (Release_Name r = name)) as [Hname|Hname].
    + rewrite decide_True by set_solver.
      rewrite filter_cons_False by (by intros Hne).
      rewrite Hname, <- IH. f_equal. set_solver.
    + rewrite decide_False by set_solver.
      rewrite filter_cons_True by done. f_equal.
      rewrite <- IH. f_equal. set_solver.
Qed.

Lemma StreamReleases_fill_snoc (req : StreamRequest) (releaseIDs appIDs : gset string)
    (oldest_first : list (Event Raw)) (event : Event Raw) :
  ∀ (currID : Z) (releases : list Release),
    StreamReleases_fill req releaseIDs appIDs (oldest_first ++ [event]) currID releases =
      (Event_ID event,
       maybePrependRelease req releaseIDs appIDs
         (StreamReleases_fill req releaseIDs appIDs oldest_first currID releases).2 event).
Proof.
  induction oldest_first as [|e oldest_first IH]; intros currID releases; [done|].
  cbn [app StreamReleases_fill]. apply IH.
Qed.

(** The page after the loop of lines 837-846 over the events listed,
    newest first: of the releases accepted, the newest of each name, in
    the order of the events. *)
Lemma StreamReleases_fill_newest (req : StreamRequest) (releaseIDs appIDs : gset string)
    (newest_first : list (Event Raw)) (currID : Z) :
  (StreamReleases_fill req releaseIDs appIDs (reverse newest_first) currID []).2 =
    first_of_each_name ∅ (omap (accepted_release req releaseIDs appIDs) newest_first).
Proof.
  induction newest_first as [|event newest_first IH]; [done|].
  rewrite reverse_cons, StreamReleases_fill_snoc. cbn [snd omap list_omap].
  rewrite IH. unfold maybePrependRelease.
  replace (accepted_release req releaseIDs appIDs event)
    with (match maybeAcceptRelease req releaseIDs appIDs event with
          | Accepted r => Some r
          | Rejected | DecodeError => None
          end) by done.
  destruct (maybeAcceptRelease req releaseIDs appIDs event) as [r| |]; [|done..].
  cbn [first_of_each_name]. rewrite decide_False by set_solver.
  by rewrite first_of_each_name_seen.
Qed.

(** X8.  The snapshot page of [StreamReleases] is made of the releases
    that [maybeAcceptRelease] accepts from the events of the page, the
    newest event first, each name being listed once, under the newest
    event that was accepted with it: an older state of a release is
    replaced by the newer one, never listed beside it.  So no name is on
    the page twice, every release on it was accepted from an event of
    the page, and the name of every release accepted is on it. *)
Theorem StreamReleases_page_names (req : StreamRequest) (releaseIDs appIDs : gset string)
    (pageSize : Z) (pageToken : PageToken) (events : list (Event Raw))
    (currID : Z) (releases : list Release) (nextPageToken : option PageToken) :
  StreamReleases_snapshot req releaseIDs appIDs pageSize pageToken events
    = Ret (currID, releases, nextPageToken) →
  releases =
    first_of_each_name ∅
      (omap (accepted_release req releaseIDs appIDs)
         (StreamReleases_page_events pageSize events))
  ∧ NoDup (Release_Name <$> releases)
  ∧ (∀ r, r ∈ releases →
       ∃ event, event ∈ StreamReleases_page_events pageSize events
                ∧ maybeAcceptRelease req releaseIDs appIDs event = Accepted r)
  ∧ (∀ event r, event ∈ StreamReleases_page_events pageSize events →
                maybeAcceptRelease req releaseIDs appIDs event = Accepted r →
                Release_Name r ∈ Release_Name <$> releases).
Proof.
  intros Hsnap. apply StreamReleases_snapshot_fill in Hsnap.
  pose proof (StreamReleases_fill_newest req releaseIDs appIDs
                (StreamReleases_page_events pageSize events)
                (default 0 (BeforeIDInt64 pageToken))) as Hnewest.
  destruct (StreamReleases_fill_page req releaseIDs appIDs
              (reverse (StreamReleases_page_events pageSize events))
              (default 0 (BeforeIDInt64 pageToken)) [])
    as (Hnd & _ & Hsound & Hnames); [constructor|].
  rewrite Hsnap in Hnd, Hsound, Hnames, Hnewest. cbn [snd] in *.
  split_and!.
  - done.
  - done.
  - intros r Hr. destruct (Hsound r Hr) as [Hin|(e & He & Hacc)].
    + by apply elem_of_nil in Hin.
    + exists e. by rewrite elem_of_reverse in He.
  - intros e r He Hacc. apply Hnames. right. exists e, r.
    by rewrite elem_of_reverse.
Qed.

(** X9.  The snapshot of [StreamReleases] panics exactly when the page
    size in use is zero and the repo listed a single event: that event
    is cut off as the extra one and [list[0]] is read from the empty
    list. *)
Theorem StreamReleases_snapshot_panics (req : StreamRequest) (releaseIDs appIDs : gset string)
    (pageSize : Z) (pageToken : PageToken) (events : list (Event Raw)) :
  StreamReleases_snapshot req releaseIDs appIDs pageSize pageToken events = Panic
  ↔ pageSize = 0 ∧ length events = 1%nat.
Proof.
  unfold StreamReleases_snapshot.
  destruct events as [|e1 [|e2 events]].
  - cbn [length]. rewrite andb_false_r. cbn [take]. split; [|intros [_ [=]]].
    by destruct (StreamReleases_fill _ _ _ _ _ _).
  - cbn [length]. rewrite andb_true_r.
    destruct (decide (pageSize = 0)) as [->|Hne].
    + rewrite bool_decide_eq_true_2 by done. by cbn.
    + rewrite (bool_decide_eq_false_2 (pageSize = 0)) by done.
      rewrite bool_decide_eq_false_2 by lia. cbn [orb].
      split; [|intros [? _]; done].
      by destruct (StreamReleases_fill _ _ _ _ _ _).
  - split; [|intros [_ [=]]].
    destruct (_ && _).
    + cbn [length Nat.sub take].
      by destruct (StreamReleases_fill _ _ _ _ _ _).
    + by destruct (StreamReleases_fill _ _ _ _ _ _).
Qed.

(** X10.  With a positive page size, and a repo that lists no more
    events than the one more than the page size it was asked for, the
    snapshot of [StreamReleases] does not panic, its page holds at most
    [pageSize] releases, and a next page token is handed out exactly when
    the extra event was listed; the token then names the newest event
    listed and keeps the page size. *)
Theorem StreamReleases_page_bounded (req : StreamRequest) (releaseIDs appIDs : gset string)
    (pageSize : Z) (pageToken : PageToken) (events : list (Event Raw)) :
  0 < pageSize →
  Z.of_nat (length events) ≤ StreamReleases_count pageSize →
  ∃ (currID : Z) (releases : list Release) (nextPageToken : option PageToken),
    StreamReleases_snapshot req releaseIDs appIDs pageSize pageToken events
      = Ret (currID, releases, nextPageToken)
    ∧ Z.of_nat (length releases) ≤ pageSize
    ∧ nextPageToken =
        (if decide (Z.of_nat (length events) = pageSize + 1)
         then (λ event, {| PageToken_BeforeID := Some (pretty (Event_ID event));
                           PageToken_Size := pageSize |}) <$> head events
         else None).
Proof.
  intros Hsize Hcount. unfold StreamReleases_count in Hcount.
  rewrite decide_True in Hcount by lia.
  destruct (StreamReleases_snapshot req releaseIDs appIDs pageSize pageToken events)
    as [[[currID releases] nextPageToken]| |] eqn:Hsnap.
  - exists currID, releases, nextPageToken. split; [done|].
    pose proof (StreamReleases_snapshot_fill _ _ _ _ _ _ _ _ _ Hsnap) as Hfill.
    destruct (StreamReleases_fill_page req releaseIDs appIDs
                (reverse (StreamReleases_page_events pageSize events))
                (default 0 (BeforeIDInt64 pageToken)) [])
      as (_ & Hlen & _); [constructor|].
    rewrite Hfill in Hlen. cbn [snd length] in Hlen.
    rewrite length_reverse in Hlen.
    unfold StreamReleases_snapshot, StreamReleases_page_events in *.
    rewrite (bool_decide_eq_false_2 (pageSize = 0)) in * by lia. cbn [orb] in *.
    destruct (decide (Z.of_nat (length events) = pageSize + 1)) as [Heq|Hne].
    + rewrite bool_decide_eq_true_2 in * by done.
      rewrite bool_decide_eq_true_2 in * by lia. cbn [andb] in *.
      rewrite length_take in Hlen. split; [lia|].
      destruct events as [|e1 [|e2 events]]; [done|cbn [length] in Heq; lia|].
      cbn [length Nat.sub take] in Hsnap.
      destruct (StreamReleases_fill _ _ _ _ _ _). by injection Hsnap as _ _ <-.
    + rewrite bool_decide_eq_false_2 in * by done. cbn [andb] in *.
      split; [lia|].
      destruct (StreamReleases_fill _ _ _ _ _ _). by injection Hsnap as _ _ <-.
  - unfold StreamReleases_snapshot in Hsnap.
    destruct events as [|e1 [|e2 events]].
    + cbn [length] in Hsnap. rewrite andb_false_r in Hsnap.
      by destruct (StreamReleases_fill _ _ _ _ _ _).
    + cbn [length] in Hsnap.
      rewrite (bool_decide_eq_false_2 (pageSize = 0)) in Hsnap by lia.
      rewrite bool_decide_eq_false_2 in Hsnap by lia. cbn [orb andb] in Hsnap.
      by destruct (StreamReleases_fill _ _ _ _ _ _).
    + destruct (_ && _).
      * cbn [length Nat.sub take] in Hsnap.
        by destruct (StreamReleases_fill _ _ _ _ _ _).
      * by destruct (StreamReleases_fill _ _ _ _ _ _).
  - unfold StreamReleases_snapshot in Hsnap.
    destruct (_ && _); [destruct (take _ events)|];
      try done; by destruct (StreamReleases_fill _ _ _ _ _ _).
Qed.

End ReleaseFacts.

(** ** Subscriptions, waits and deployments *)

Section ListenerFacts.
Context {bus : EventBus}.

(** X11.  A successful [subscribeEvents] has made one subscription and
    started one forwarding goroutine per app id, in the order of the app
    ids, and a single wildcard subscription (app id [""]) when it was
    given no app id; the handle it returns has no error, holds exactly
    those subscribers, and every one of them is open. *)
Theorem subscribeEvents_subscribes_each (appIDs objectTypes objectIDs : list string)
    (w : World) (sub : EventListener) :
  let run := subscribeEvents appIDs objectTypes objectIDs in
  let wanted := match appIDs with [] => [""] | _ => appIDs end in
  result run w = inr sub →
  EventListener_Err sub = None
  ∧ length (EventListener_subs sub) = length wanted
  ∧ calls run w =
      trace w ++ subscribed objectTypes objectIDs (zip wanted (EventListener_subs sub))
  ∧ Forall (λ s, open_after (calls run w) s false = true) (EventListener_subs sub).
Proof.
  intros run wanted Hrun. subst run.
  unfold result, calls, subscribeEvents, mbind, M_bind in *.
  pose proof (maybeStartEventListener_trace w) as Htr.
  destruct (maybeStartEventListener w) as [[l e] w1]. simpl in Htr.
  destruct e as [err|]; [done|].
  assert (Hwanted : (if decide (length appIDs = 0%nat) then [""] else appIDs) = wanted).
  { subst wanted. by destruct appIDs. }
  rewrite Hwanted in *.
  destruct (subscribeEach l objectTypes objectIDs wanted [] (trace w1))
    as [[l1 tr1] [err|subs]] eqn:Heach; [done|].
  simpl in Hrun. injection Hrun as <-. simpl.
  apply subscribeEach_ok in Heach as (new & Hsubs & Hlen & ->).
  simpl in Hsubs. subst subs.
  rewrite Htr. split_and!; [done..|].
  apply Forall_forall. intros s Hs.
  rewrite open_after_app, open_after_subscribed.
  rewrite snd_zip by lia. by rewrite bool_decide_eq_true_2.
Qed.

(** X12.  When no listener is in place, or the one in place is closed,
    and the new listener fails to start, [subscribeEvents] returns the
    error of [Listen] without asking for any subscription, and the
    listener that failed to start is the one kept in the config. *)
Theorem subscribeEvents_listen_failure (appIDs objectTypes objectIDs : list string)
    (w : World) (l : DataListener) (err : error) :
  match eventListener w with Some l0 => IsClosed l0 = true | None => True end →
  Listen NewEventListener = (l, Some err) →
  subscribeEvents appIDs objectTypes objectIDs w =
    (inl err, {| eventListener := Some l; trace := trace w |}).
Proof.
  intros Hclosed Hlisten. unfold subscribeEvents, mbind, M_bind, maybeStartEventListener.
  destruct (eventListener w) as [l0|]; [rewrite Hclosed|]; simpl; by rewrite Hlisten.
Qed.

(** What a reading of the trace that skips the subscriptions sees of
    [subscribeEvents]: nothing. *)
Lemma subscribeEvents_unseen {A : Type} (f : Call → option A)
    (appIDs objectTypes objectIDs : list string) (w : World) :
  (∀ appID objectTypes objectIDs r, f (CallSubscribe appID objectTypes objectIDs r) = None) →
  (∀ s, f (CallGo s) = None) →
  omap f (trace (subscribeEvents appIDs objectTypes objectIDs w).2) = omap f (trace w).
Proof.
  intros Hsubscribe Hgo.
  assert (Heach : ∀ appIDs l subs tr,
            omap f (subscribeEach l objectTypes objectIDs appIDs subs tr).1.2 = omap f tr).
  { clear appIDs. induction appIDs as [|a appIDs IH]; intros l subs tr; [done|]. simpl.
    destruct (Subscribe l a objectTypes objectIDs) as [l' [e|s]]; simpl.
    - rewrite omap_app. simpl. by rewrite Hsubscribe, app_nil_r.
    - rewrite IH, omap_app. simpl. by rewrite Hsubscribe, Hgo, app_nil_r. }
  unfold subscribeEvents, mbind, M_bind.
  pose proof (maybeStartEventListener_trace w) as Htr.
  destruct (maybeStartEventListener w) as [[l [e|]] w1]; simpl in *; [by rewrite Htr|].
  pose proof (Heach (if decide (length appIDs = 0%nat) then [""] else appIDs) l []
                (trace w1)) as Hsame.
  destruct (subscribeEach _ _ _ _ _ _) as [[l' tr] [e|subs]]; simpl in *;
    by rewrite Hsame, Htr.
Qed.

Lemma scale_requests_added_app (tr1 tr2 : list Call) :
  scale_requests_added (tr1 ++ tr2) = scale_requests_added tr1 ++ scale_requests_added tr2.
Proof. apply omap_app. Qed.

Lemma scale_requests_added_closes (subs : list Subscriber) :
  scale_requests_added (CallClose <$> subs) = [].
Proof. by induction subs. Qed.

Lemma scale_requests_added_sends (rs : list Response) :
  scale_requests_added (CallSend <$> rs) = [].
Proof. by induction rs. Qed.

End ListenerFacts.

Section RequestFacts.
Context {bus : EventBus} {utils : Utils} {Raw : Type} {json : Json Raw}.

(** X13.  When the subscription is made but the repo refuses the scale
    request, [createScale] returns the error of the repo as it is, waits
    for no event, and closes every subscriber of its handle. *)
Theorem createScale_insert_failure (req : CreateScaleRequest) (env : ScaleEnv Raw)
    (w : World) (sub : EventListener) (err : error) :
  let subscribe :=
    subscribeEvents [ParseIDFromName (CreateScaleRequest_Parent req) "apps"]
      [EventTypeScaleRequest] [] in
  result subscribe w = inr sub →
  ScaleEnv_AddScaleRequest env (pending_request req) = inl err →
  result (createScale req env) w = inl err
  ∧ calls (createScale req env) w =
      calls subscribe w ++ [CallAddScaleRequest (pending_request req)]
        ++ (CallClose <$> EventListener_subs sub)
  ∧ Forall (λ s, open_after (calls (createScale req env) w) s true = false)
      (EventListener_subs sub).
Proof.
  intros subscribe Hsub Hadd. subst subscribe.
  unfold calls, result in *. rewrite createScale_run.
  destruct (subscribeEvents _ _ _ w) as [r w1]. cbn [fst snd] in *. subst r.
  cbn [fst snd]. rewrite Hadd. split_and!; [done..|].
  rewrite <- log_log. apply open_after_Close.
Qed.

(** The scale requests [createScale] hands to the repo: the pending
    request, once the subscription is made. *)
Lemma createScale_added (req : CreateScaleRequest) (env : ScaleEnv Raw) (w : World) :
  scale_requests_added (trace (createScale req env w).2) =
    scale_requests_added (trace w)
      ++ match result (subscribeEvents
                         [ParseIDFromName (CreateScaleRequest_Parent req) "apps"]
                         [EventTypeScaleRequest] []) w with
         | inl _ => []
         | inr _ => [pending_request req]
         end.
Proof.
  rewrite createScale_run. unfold result.
  pose proof (subscribeEvents_unseen
                (λ c, match c with CallAddScaleRequest scaleReq => Some scaleReq
                              | _ => None end)
                [ParseIDFromName (CreateScaleRequest_Parent req) "apps"]
                [EventTypeScaleRequest] [] w) as Hsame.
  fold (scale_requests_added (trace w)) in Hsame.
  destruct (subscribeEvents _ _ _ w) as [[err|sub] w1]; cbn [fst snd] in *.
  - rewrite app_nil_r. by apply Hsame.
  - unfold log. cbn [trace]. rewrite !scale_requests_added_app, scale_requests_added_closes.
    rewrite app_nil_r. f_equal. by apply Hsame.
Qed.

(** The scale requests the loop of [CreateDeployment] hands to the repo:
    at most one, and none without a scale request in the request. *)
Lemma CreateDeployment_loop_added (req : CreateDeploymentRequest) (sub : EventListener)
    (scale : ScaleEnv Raw) (events : list (Event Raw * (error + ct_Deployment))) :
  ∀ w : World,
    ∃ added : list ct_ScaleRequest,
      scale_requests_added (trace (CreateDeployment_loop req sub scale events w).2) =
        scale_requests_added (trace w) ++ added
      ∧ (length added ≤ 1)%nat
      ∧ match CreateDeploymentRequest_ScaleRequest req with
        | None => added = []
        | Some sr =>
            Forall (λ scaleReq,
                      ct_ScaleRequest_State scaleReq = ScaleRequestStatePending
                      ∧ ct_ScaleRequest_NewProcesses scaleReq
                        = Some (CreateScaleRequest_Processes sr)
                      ∧ ct_ScaleRequest_NewTags scaleReq
                        = Some (CreateScaleRequest_Tags sr)) added
        end.
Proof.
  assert (Hnone : ∀ w : World, ∃ added : list ct_ScaleRequest,
            scale_requests_added (trace w) = scale_requests_added (trace w) ++ added
            ∧ (length added ≤ 1)%nat
            ∧ match CreateDeploymentRequest_ScaleRequest req with
              | None => added = []
              | Some sr =>
                  Forall (λ scaleReq,
                            ct_ScaleRequest_State scaleReq = ScaleRequestStatePending
                            ∧ ct_ScaleRequest_NewProcesses scaleReq
                              = Some (CreateScaleRequest_Processes sr)
                            ∧ ct_ScaleRequest_NewTags scaleReq
                              = Some (CreateScaleRequest_Tags sr)) added
              end).
  { intros w. exists []. rewrite app_nil_r. split_and!; [done|simpl; lia|].
    by destruct (CreateDeploymentRequest_ScaleRequest req). }
  induction events as [|[ctEvent get] events IH]; intros w.
  - apply Hnone.
  - cbn [CreateDeployment_loop].
    destruct (decide (Event_ObjectType ctEvent ≠ "deployment")); [apply IH|].
    destruct (Unmarshal_DeploymentEvent (Event_Data ctEvent)) as [de|]; [|apply IH].
    destruct get as [err|d]; [apply IH|].
    unfold mbind, M_bind, call, mret, M_ret.
    destruct (decide (ct_Deployment_Status d = "complete")) as [Hc|Hc].
    + rewrite decide_False by (rewrite Hc; discriminate).
      destruct (CreateDeploymentRequest_ScaleRequest req) as [sr|] eqn:Hsr.
      * fold (embedded_scale d sr).
        pose proof (createScale_added (embedded_scale d sr) scale w) as Hadded.
        destruct (createScale (embedded_scale d sr) scale w) as [r w1].
        cbn [fst snd] in *. unfold log. cbn [trace].
        rewrite scale_requests_added_app, Hadded. cbn [scale_requests_added omap list_omap].
        rewrite app_nil_r.
        destruct (result _ w); eexists; (split; [reflexivity|]).
        -- split; [simpl; lia|constructor].
        -- split; [simpl; lia|]. by repeat constructor.
      * cbn [fst snd]. unfold log. cbn [trace].
        rewrite scale_requests_added_app. exists []. by split_and!; [|simpl; lia|].
    + destruct (decide (ct_Deployment_Status d = "failed")).
      * cbn [fst snd]. unfold log. cbn [trace].
        rewrite scale_requests_added_app. exists [].
        split_and!; [done|simpl; lia|].
        by destruct (CreateDeploymentRequest_ScaleRequest req).
      * destruct (IH (log [CallSend (DeploymentEventResponse {|
                        DeploymentEvent_Deployment := ConvertDeployment d;
                        DeploymentEvent_JobType := ct_DeploymentEvent_JobType de;
                        DeploymentEvent_JobState :=
                          ConvertDeploymentEventJobState (ct_DeploymentEvent_JobState de);
                        DeploymentEvent_Error := ct_DeploymentEvent_Error de;
                        DeploymentEvent_CreateTime :=
                          TimestampProto (Event_CreatedAt ctEvent) |})] w))
          as (added & Hadded & Hrest).
        exists added. split; [|done]. rewrite Hadded. unfold log. cbn [trace].
        rewrite scale_requests_added_app. cbn. by rewrite app_nil_r.
Qed.

(** X14.  Whatever the deliveries and the answers of the repos,
    [CreateDeployment] hands the formation repo at most one scale
    request, a pending one with the processes and tags of the scale
    request of its request, and none when its request has no scale
    request. *)
Theorem CreateDeployment_scales_at_most_once (req : CreateDeploymentRequest)
    (env : DeploymentEnv) (w : World) :
  ∃ added : list ct_ScaleRequest,
    scale_requests_added (calls (CreateDeployment req env) w) =
      scale_requests_added (trace w) ++ added
    ∧ (length added ≤ 1)%nat
    ∧ match CreateDeploymentRequest_ScaleRequest req with
      | None => added = []
      | Some sr =>
          Forall (λ scaleReq,
                    ct_ScaleRequest_State scaleReq = ScaleRequestStatePending
                    ∧ ct_ScaleRequest_NewProcesses scaleReq
                      = Some (CreateScaleRequest_Processes sr)
                    ∧ ct_ScaleRequest_NewTags scaleReq
                      = Some (CreateScaleRequest_Tags sr)) added
      end.
Proof.
  assert (Hnone : ∀ tr : list Call, scale_requests_added tr = scale_requests_added (trace w) →
            ∃ added : list ct_ScaleRequest,
              scale_requests_added tr = scale_requests_added (trace w) ++ added
              ∧ (length added ≤ 1)%nat
              ∧ match CreateDeploymentRequest_ScaleRequest req with
                | None => added = []
                | Some sr =>
                    Forall (λ scaleReq,
                              ct_ScaleRequest_State scaleReq = ScaleRequestStatePending
                              ∧ ct_ScaleRequest_NewProcesses scaleReq
                                = Some (CreateScaleRequest_Processes sr)
                              ∧ ct_ScaleRequest_NewTags scaleReq
                                = Some (CreateScaleRequest_Tags sr)) added
                end).
  { intros tr ->. exists []. rewrite app_nil_r. split_and!; [done|simpl; lia|].
    by destruct (CreateDeploymentRequest_ScaleRequest req). }
  unfold calls, CreateDeployment, mbind, M_bind, call, mret, M_ret.
  set (appID := ParseIDFromName (CreateDeploymentRequest_Parent req) "apps").
  set (releaseID := ParseIDFromName (CreateDeploymentRequest_Release req) "releases").
  assert (Hw1 : scale_requests_added (trace (log [CallDeploymentAdd appID releaseID] w))
                = scale_requests_added (trace w)).
  { unfold log. cbn [trace]. rewrite scale_requests_added_app. cbn. by rewrite app_nil_r. }
  destruct (DeploymentEnv_Add env appID releaseID) as [err|d0]; [by apply Hnone|].
  pose proof (subscribeEvents_unseen
                (λ c, match c with CallAddScaleRequest scaleReq => Some scaleReq
                              | _ => None end)
                [appID] [EventTypeDeployment] [ct_Deployment_ID d0]
                (log [CallDeploymentAdd appID releaseID] w)) as Hsame.
  destruct (subscribeEvents _ _ _ _) as [[err|sub] w2]; cbn [fst snd] in *.
  { apply Hnone. unfold scale_requests_added at 1. rewrite Hsame by done. exact Hw1. }
  destruct (CreateDeployment_loop_added req sub (DeploymentEnv_scale env)
              (DeploymentEnv_events env) w2) as (added & Hadded & Hrest).
  destruct (CreateDeployment_loop _ _ _ _ w2) as [res w3]. cbn [fst snd] in *.
  exists added. split; [|done].
  unfold Close, log. cbn [snd trace].
  rewrite scale_requests_added_app, scale_requests_added_closes, app_nil_r, Hadded.
  f_equal. unfold scale_requests_added at 1. rewrite Hsame by done. exact Hw1.
Qed.

(** X15.  When the deployment is added and the subscription is made, and
    the channel is closed before any delivery acted on shows a failed or
    complete deployment, [CreateDeployment] returns no error: it has
    forwarded every delivery it acted on, in order, handed the formation
    repo no scale request, and closed every subscriber of its handle. *)
Theorem CreateDeployment_channel_closed (req : CreateDeploymentRequest) (env : DeploymentEnv)
    (w : World) (d0 : ct_Deployment) (sub : EventListener) :
  let appID := ParseIDFromName (CreateDeploymentRequest_Parent req) "apps" in
  let releaseID := ParseIDFromName (CreateDeploymentRequest_Release req) "releases" in
  let w1 := log [CallDeploymentAdd appID releaseID] w in
  let subscribe :=
    subscribeEvents [appID] [EventTypeDeployment] [ct_Deployment_ID d0] in
  DeploymentEnv_Add env appID releaseID = inr d0 →
  result subscribe w1 = inr sub →
  Forall (λ x, terminal x.2 = false) (omap acted_on (DeploymentEnv_events env)) →
  CreateDeployment req env w =
    (None,
     log ((CallSend ∘ forwarded <$> omap acted_on (DeploymentEnv_events env))
            ++ (CallClose <$> EventListener_subs sub)) (subscribe w1).2)
  ∧ sent (calls (CreateDeployment req env) w) =
      sent (trace w) ++ (forwarded <$> omap acted_on (DeploymentEnv_events env))
  ∧ scale_requests_added (calls (CreateDeployment req env) w) =
      scale_requests_added (trace w)
  ∧ Forall (λ s, open_after (calls (CreateDeployment req env) w) s true = false)
      (EventListener_subs sub).
Proof.
  intros appID releaseID w1 subscribe Hadd Hsub Hpre.
  assert (Herr : EventListener_Err sub = None).
  { subst subscribe. by eapply subscribeEvents_Err. }
  assert (Hrun : CreateDeployment req env w =
            (None,
             log ((CallSend ∘ forwarded <$> omap acted_on (DeploymentEnv_events env))
                    ++ (CallClose <$> EventListener_subs sub)) (subscribe w1).2)).
  { unfold CreateDeployment, mbind, M_bind, call.
    fold appID releaseID w1. rewrite Hadd. fold subscribe. unfold result in Hsub.
    destruct (subscribe w1) as [r w1']. cbn [fst snd] in *. subst r.
    rewrite <- (app_nil_r (DeploymentEnv_events env)) at 1.
    rewrite CreateDeployment_loop_prefix by done.
    cbn [CreateDeployment_loop]. unfold Close, mret, M_ret.
    by rewrite log_log, Herr. }
  pose proof (subscribeEvents_sent [appID] [EventTypeDeployment] [ct_Deployment_ID d0] w1)
    as Hsent.
  pose proof (subscribeEvents_unseen
                (λ c, match c with CallAddScaleRequest scaleReq => Some scaleReq
                              | _ => None end)
                [appID] [EventTypeDeployment] [ct_Deployment_ID d0] w1) as Hsame.
  fold subscribe in Hsent, Hsame.
  unfold calls. rewrite Hrun. cbn [snd]. split_and!.
  - done.
  - rewrite sent_log, sent_app, sent_closes, app_nil_r, Hsent.
    rewrite list_fmap_compose, sent_sends. unfold w1. rewrite sent_log. cbn.
    by rewrite app_nil_r.
  - unfold log at 1. cbn [trace].
    rewrite !scale_requests_added_app, scale_requests_added_closes, app_nil_r.
    rewrite list_fmap_compose, scale_requests_added_sends, app_nil_r.
    unfold scale_requests_added at 1. rewrite Hsame by done.
    unfold w1, log. cbn [trace]. rewrite omap_app. cbn. by rewrite app_nil_r.
  - rewrite <- log_log. apply open_after_Close.
Qed.

End RequestFacts.

(** ** What the client has received, by where a handler stands *)

Section OutcomeFacts.
Context {bus : EventBus} {utils : Utils} {Raw : Type} {json : Json Raw} {repos : Repos Raw}.

Lemma listApps_sent (fuel : nat) (req : StreamRequest) (w : World) :
  sent (trace (listApps fuel req w).2) = sent (trace w).
Proof.
  destruct (listApps_state fuel req w) as (qs & ->).
  by rewrite sent_log, sent_queries, app_nil_r.
Qed.

(** X16.  [StreamApps] returns nil, or waits in its live loop, only
    after it has sent the snapshot page; whenever it ends otherwise (an
    error of the subscription or of the snapshot, a panic) it has sent
    nothing to the client. *)
Theorem StreamApps_page_or_nothing (fuel : nat) (req : StreamRequest)
    (live : list (Event Raw)) (closed : bool) (w : World) :
  match result (StreamApps fuel req live closed) w with
  | Ended (Ret None) | Blocked =>
      ∃ (apps : list App) (token : string) (rest : list Response),
        sent (calls (StreamApps fuel req live closed) w) =
          sent (trace w) ++ StreamAppsResponse apps token true :: rest
  | _ => sent (calls (StreamApps fuel req live closed) w) = sent (trace w)
  end.
Proof.
  unfold result, calls, StreamApps, mbind, M_bind.
  destruct (unary req).
  - pose proof (listApps_sent fuel req w) as Hsent.
    destruct (listApps fuel req w) as [[[err|[apps npt]]| |] w1];
      unfold call, mret, M_ret; cbn [fst snd] in *; try done.
    exists apps, (PageToken_String npt), []. by rewrite sent_log, Hsent.
  - pose proof (subscribeEvents_sent (ParseAppIDsFromNameFilters (NameFilters req))
                  [EventTypeApp; EventTypeAppDeletion; EventTypeAppRelease] [] w) as Hsub.
    pose proof (subscribeEvents_Err (ParseAppIDsFromNameFilters (NameFilters req))
                  [EventTypeApp; EventTypeAppDeletion; EventTypeAppRelease] [] w) as Herr.
    unfold result in Herr.
    destruct (subscribeEvents _ _ _ w) as [[err|sub] w1]; cbn [fst snd] in *; [done|].
    rewrite (Herr sub) by done. rewrite deferred_Close_run. unfold mbind, M_bind.
    pose proof (listApps_sent fuel req w1) as Hsent.
    destruct (listApps fuel req w1) as [[[err|[apps npt]]| |] w2];
      unfold call, sends, receive_end, mret, M_ret; cbn [fst snd] in *;
      rewrite ?sent_log, ?sent_closes, ?app_nil_r, ?Hsent, ?Hsub; try done.
    destruct closed; cbn [fst snd];
      rewrite ?sent_log, ?sent_closes, ?sent_sends, ?app_nil_r, ?Hsent, ?Hsub;
      eexists apps, (PageToken_String npt), _; rewrite <- app_assoc; reflexivity.
Qed.

(** X17.  When [StreamScales] returns an error it has sent nothing to
    the client; when it returns nil, or waits in its live loop, the
    snapshot page is the first message it has sent. *)
Theorem StreamScales_page_or_nothing (req : StreamRequest) (live : list (Event Raw))
    (closed : bool) (w : World) :
  match result (StreamScales req live closed) w with
  | Ended (Ret None) | Blocked =>
      ∃ (scales : list ScaleRequest) (token : string) (rest : list Response),
        sent (calls (StreamScales req live closed) w) =
          sent (trace w) ++ StreamScalesResponse scales token true :: rest
  | Ended (Ret (Some _)) => sent (calls (StreamScales req live closed) w) = sent (trace w)
  | Ended Panic | Ended NoFuel => True
  end.
Proof.
  unfold result, calls, StreamScales, mbind, M_bind.
  destruct (ParsePageToken (PageToken_ req)) as [err|tok]; [done|].
  destruct (StreamScales_subscription req) as [streamAppIDs streamScaleIDs].
  pose proof (subscribeEvents_sent streamAppIDs [EventTypeScaleRequest] streamScaleIDs w)
    as Hsub.
  pose proof (subscribeEvents_Err streamAppIDs [EventTypeScaleRequest] streamScaleIDs w)
    as Herr.
  unfold result in Herr.
  destruct (subscribeEvents _ _ _ w) as [[err|sub] w1]; cbn [fst snd] in *; [done|].
  rewrite (Herr sub) by done. rewrite deferred_Close_run.
  unfold call, sends, receive_end, mret, M_ret.
  destruct (formationRepo_ListScaleRequests _) as [err|[scales npt]]; cbn [fst snd].
  { by rewrite !sent_log, sent_closes, Hsub, !app_nil_r. }
  destruct (unary req), closed; cbn [fst snd];
    rewrite !sent_log, ?sent_closes, ?sent_sends, Hsub, ?app_nil_r;
    eexists _, _, _; rewrite <- ?app_assoc; reflexivity.
Qed.

(** X18.  [StreamReleases] returns nil, or waits in its live loop, only
    after it has sent the snapshot page first; when it returns an error,
    or panics while it builds the page, it has sent nothing to the
    client. *)
Theorem StreamReleases_page_or_nothing (req : StreamRequest) (live : list (Event Raw))
    (closed : bool) (w : World) :
  match result (StreamReleases req live closed) w with
  | Ended (Ret None) | Blocked =>
      ∃ (releases : list Release) (token : string) (rest : list Response),
        sent (calls (StreamReleases req live closed) w) =
          sent (trace w) ++ StreamReleasesResponse releases token true :: rest
  | Ended (Ret (Some _)) | Ended Panic =>
      sent (calls (StreamReleases req live closed) w) = sent (trace w)
  | Ended NoFuel => False
  end.
Proof.
  unfold result, calls, StreamReleases, mbind, M_bind.
  destruct (ParsePageToken (PageToken_ req)) as [err|tok]; [done|].
  destruct (page_setup (PageSize req) tok) as [pageSize pageToken].
  pose proof (subscribeEvents_sent (StreamReleases_eventAppIDs req) [EventTypeRelease] [] w)
    as Hsub.
  pose proof (subscribeEvents_Err (StreamReleases_eventAppIDs req) [EventTypeRelease] [] w)
    as Herr.
  unfold result in Herr.
  destruct (subscribeEvents _ _ _ w) as [[err|sub] w1]; cbn [fst snd] in *; [done|].
  rewrite (Herr sub) by done. rewrite deferred_Close_run.
  unfold call, sends, receive_end, mret, M_ret.
  destruct (eventRepo_LegacyListEvents _ _ _ _) as [err|events]; cbn [fst snd].
  { by rewrite !sent_log, sent_closes, Hsub, !app_nil_r. }
  destruct (StreamReleases_snapshot _ _ _ _ _ _) as [[[currID releases] npt]| |] eqn:Hsnap;
    cbn [fst snd].
  - destruct (unary req), closed; cbn [fst snd];
      rewrite !sent_log, ?sent_closes, ?sent_sends, Hsub, ?app_nil_r;
      eexists _, _, _; rewrite <- ?app_assoc; reflexivity.
  - by rewrite !sent_log, sent_closes, Hsub, !app_nil_r.
  - unfold StreamReleases_snapshot in Hsnap.
    destruct (_ && _); [destruct (take _ events)|];
      try done; by destruct (StreamReleases_fill _ _ _ _ _ _).
Qed.

(** X19.  When [StreamDeployments] returns nil, or waits in its live
    loop, the snapshot page is the first message it has sent.  When it
    returns an error, either nothing was sent (the page token or the
    list query failed), or the request was a streaming one and exactly
    the snapshot page was sent: the subscription, made after the page is
    sent, failed. *)
Theorem StreamDeployments_outcomes (req : StreamRequest)
    (live : list (Event Raw * (error + ct_ExpandedDeployment))) (closed : bool)
    (w : World) :
  match result (StreamDeployments req live closed) w with
  | Ended (Ret None) | Blocked =>
      ∃ (ds : list ExpandedDeployment) (token : string) (rest : list Response),
        sent (calls (StreamDeployments req live closed) w) =
          sent (trace w) ++ StreamDeploymentsResponse ds token true :: rest
  | Ended (Ret (Some _)) =>
      sent (calls (StreamDeployments req live closed) w) = sent (trace w)
      ∨ (unary req = false
         ∧ ∃ (ds : list ExpandedDeployment) (token : string),
             sent (calls (StreamDeployments req live closed) w) =
               sent (trace w) ++ [StreamDeploymentsResponse ds token true])
  | Ended Panic | Ended NoFuel => True
  end.
Proof.
  unfold result, calls, StreamDeployments, listDeployments, mbind, M_bind.
  destruct (ParsePageToken (PageToken_ req)) as [err|tok]; [by left|].
  unfold call, mret, M_ret.
  destruct (deploymentRepo_ListPage _) as [err|[ctds npt]]; cbn [fst snd].
  { left. by rewrite sent_log, app_nil_r. }
  destruct (unary req); cbn [fst snd].
  { eexists _, _, []. rewrite !sent_log. cbn. by rewrite app_nil_r. }
  set (w1 := log [CallSend _] (log [CallQuery _] w)).
  assert (Hw1 : ∃ ds token, sent (trace w1) =
                  sent (trace w) ++ [StreamDeploymentsResponse ds token true]).
  { eexists _, _. unfold w1. rewrite !sent_log. cbn. by rewrite app_nil_r. }
  destruct Hw1 as (ds & token & Hw1).
  pose proof (subscribeEvents_sent (ParseIDsFromNameFilters (NameFilters req) "apps")
                [EventTypeDeployment]
                (ParseIDsFromNameFilters (NameFilters req) "deployments") w1) as Hsub.
  pose proof (subscribeEvents_Err (ParseIDsFromNameFilters (NameFilters req) "apps")
                [EventTypeDeployment]
                (ParseIDsFromNameFilters (NameFilters req) "deployments") w1) as Herr.
  unfold result in Herr.
  destruct (subscribeEvents _ _ _ w1) as [[err|sub] w2]; cbn [fst snd] in *.
  { right. split; [done|]. exists ds, token. by rewrite Hsub. }
  rewrite (Herr sub) by done. rewrite deferred_Close_run.
  unfold sends, receive_end, mret, M_ret.
  destruct closed; cbn [fst snd]; exists ds, token; eexists;
    rewrite !sent_log, ?sent_closes, sent_sends, Hsub, Hw1, ?app_nil_r;
    rewrite <- app_assoc; reflexivity.
Qed.

End OutcomeFacts.

(** ** The handle, the update mask and the first page *)

Lemma Close_Err_fired (st : option error * bool) (subErrs : list (option error)) :
  st.2 = true → Close_Err st subErrs = st.
Proof.
  revert st. induction subErrs as [|subErr subErrs IH]; intros st Hfired; [done|].
  unfold Close_Err in *. cbn [foldl].
  destruct subErr as [err|]; [rewrite Hfired|]; by apply IH.
Qed.

(** X20.  [EventListener.Close] leaves in [Err] the error of the first
    subscriber, in the order of [subs], that has one, and none when no
    subscriber has one; once an error has been kept, neither a later
    subscriber nor a later [Close] replaces it. *)
Theorem Close_Err_first_error (err0 : option error) (subErrs : list (option error)) :
  Close_Err (err0, false) subErrs =
    match head (omap id subErrs) with
    | Some err => (Some err, true)
    | None => (err0, false)
    end
  ∧ Close_Err (err0, true) subErrs = (err0, true).
Proof.
  split; [|by apply Close_Err_fired].
  induction subErrs as [|[err|] subErrs IH]; [done| |].
  - change (Close_Err (err0, false) (Some err :: subErrs))
      with (Close_Err (Some err, true) subErrs).
    by rewrite Close_Err_fired.
  - exact IH.
Qed.

(** X21.  With a mask that has paths, only the set of keys the paths
    name matters to [UpdateApp]: two masks that name the same keys, in
    whatever order and however often, give the same update, and the
    update never holds an entry that the update without a mask does not
    hold. *)
Theorem UpdateApp_mask_is_a_set (app : App) (paths1 paths2 : list string) :
  paths1 ≠ [] →
  paths2 ≠ [] →
  list_to_set (UpdateApp.alias <$> paths1) =@{gset string}
    list_to_set (UpdateApp.alias <$> paths2) →
  UpdateApp.data {| UpdateAppRequest_App := app; UpdateAppRequest_UpdateMask := Some paths1 |}
  = UpdateApp.data {| UpdateAppRequest_App := app;
                      UpdateAppRequest_UpdateMask := Some paths2 |}
  ∧ UpdateApp.data {| UpdateAppRequest_App := app;
                      UpdateAppRequest_UpdateMask := Some paths1 |}
    ⊆ UpdateApp.unmasked app.
Proof.
  intros H1 H2 Hsame. unfold UpdateApp.data.
  cbn [UpdateAppRequest_App UpdateAppRequest_UpdateMask].
  destruct paths1 as [|p1 paths1]; [done|]. destruct paths2 as [|p2 paths2]; [done|].
  rewrite !decide_True by (simpl; lia).
  rewrite !masked_filter. split; [|apply map_filter_subseteq].
  apply map_filter_ext. intros k v _. cbn [fst].
  rewrite <- !(elem_of_list_to_set (C := gset string)). by rewrite Hsame.
Qed.

Section FirstPageFacts.
Context {bus : EventBus} {utils : Utils} {Raw : Type} {json : Json Raw} {repos : Repos Raw}.

(** X22.  When the first page the repo returns is the last one, or holds
    at least a page size of apps that get through the filters,
    [listApps] makes that one query and returns the first [pageSize] of
    those apps, converted and in the order of the repo, with the next
    page token of the repo. *)
Theorem listApps_single_page (fuel : nat) (req : StreamRequest) (w : World)
    (tok : PageToken) (ctApps : list ct_App) (nextPageToken : option PageToken) :
  let pageToken := (page_setup (PageSize req) tok).2 in
  let pageSize := listApps_pageSize req tok ctApps in
  let kept :=
    filter (λ a, listApps_keeps (ParseAppIDsFromNameFilters (NameFilters req))
                   (LabelFilters req) a = true) ctApps in
  ParsePageToken (PageToken_ req) = inr tok →
  appRepo_ListPage pageToken = inr (ctApps, nextPageToken) →
  0 < pageSize →
  nextPageToken = None ∨ pageSize ≤ Z.of_nat (length kept) →
  listApps (S fuel) req w =
    (Ret (inr (ConvertApp <$> take (Z.to_nat pageSize) kept, nextPageToken)),
     log [CallQuery (appRepo_ListPage_query pageToken)] w).
Proof.
  intros pageToken pageSize kept Hparse Hpage Hsize Hlast.
  subst pageToken pageSize kept. unfold listApps_pageSize in *.
  cbn [listApps]. rewrite Hparse.
  destruct (page_setup (PageSize req) tok) as [pageSize pageToken].
  cbn [fst snd] in *. unfold mbind, M_bind, call. rewrite Hpage.
  set (size := if decide (pageSize = 0) then Z.of_nat (length ctApps) else pageSize) in *.
  rewrite decide_False by lia.
  rewrite listApps_filter_take by lia. rewrite Z.sub_0_r, <- fmap_take.
  destruct nextPageToken as [npt|]; [|done].
  destruct Hlast as [|Hfull]; [done|].
  rewrite decide_False; [done|].
  rewrite length_fmap, length_take. lia.
Qed.

(** X23.  When the request sets no page size and the page token parses
    to a negative size, [listApps] queries the repo with that token and,
    if the repo answers with a page, panics: the page is allocated with
    a negative capacity. *)
Theorem listApps_negative_size_panics (fuel : nat) (req : StreamRequest) (w : World)
    (tok : PageToken) (ctApps : list ct_App) (nextPageToken : option PageToken) :
  ParsePageToken (PageToken_ req) = inr tok →
  PageSize req ≤ 0 →
  PageToken_Size tok < 0 →
  appRepo_ListPage tok = inr (ctApps, nextPageToken) →
  listApps (S fuel) req w = (Panic, log [CallQuery (appRepo_ListPage_query tok)] w).
Proof.
  intros Hparse Hreq Hsize Hpage. cbn [listApps]. rewrite Hparse.
  unfold page_setup. rewrite decide_False by lia.
  unfold mbind, M_bind, call. rewrite Hpage.
  rewrite (decide_False (P := PageToken_Size tok = 0)) by lia.
  by rewrite decide_True by lia.
Qed.

End FirstPageFacts.

(** X8 on a sample log: the release [R1] is reported twice, with other
    labels the second time, and listed once, as the newest event has
    it. *)
Lemma StreamReleases_page_names_witness :
  let r1 := {| Release_Name := "apps/A/releases/R1"; Release_Labels := {[ "v" := "2" ]} |} in
  let r2 := {| Release_Name := "apps/A/releases/R2"; Release_Labels := ∅ |} in
  let events := Cases.relabelled_log in
  [r1; r2] =
    first_of_each_name ∅
      (omap (accepted_release Cases.list_all ∅ ∅) (StreamReleases_page_events 5 events))
  ∧ NoDup (Release_Name <$> [r1; r2])
  ∧ (∀ r, r ∈ [r1; r2] →
       ∃ event, event ∈ StreamReleases_page_events 5 events
                ∧ maybeAcceptRelease Cases.list_all ∅ ∅ event = Accepted r)
  ∧ (∀ event r, event ∈ StreamReleases_page_events 5 events →
                maybeAcceptRelease Cases.list_all ∅ ∅ event = Accepted r →
                Release_Name r ∈ Release_Name <$> [r1; r2]).
Proof.
  intros r1 r2 events.
  refine (StreamReleases_page_names (repos := Sample.repos Cases.busy_store)
            Cases.list_all ∅ ∅ 5 {| PageToken_BeforeID := None; PageToken_Size := 5 |}
            events 6 [r1; r2] None _).
  vm_compute; reflexivity.
Defined.

(** X9 on the sample log of a single event. *)
Lemma StreamReleases_snapshot_panics_witness :
  StreamReleases_snapshot (repos := Sample.repos Cases.lone_store) Cases.list_all ∅ ∅ 0
    {| PageToken_BeforeID := None; PageToken_Size := 0 |}
    (Sample.store_events Cases.lone_store) = Panic.
Proof.
  apply (StreamReleases_snapshot_panics (repos := Sample.repos Cases.lone_store)).
  split; reflexivity.
Defined.

(** X10 on the sample log: pages of two, three events listed. *)
Lemma StreamReleases_page_bounded_witness :
  ∃ (currID : Z) (releases : list Release) (nextPageToken : option PageToken),
    StreamReleases_snapshot (repos := Sample.repos Cases.busy_store) Cases.list_all ∅ ∅ 2
      {| PageToken_BeforeID := None; PageToken_Size := 2 |}
      (Sample.store_events Cases.busy_store)
      = Ret (currID, releases, nextPageToken)
    ∧ Z.of_nat (length releases) ≤ 2
    ∧ nextPageToken =
        (if decide (Z.of_nat (length (Sample.store_events Cases.busy_store)) = 2 + 1)
         then (λ event, {| PageToken_BeforeID := Some (pretty (Event_ID event));
                           PageToken_Size := 2 |})
                <$> head (Sample.store_events Cases.busy_store)
         else None).
Proof.
  apply (StreamReleases_page_bounded (repos := Sample.repos Cases.busy_store)
           Cases.list_all ∅ ∅ 2 {| PageToken_BeforeID := None; PageToken_Size := 2 |}
           (Sample.store_events Cases.busy_store)).
  - lia.
  - vm_compute. discriminate.
Defined.

(** X11 on the sample bus: no app id, one wildcard subscription. *)
Lemma subscribeEvents_subscribes_each_witness :
  let run := subscribeEvents (bus := Sample.bus) [] [EventTypeRelease] [] in
  EventListener_Err Cases.first_handle = None
  ∧ length (EventListener_subs Cases.first_handle) = length [""]
  ∧ calls run Scenario.w0 =
      trace Scenario.w0
        ++ subscribed [EventTypeRelease] [] (zip [""] (EventListener_subs Cases.first_handle))
  ∧ Forall (λ s, open_after (calls run Scenario.w0) s false = true)
      (EventListener_subs Cases.first_handle).
Proof.
  intros run.
  refine (subscribeEvents_subscribes_each (bus := Sample.bus) [] [EventTypeRelease] []
            Scenario.w0 Cases.first_handle _).
  reflexivity.
Defined.

(** X12 on a bus whose listener cannot be started. *)
Lemma subscribeEvents_listen_failure_witness :
  subscribeEvents (bus := Cases.dead_bus) ["A"] [EventTypeScaleRequest] []
    {| eventListener := None; trace := [] |}
  = (inl Sample.listener_closed,
     {| eventListener := Some (NewEventListener (EventBus := Cases.dead_bus));
        trace := [] |}).
Proof.
  refine (subscribeEvents_listen_failure (bus := Cases.dead_bus) ["A"]
            [EventTypeScaleRequest] [] {| eventListener := None; trace := [] |}
            (NewEventListener (EventBus := Cases.dead_bus)) Sample.listener_closed _ _).
  - exact I.
  - reflexivity.
Defined.

(** X13 on the sample bus: the repo refuses the scale request. *)
Lemma createScale_insert_failure_witness :
  let run := createScale (bus := Sample.bus) Scenario.scale_up Cases.refused_scale in
  result run Scenario.w0 = inl Sample.storage_down
  ∧ calls run Scenario.w0 =
      calls (subscribeEvents ["A"] [EventTypeScaleRequest] []) Scenario.w0
        ++ [CallAddScaleRequest (pending_request Scenario.scale_up)]
        ++ [CallClose (0%nat : @Subscriber Sample.bus)]
  ∧ Forall (λ s, open_after (calls run Scenario.w0) s true = false)
      [0%nat : @Subscriber Sample.bus].
Proof.
  intros run.
  refine (createScale_insert_failure (bus := Sample.bus) Scenario.scale_up
            Cases.refused_scale Scenario.w0 Cases.first_handle Sample.storage_down _ _);
    reflexivity.
Defined.

(** X15 on the sample bus: the deployment is still running when the
    channel is closed. *)
Lemma CreateDeployment_channel_closed_witness :
  let run := CreateDeployment (bus := Sample.bus) Scenario.deploy_R2
               Cases.unfinished_deployment in
  result run Scenario.w0 = None
  ∧ sent (calls run Scenario.w0) =
      forwarded <$> omap acted_on
        [Scenario.deployment_event 11 "running" "";
         Scenario.deployment_event 13 "running" ""]
  ∧ scale_requests_added (calls run Scenario.w0) = [].
Proof.
  intros run.
  destruct (CreateDeployment_channel_closed (bus := Sample.bus) Scenario.deploy_R2
              Cases.unfinished_deployment Scenario.w0 (Scenario.d1 "pending")
              Cases.first_handle)
    as (Hrun & Hsent & Hadded & _);
    [reflexivity | reflexivity | repeat constructor |].
  split_and!; [unfold run, result; rewrite Hrun; reflexivity | exact Hsent | exact Hadded].
Defined.

(** X21 on a sample projection: the same keys, named in another order
    and twice. *)
Lemma UpdateApp_mask_is_a_set_witness :
  let app := ConvertApp (Utils := Sample.utils) Scenario.a1 in
  UpdateApp.data {| UpdateAppRequest_App := app;
                    UpdateAppRequest_UpdateMask := Some ["labels"; "strategy"; "labels"] |}
  = UpdateApp.data {| UpdateAppRequest_App := app;
                      UpdateAppRequest_UpdateMask := Some ["strategy"; "meta"] |}
  ∧ UpdateApp.data {| UpdateAppRequest_App := app;
                      UpdateAppRequest_UpdateMask :=
                        Some ["labels"; "strategy"; "labels"] |}
    ⊆ UpdateApp.unmasked app.
Proof.
  intros app.
  apply (UpdateApp_mask_is_a_set app ["labels"; "strategy"; "labels"] ["strategy"; "meta"]).
  - discriminate.
  - discriminate.
  - vm_compute. reflexivity.
Defined.

(** X22 on the sample repos: a page of two apps, read from a first page
    that holds two. *)
Lemma listApps_single_page_witness :
  let req := Cases.pair_page in
  listApps (repos := Sample.repos Scenario.store) 1 req Scenario.w0 =
    (Ret (inr (ConvertApp <$> [Scenario.a1; Scenario.a2],
               Some {| PageToken_BeforeID := Some "a2"; PageToken_Size := 2 |})),
     log [CallQuery (appRepo_ListPage_query
                       {| PageToken_BeforeID := None; PageToken_Size := 2 |})] Scenario.w0).
Proof.
  intros req.
  refine (listApps_single_page (bus := Sample.bus) (repos := Sample.repos Scenario.store)
            0 req Scenario.w0 {| PageToken_BeforeID := None; PageToken_Size := 0 |}
            [Scenario.a1; Scenario.a2]
            (Some {| PageToken_BeforeID := Some "a2"; PageToken_Size := 2 |}) _ _ _ _).
  - reflexivity.
  - reflexivity.
  - vm_compute. reflexivity.
  - right. vm_compute. discriminate.
Defined.

(** X23 on the sample repos: a page token that asks for minus one
    app. *)
Lemma listApps_negative_size_panics_witness :
  listApps (repos := Sample.repos Scenario.store) 1 Cases.negative_page Scenario.w0 =
    (Panic,
     log [CallQuery (appRepo_ListPage_query
                       {| PageToken_BeforeID := None; PageToken_Size := -1 |})] Scenario.w0).
Proof.
  refine (listApps_negative_size_panics (bus := Sample.bus)
            (repos := Sample.repos Scenario.store) 0 Cases.negative_page Scenario.w0
            {| PageToken_BeforeID := None; PageToken_Size := -1 |}
            [Scenario.a1; Scenario.a2; Scenario.a3; Scenario.a4] None _ _ _ _).
  - vm_compute. reflexivity.
  - vm_compute. discriminate.
  - reflexivity.
  - vm_compute. reflexivity.
Defined.
